(** * avfplayer: the AVF container reader, frame demuxer, palette
    synthesizer, audio track assembler and render pipeline of
    [avfplayer.py], embedded in Rocq.

    Python integers are [Z]; the bytes of a file or of a [np.uint8] array
    are [Byte.byte]; arrays are lists read with [!!] and written with
    [<[i:=x]>]; an exception is the [Err] branch of [result].

    Floating point is idealised: the audio and pixel arithmetic, whose
    inputs are small integers, is carried out in [Q]; the palette, which
    needs [cos], [sin] and [pi], in [R]. Module [B64] evaluates the same
    expressions in binary64 where their inputs are concrete. *)

From Stdlib Require Import ZArith Lia List QArith Qround Qminmax Lqa.
From Stdlib Require Import Reals Lra.
From Stdlib.Strings Require Import Byte.
From Stdlib.Floats Require Import SpecFloat.
From stdpp Require Import base option list.

Local Open Scope Z_scope.

(** ** Exceptions *)

Inductive error : Type :=
| IndexError   (* subscript out of range *)
| ValueError.  (* numpy rejects an argument: a shape that does not
                  broadcast, a negative sample count, no knots *)

Inductive result (A : Type) : Type :=
| Ok (a : A)
| Err (e : error).
Arguments Ok {A} a.
Arguments Err {A} e.

#[global] Instance result_ret : MRet result := λ A a, Ok a.
#[global] Instance result_bind : MBind result := λ A B f m,
  match m with
  | Ok a => f a
  | Err e => Err e
  end.

(** ** Python sequences *)

Definition len {A} (l : list A) : Z := Z.of_nat (length l).

(** [l[lo:hi]] for non-negative bounds: a bound past the end is clipped,
    never an error. *)
Definition slice {A} (l : list A) (lo hi : Z) : list A :=
  take (Z.to_nat (hi - lo)) (drop (Z.to_nat lo) l).

(** [l[i]]: a negative subscript counts from the end; anything outside
    the sequence raises. *)
Definition getitem {A} (l : list A) (i : Z) : result A :=
  let j := if decide (i < 0) then i + len l else i in
  if decide (0 <= j) then
    match l !! Z.to_nat j with
    | Some x => Ok x
    | None => Err IndexError
    end
  else Err IndexError.

(** [l[i] = x] on an array. *)
Definition setitem {A} (l : list A) (i : Z) (x : A) : result (list A) :=
  let j := if decide (i < 0) then i + len l else i in
  if decide (0 <= j < len l) then Ok (<[Z.to_nat j := x]> l)
  else Err IndexError.

(** [range(lo, hi)] and [range(n)] *)
Definition range_from (lo hi : Z) : list Z :=
  (λ i : nat, lo + Z.of_nat i) <$> seq 0 (Z.to_nat (hi - lo)).

Definition range (n : Z) : list Z := range_from 0 n.

(** [for y in ys: s = body(y, s)], an exception in the body ends the loop. *)
Fixpoint for_in {S} (ys : list Z) (body : Z → S → result S) (s : S)
  : result S :=
  match ys with
  | [] => Ok s
  | y :: ys' => s' ← body y s; for_in ys' body s'
  end.

(** ** Constants *)

Definition WIDTH : Z := 160.
Definition HEIGHT : Z := 192.
Definition FRAME_SIZE_BYTES : Z := 8704.
Definition HEADER_SIZE : Z := 8192.

(** ** Container reader ([_load_process_full], step 1) *)

(** [f.seek(HEADER_SIZE)] when the size is not a multiple of the frame
    size, then [f.read()]: seeking past the end of a short file is allowed
    and the read then returns no bytes. *)
Definition read_raw (file : list byte) : list byte :=
  let size := len file in
  if decide (size mod FRAME_SIZE_BYTES ≠ 0) then drop (Z.to_nat HEADER_SIZE) file
  else file.

(** ** Frame demuxer: video *)

Abbreviation matrix := (list (list byte)).

(** [v[y] = np.frombuffer(src, dtype=np.uint8)] on a matrix whose rows are
    40 wide: a 40-byte source is copied, a 1-byte source is broadcast, any
    other length cannot be broadcast. *)
Definition set_row (v : matrix) (y : Z) (src : list byte) : result matrix :=
  if decide (len src = 40) then setitem v y src
  else if decide (len src = 1) then
    b ← getitem src 0; setitem v y (replicate 40 b)
  else Err ValueError.

Definition video_body (chunk : list byte) (b : Z) (v : matrix) : result matrix :=
  let bb := b * 128 in
  let y := b * 3 in
  v ← set_row v y (slice chunk (bb + 1) (bb + 41));
  v ← set_row v (y + 1) (slice chunk (bb + 45) (bb + 85));
  set_row v (y + 2) (slice chunk (bb + 88) (bb + 128)).

Definition extract_video (chunk : list byte) : result matrix :=
  let v := replicate (Z.to_nat HEIGHT) (replicate 40 x00) in
  for_in (range 64) (video_body chunk) v.

(** ** Frame demuxer: audio *)

(** [for y in ys: if guard: break; ...]: the body answers [None] when it
    breaks, which both tap loops do before touching the state. *)
Fixpoint for_in_break {S} (ys : list Z) (body : Z → S → result (option S))
  (s : S) : result S :=
  match ys with
  | [] => Ok s
  | y :: ys' =>
      r ← body y s;
      match r with
      | Some s' => for_in_break ys' body s'
      | None => Ok s
      end
  end.

(** The cursor [ptr] and the tap array [ac]; [written] is a ghost log of
    the subscripts of [ac] assigned so far, latest first. *)
Record tap_state : Type := TapState {
  ptr : Z;
  ac : list byte;
  written : list Z
}.

(** [np.full(512, 50, dtype=np.uint8)] holds the byte 0x32 = 50. *)
Definition silence : byte := x32.

Definition byte_val (b : byte) : Z := Z.of_N (Byte.to_N b).

(** [ac[i] = chunk[src]] *)
Definition tap (chunk : list byte) (i src : Z) (s : tap_state)
  : result tap_state :=
  b ← getitem chunk src;
  a ← setitem (ac s) i b;
  Ok {| ptr := ptr s; ac := a; written := i :: written s |}.

(** [ptr += n] *)
Definition advance (n : Z) (s : tap_state) : tap_state :=
  {| ptr := ptr s + n; ac := ac s; written := written s |}.

Definition phase1_body (chunk : list byte) (off1 off2 : Z) (y : Z)
  (s : tap_state) : result (option tap_state) :=
  let p := ptr s in
  if decide (p + 9 >= len chunk) then Ok None
  else
    s ← tap chunk y p s;
    s ← tap chunk (y + off1) (p + 1) s;
    s ← tap chunk (y + 32 + off1) (p + 2) s;
    s ← tap chunk (y + 64 + off1) (p + 3) s;
    s ← tap chunk (y + 96 + off1) (p + 4) s;
    s ← tap chunk (y + 128 + off1) (p + 5) s;
    s ← tap chunk (y + 160 + off1) (p + 6) s;
    s ← tap chunk (y + off2) (p + 7) s;
    s ← tap chunk (y + 32 + off2) (p + 8) s;
    Ok (Some (advance 10 s)).

Definition phase2_body (chunk : list byte) (is_pal : bool) (off2 : Z) (y : Z)
  (s : tap_state) : result (option tap_state) :=
  if decide (ptr s >= len chunk) then Ok None
  else
    s ← tap chunk (y + 32) (ptr s) s;
    let s := advance 1 s in
    if is_pal then
      s ← (if decide (ptr s < len chunk) then
             s ← tap chunk (y + 64 + off2) (ptr s) s; Ok (advance 1 s)
           else Ok s);
      Ok (Some (advance 8 s))
    else Ok (Some (advance 9 s)).

Definition phase3 (chunk : list byte) (s : tap_state) : result tap_state :=
  if decide (ptr s < len chunk) then tap chunk 51 (ptr s) s else Ok s.

Definition offsets (is_pal : bool) : Z * Z :=
  if is_pal then (120, 52) else (70, 52).

Definition audio_len (is_pal : bool) : Z := if is_pal then 312 else 262.

(** The three tap loops on one chunk, from [ptr = 8192; ac = np.full(...)]
    up to, and not including, the truncation [ac[:audio_len]]. *)
Definition tap_algorithm (is_pal : bool) (chunk : list byte)
  : result tap_state :=
  let '(off1, off2) := offsets is_pal in
  let s := {| ptr := 8192; ac := replicate 512 silence; written := [] |} in
  s ← for_in_break (range 32) (phase1_body chunk off1 off2) s;
  s ← for_in_break (range 19) (phase2_body chunk is_pal off2) s;
  phase3 chunk s.

Definition extract_audio (is_pal : bool) (chunk : list byte)
  : result (list byte) :=
  s ← tap_algorithm is_pal chunk;
  Ok (slice (ac s) 0 (audio_len is_pal)).

(** ** Demux loop ([_load_process_full], step 2) *)

Definition demux_body (is_pal : bool) (raw : list byte) (i : Z)
  (acc : list matrix * list (list byte))
  : result (list matrix * list (list byte)) :=
  let base := i * FRAME_SIZE_BYTES in
  let chunk := slice raw base (base + FRAME_SIZE_BYTES) in
  v ← extract_video chunk;
  a ← extract_audio is_pal chunk;
  Ok (acc.1 ++ [v], acc.2 ++ [a]).

Definition num_frames (raw : list byte) : Z := len raw / FRAME_SIZE_BYTES.

Definition demux (is_pal : bool) (raw : list byte)
  : result (list matrix * list (list byte)) :=
  for_in (range (num_frames raw)) (demux_body is_pal raw) ([], []).

(** The video frames and audio chunks decoded from a file. *)
Definition load_frames (is_pal : bool) (file : list byte)
  : result (list matrix * list (list byte)) :=
  demux is_pal (read_raw file).

(** ** Audio track assembler ([_load_process_full], step 3) *)

(** [int(x)] and [astype] to an integer type: truncation toward zero. *)
Definition int_Q (q : Q) : Z := Z.quot (Qnum q) (Z.pos (Qden q)).

(** [np.clip(x, lo, hi)] *)
Definition clip (x lo hi : Q) : Q := Qmin (Qmax x lo) hi.

Definition fps (is_pal : bool) : Q := if is_pal then 49.86%Q else 59.92%Q.

(** [np.concatenate(audio_chunks).astype(np.float32)], or a thousand
    zeros when no frame was decoded. *)
Definition raw_audio (audio_chunks : list (list byte)) : list Q :=
  match audio_chunks with
  | [] => replicate 1000 0%Q
  | _ => (λ b, inject_Z (byte_val b)) <$> concat audio_chunks
  end.

(** [np.clip(raw_audio, 0, 100) - 50.0] *)
Definition center (x : Q) : Q := (clip x 0 100 - 50)%Q.

Definition tgt_samples (is_pal : bool) (mix_freq : Z) (frames : Z) : Z :=
  let vid_dur := (inject_Z frames / fps is_pal)%Q in
  int_Q (vid_dur * inject_Z mix_freq).

(** [np.linspace(0, 1, num)] *)
Definition linspace01 (num : Z) : result (list Q) :=
  if decide (num < 0) then Err ValueError
  else if decide (num = 1) then Ok [0%Q]
  else Ok ((λ i, inject_Z i / inject_Z (num - 1))%Q <$> range num).

(** The search of [np.interp] for a sample point [x] not left of the
    first knot: the segment [xp[j] <= x < xp[j+1]] is interpolated, a
    point on a knot takes its value, a point at or beyond the last knot
    the last value. *)
Fixpoint interp_from (x : Q) (xp fp : list Q) : Q :=
  match xp, fp with
  | x0 :: xp', f0 :: fp' =>
      match xp', fp' with
      | x1 :: _, f1 :: _ =>
          if Qlt_le_dec x x1 then
            if Qeq_bool x0 x then f0
            else ((f1 - f0) / (x1 - x0) * (x - x0) + f0)%Q
          else interp_from x xp' fp'
      | _, _ => f0
      end
  | _, _ => 0%Q
  end.

(** [np.interp(x, xp, fp)] at one sample point. *)
Definition interp1 (x : Q) (xp fp : list Q) : Q :=
  match xp, fp with
  | x0 :: _, f0 :: _ => if Qlt_le_dec x x0 then f0 else interp_from x xp fp
  | _, _ => 0%Q
  end.

Definition interp (xs xp fp : list Q) : result (list Q) :=
  if decide (length xp = 0%nat ∨ length xp ≠ length fp) then Err ValueError
  else Ok ((λ x, interp1 x xp fp) <$> xs).

(** [np.clip(resampled * 500.0, -32000, 32000).astype(np.int16)]: the
    clip keeps the value inside the 16-bit range, so the conversion only
    truncates. *)
Definition to_pcm (x : Q) : Z := int_Q (clip (x * 500) (-32000) 32000).

Record loaded : Type := Loaded {
  loaded_frames : list matrix;
  loaded_final : list (list Z);   (* one row per sample, one column per channel *)
  loaded_viz : list Z             (* the first channel: the mono track *)
}.

(** The time stretch: the centered stream resampled to the target length
    over the normalised time axis. *)
Definition resample (is_pal : bool) (mix_freq : Z) (frames : Z)
  (audio_chunks : list (list byte)) : result (list Q) :=
  let audio := center <$> raw_audio audio_chunks in
  let vid_dur_samples := tgt_samples is_pal mix_freq frames in
  xs ← linspace01 vid_dur_samples;
  xp ← linspace01 (len audio);
  interp xs xp audio.

Definition _load_process_full (is_pal : bool) (mix_freq mix_chans : Z)
  (file : list byte) : result loaded :=
  let raw := read_raw file in
  '(video_frames, audio_chunks) ← demux is_pal raw;
  resampled ← resample is_pal mix_freq (num_frames raw) audio_chunks;
  let resampled := to_pcm <$> resampled in
  let final :=
    if decide (mix_chans > 1) then
      (λ s, replicate (Z.to_nat mix_chans) s) <$> resampled
    else (λ s, [s]) <$> resampled in
  Ok {| loaded_frames := video_frames;
        loaded_final := final;
        loaded_viz := resampled |}.

(** ** Palette synthesizer ([_generate_gtia_palette]) *)

Abbreviation rgb := (Z * Z * Z)%type.

(** [int(x)] on a float. *)
Definition int_R (x : R) : Z :=
  if Rle_dec 0 x then Int_part x else - Int_part (- x).

Definition gray_body (luma : Z) (palette : list rgb) : result (list rgb) :=
  let val := int_R (IZR luma / 15 * 255) in
  setitem palette luma (val, val, val).

Definition color_rgb (phase_shift saturation : R) (chroma luma : Z) : rgb :=
  let angle := (IZR (chroma - 1) * (2 * PI / 15) + phase_shift)%R in
  let y := (IZR luma / 15)%R in
  let sat := (saturation * 0.5)%R in
  let u := (sat * cos angle)%R in
  let v := (sat * sin angle)%R in
  let r := (y + 1.140 * v)%R in
  let g := (y - 0.395 * u - 0.581 * v)%R in
  let b := (y + 2.032 * u)%R in
  (Z.max 0 (Z.min 255 (int_R (r * 255))),
   Z.max 0 (Z.min 255 (int_R (g * 255))),
   Z.max 0 (Z.min 255 (int_R (b * 255)))).

Definition palette_index (chroma luma : Z) : Z :=
  Z.lor (Z.shiftl chroma 4) luma.

Definition color_body (phase_shift saturation : R) (chroma luma : Z)
  (palette : list rgb) : result (list rgb) :=
  setitem palette (palette_index chroma luma)
    (color_rgb phase_shift saturation chroma luma).

Definition _generate_gtia_palette (phase_shift saturation : R)
  : result (list rgb) :=
  let palette := replicate 256 (0, 0, 0) in
  palette ← for_in (range 16) gray_body palette;
  for_in (range_from 1 16)
    (λ chroma, for_in (range 16) (color_body phase_shift saturation chroma))
    palette.

(** ** Render pipeline ([run], from the frame to the blended rows) *)

Abbreviation pixel := (Q * Q * Q)%type.

(** [l[0::2]]; [l[1::2]] is [every_other (drop 1 l)]. *)
Fixpoint every_other {A} (l : list A) : list A :=
  match l with
  | [] => []
  | x :: l' => x :: match l' with [] => [] | _ :: l'' => every_other l'' end
  end.

(** [np.stack([(row >> 4) & 0xF, row & 0xF], axis=-1)] flattened: the high
    nibble of each byte, then its low nibble. *)
Definition unpack_row (row : list byte) : list Z :=
  b ← row; [Z.land (Z.shiftr (byte_val b) 4) 15; Z.land (byte_val b) 15].

(** [self.palette[indices]]: a nibble pair is a subscript below 256, inside
    the table. *)
Definition _decode_frame_gtia (palette : list rgb)
  (luma_block chroma_block : list (list Z)) : list (list rgb) :=
  zip_with (zip_with (λ l c, palette !!! Z.to_nat (palette_index c l)))
    luma_block chroma_block.

(** [astype(np.float32)] *)
Definition to_float (c : rgb) : pixel :=
  (inject_Z c.1.1, inject_Z c.1.2, inject_Z c.2).

(** [np.repeat(a, 2, axis=1)] on one row. *)
Definition repeat2 {A} (row : list A) : list A := x ← row; [x; x].

Definition rgb_wide (is_pal : bool) (palette : list rgb) (vf : matrix)
  : list (list pixel) :=
  let chroma_line := if is_pal then every_other vf else every_other (drop 1 vf) in
  let luma_line := if is_pal then every_other (drop 1 vf) else every_other vf in
  let h_proc := (length chroma_line `min` length luma_line)%nat in
  let c_unp := unpack_row <$> take h_proc chroma_line in
  let l_unp := unpack_row <$> take h_proc luma_line in
  let rgb_base := fmap to_float <$> _decode_frame_gtia palette l_unp c_unp in
  repeat2 <$> rgb_base.

(** [(a + b) * 0.5] on the three channels. *)
Definition average (a b : pixel) : pixel :=
  (((a.1.1 + b.1.1) * 0.5)%Q, ((a.1.2 + b.1.2) * 0.5)%Q, ((a.2 + b.2) * 0.5)%Q).

(** One row of
    [blended = np.zeros_like(rgb_wide)],
    [blended[:, 1:] = (rgb_wide[:, 1:] + rgb_wide[:, :-1]) * 0.5],
    [blended[:, 0] = rgb_wide[:, 0]]; column 0 of an empty row does not
    exist. *)
Definition blend_row (row : list pixel) : result (list pixel) :=
  let blended := replicate (length row) (0%Q, 0%Q, 0%Q) in
  let blended :=
    take 1 blended
    ++ zip_with average (drop 1 row) (slice row 0 (len row - 1)) in
  p ← getitem row 0;
  setitem blended 0 p.

Fixpoint map_rows {A B} (f : A → result B) (rows : list A) : result (list B) :=
  match rows with
  | [] => Ok []
  | r :: rows' => r' ← f r; rs ← map_rows f rows'; Ok (r' :: rs)
  end.

Definition blend (enable_blending : bool) (wide : list (list pixel))
  : result (list (list pixel)) :=
  if enable_blending then map_rows blend_row wide else Ok wide.

(** ** Player state and input handling ([__init__], [run]) *)

Record player : Type := Player {
  is_pal : bool;
  debug_mode : bool;
  looping : bool;
  show_scanlines : bool;
  enable_blending : bool;
  phase_shift : R;
  saturation : R;
  palette : list rgb;
  video_frames : list matrix;
  final_sound : list (list Z);
  viz_array : list Z
}.

Definition init_player (is_pal debug : bool) (mix_freq mix_chans : Z)
  (file : list byte) : result player :=
  palette ← _generate_gtia_palette 1.8 0.15;
  l ← _load_process_full is_pal mix_freq mix_chans file;
  Ok {| is_pal := is_pal; debug_mode := debug; looping := false;
        show_scanlines := true; enable_blending := true;
        phase_shift := 1.8; saturation := 0.15; palette := palette;
        video_frames := loaded_frames l; final_sound := loaded_final l;
        viz_array := loaded_viz l |}.

Inductive key : Type :=
| K_ESCAPE | K_l | K_d | K_s | K_b | K_SPACE
| K_LEFTBRACKET | K_RIGHTBRACKET | K_other.

#[global] Instance key_eq_dec : EqDecision key.
Proof. solve_decision. Defined.

(** The tunables and toggles a key press changes; [shift] is
    [mods & KMOD_SHIFT]. Escape, space and the window events only touch the
    transport variables local to [run]. *)
Definition set_looping (b : bool) (p : player) : player :=
  Player (is_pal p) (debug_mode p) b (show_scanlines p) (enable_blending p)
    (phase_shift p) (saturation p) (palette p) (video_frames p)
    (final_sound p) (viz_array p).

Definition set_debug_mode (b : bool) (p : player) : player :=
  Player (is_pal p) b (looping p) (show_scanlines p) (enable_blending p)
    (phase_shift p) (saturation p) (palette p) (video_frames p)
    (final_sound p) (viz_array p).

Definition set_show_scanlines (b : bool) (p : player) : player :=
  Player (is_pal p) (debug_mode p) (looping p) b (enable_blending p)
    (phase_shift p) (saturation p) (palette p) (video_frames p)
    (final_sound p) (viz_array p).

Definition set_enable_blending (b : bool) (p : player) : player :=
  Player (is_pal p) (debug_mode p) (looping p) (show_scanlines p) b
    (phase_shift p) (saturation p) (palette p) (video_frames p)
    (final_sound p) (viz_array p).

Definition set_phase_shift (x : R) (p : player) : player :=
  Player (is_pal p) (debug_mode p) (looping p) (show_scanlines p)
    (enable_blending p) x (saturation p) (palette p) (video_frames p)
    (final_sound p) (viz_array p).

Definition set_saturation (x : R) (p : player) : player :=
  Player (is_pal p) (debug_mode p) (looping p) (show_scanlines p)
    (enable_blending p) (phase_shift p) x (palette p) (video_frames p)
    (final_sound p) (viz_array p).

Definition set_palette (t : list rgb) (p : player) : player :=
  Player (is_pal p) (debug_mode p) (looping p) (show_scanlines p)
    (enable_blending p) (phase_shift p) (saturation p) t (video_frames p)
    (final_sound p) (viz_array p).

Definition toggles (k : key) (p : player) : player :=
  let p := if decide (k = K_l) then set_looping (negb (looping p)) p else p in
  let p := if decide (k = K_d) then set_debug_mode (negb (debug_mode p)) p else p in
  let p := if decide (k = K_s) then set_show_scanlines (negb (show_scanlines p)) p else p in
  if decide (k = K_b) then set_enable_blending (negb (enable_blending p)) p else p.

Definition live_tuning (k : key) (shift : bool) (p : player) : player * bool :=
  if shift then
    let '(p, regen) :=
      if decide (k = K_RIGHTBRACKET)
      then (set_saturation (Rmin 2.0 (saturation p + 0.05)) p, true)
      else (p, false) in
    if decide (k = K_LEFTBRACKET)
    then (set_saturation (Rmax 0.0 (saturation p - 0.05)) p, true)
    else (p, regen)
  else
    let '(p, regen) :=
      if decide (k = K_LEFTBRACKET)
      then (set_phase_shift (phase_shift p - 0.05) p, true)
      else (p, false) in
    if decide (k = K_RIGHTBRACKET)
    then (set_phase_shift (phase_shift p + 0.05) p, true)
    else (p, regen).

Definition keydown (k : key) (shift : bool) (p : player) : result player :=
  let p := toggles k p in
  let '(p, regen) := live_tuning k shift p in
  if regen then
    t ← _generate_gtia_palette (phase_shift p) (saturation p);
    Ok (set_palette t p)
  else Ok p.

(** Any run of key presses. *)
Fixpoint keydowns (ks : list (key * bool)) (p : player) : result player :=
  match ks with
  | [] => Ok p
  | (k, shift) :: ks' => p' ← keydown k shift p; keydowns ks' p'
  end.

(** ** Binary64 evaluation

    The palette and the sample count are computed in IEEE 754 binary64.
    Where the inputs are concrete, the operations of [SpecFloat] (round to
    nearest even, 53 bits) evaluate the very expressions of the source;
    they cross-check the idealised arithmetic above. *)

Module B64.

Definition of_Z (z : Z) : spec_float := binary_normalize 53 1024 z 0 false.
Definition add : spec_float → spec_float → spec_float := SFadd 53 1024.
Definition sub : spec_float → spec_float → spec_float := SFsub 53 1024.
Definition mul : spec_float → spec_float → spec_float := SFmul 53 1024.
Definition div : spec_float → spec_float → spec_float := SFdiv 53 1024.

(** The decimal literal [n/d], correctly rounded. *)
Definition lit (n d : Z) : spec_float := div (of_Z n) (of_Z d).

(** [int(x)]: truncation toward zero; infinities and NaN raise. *)
Definition to_int (x : spec_float) : option Z :=
  match x with
  | S754_zero _ => Some 0
  | S754_finite s m e =>
      let a := if 0 <=? e then Z.pos m * 2 ^ e else Z.pos m / 2 ^ (- e) in
      Some (if s then - a else a)
  | _ => None
  end.

End B64.

(** [int((luma / 15.0) * 255)] *)
Definition gray_b64 (luma : Z) : option Z :=
  B64.to_int (B64.mul (B64.div (B64.of_Z luma) (B64.of_Z 15)) (B64.of_Z 255)).

(** The body of the colour loop from [y = ...] on, given the values the
    maths library returned for [cos(angle)] and [sin(angle)]. *)
Definition color_rgb_b64 (cos_angle sin_angle saturation : spec_float)
  (luma : Z) : option (Z * Z * Z) :=
  let y := B64.div (B64.of_Z luma) (B64.of_Z 15) in
  let sat := B64.mul saturation (B64.lit 5 10) in
  let u := B64.mul sat cos_angle in
  let v := B64.mul sat sin_angle in
  let r := B64.add y (B64.mul (B64.lit 1140 1000) v) in
  let g := B64.sub (B64.sub y (B64.mul (B64.lit 395 1000) u))
             (B64.mul (B64.lit 581 1000) v) in
  let b := B64.add y (B64.mul (B64.lit 2032 1000) u) in
  let channel x := z ← B64.to_int (B64.mul x (B64.of_Z 255));
                   Some (Z.max 0 (Z.min 255 z)) in
  r ← channel r; g ← channel g; b ← channel b; Some (r, g, b).

(** [int((num_frames / self.fps) * self.mix_freq)] *)
Definition tgt_samples_b64 (is_pal : bool) (mix_freq frames : Z) : option Z :=
  let fps := if is_pal then B64.lit 4986 100 else B64.lit 5992 100 in
  B64.to_int (B64.mul (B64.div (B64.of_Z frames) fps) (B64.of_Z mix_freq)).

(** ** Loop invariants *)

(** What the first [n] rounds of the video loop have established. *)
Definition video_inv (chunk : list byte) (n : Z) (v : matrix) : Prop :=
  len v = 192
  ∧ Forall (λ row, len row = 40) v
  ∧ ∀ b, 0 <= b < n →
      v !! Z.to_nat (b * 3) = Some (slice chunk (b * 128 + 1) (b * 128 + 41))
      ∧ v !! Z.to_nat (b * 3 + 1) = Some (slice chunk (b * 128 + 45) (b * 128 + 85))
      ∧ v !! Z.to_nat (b * 3 + 2) = Some (slice chunk (b * 128 + 88) (b * 128 + 128)).

(** The tap array keeps its 512 entries, the cursor stays non-negative and
    an entry that was never assigned still holds the silence byte. *)
Definition tap_inv (s : tap_state) : Prop :=
  len (ac s) = 512
  ∧ 0 <= ptr s
  ∧ ∀ i, 0 <= i < 512 → i ∉ written s → ac s !! Z.to_nat i = Some silence.

(** The nine subscripts of one round of the first tap loop, in the order
    of the assignments. *)
Definition phase1_targets (off1 off2 y : Z) : list Z :=
  [y; y + off1; y + 32 + off1; y + 64 + off1; y + 96 + off1;
   y + 128 + off1; y + 160 + off1; y + off2; y + 32 + off2].

(** [a[i] = b] for each subscript and byte, first pair first. *)
Definition assign_in_order (targets : list Z) (bytes : list byte)
  (a : list byte) : list byte :=
  foldl (λ a ib, <[Z.to_nat ib.1 := ib.2]> a) a (zip targets bytes).

(** The table after the gray loop and after the colour rounds of the
    chromas below [c]. *)
Definition palette_inv (phase_shift saturation : R) (c : Z)
  (palette : list rgb) : Prop :=
  len palette = 256
  ∧ (∀ l, 0 <= l < 16 →
       palette !! Z.to_nat l = Some (17 * l, 17 * l, 17 * l))
  ∧ ∀ c' l, 1 <= c' < c → 0 <= l < 16 →
      palette !! Z.to_nat (palette_index c' l)
      = Some (color_rgb phase_shift saturation c' l).

(** ** The specification's wording *)

(** The frame count as the specification words it:
    [floor((file_size - (8192 if file_size mod 8704 <> 0 else 0)) / 8704)]. *)
Definition spec_frame_count (file_size : Z) : Z :=
  (file_size - (if decide (file_size mod 8704 ≠ 0) then 8192 else 0)) / 8704.

(** Rounding to the nearest integer, as the specification words the
    conversion of a channel. *)
Definition round_R (x : R) : Z := Int_part (x + / 2).

(** The colour triplet as the specification words it: each channel scaled
    by 255, rounded, clamped to [0, 255]. *)
Definition spec_color_rgb (phase_shift saturation : R) (chroma luma : Z)
  : rgb :=
  let angle := (IZR (chroma - 1) * (2 * PI / 15) + phase_shift)%R in
  let y := (IZR luma / 15)%R in
  let sat := (saturation * 0.5)%R in
  let u := (sat * cos angle)%R in
  let v := (sat * sin angle)%R in
  let r := (y + 1.140 * v)%R in
  let g := (y - 0.395 * u - 0.581 * v)%R in
  let b := (y + 2.032 * u)%R in
  (Z.max 0 (Z.min 255 (round_R (r * 255))),
   Z.max 0 (Z.min 255 (round_R (g * 255))),
   Z.max 0 (Z.min 255 (round_R (b * 255)))).

(** Rounding to the nearest integer. *)
Definition round_Q (x : Q) : Z := Qfloor (x + (1 # 2)).

(** ** The tap loops on byte positions

    The tap loops never look at the value of a byte: run on the positions
    [0 .. n-1] of an [n]-byte chunk, with -1 standing for the silence the
    array starts with, they give, for each entry of the tap array, the
    position of the chunk byte that ends up there. *)

Record pos_state : Type := PosState {
  pos_ptr : Z;
  pos_ac : list Z
}.

(** [chunk[src]] as a position of an [n]-byte chunk. *)
Definition pos_getitem (n src : Z) : result Z :=
  let j := if decide (src < 0) then src + n else src in
  if decide (0 <= j < n) then Ok j else Err IndexError.

Definition pos_tap (n : Z) (i src : Z) (s : pos_state) : result pos_state :=
  p ← pos_getitem n src;
  a ← setitem (pos_ac s) i p;
  Ok {| pos_ptr := pos_ptr s; pos_ac := a |}.

Definition pos_advance (k : Z) (s : pos_state) : pos_state :=
  {| pos_ptr := pos_ptr s + k; pos_ac := pos_ac s |}.

Definition pos_phase1_body (n : Z) (off1 off2 : Z) (y : Z) (s : pos_state)
  : result (option pos_state) :=
  let p := pos_ptr s in
  if decide (p + 9 >= n) then Ok None
  else
    s ← pos_tap n y p s;
    s ← pos_tap n (y + off1) (p + 1) s;
    s ← pos_tap n (y + 32 + off1) (p + 2) s;
    s ← pos_tap n (y + 64 + off1) (p + 3) s;
    s ← pos_tap n (y + 96 + off1) (p + 4) s;
    s ← pos_tap n (y + 128 + off1) (p + 5) s;
    s ← pos_tap n (y + 160 + off1) (p + 6) s;
    s ← pos_tap n (y + off2) (p + 7) s;
    s ← pos_tap n (y + 32 + off2) (p + 8) s;
    Ok (Some (pos_advance 10 s)).

Definition pos_phase2_body (n : Z) (is_pal : bool) (off2 : Z) (y : Z)
  (s : pos_state) : result (option pos_state) :=
  if decide (pos_ptr s >= n) then Ok None
  else
    s ← pos_tap n (y + 32) (pos_ptr s) s;
    let s := pos_advance 1 s in
    if is_pal then
      s ← (if decide (pos_ptr s < n) then
             s ← pos_tap n (y + 64 + off2) (pos_ptr s) s; Ok (pos_advance 1 s)
           else Ok s);
      Ok (Some (pos_advance 8 s))
    else Ok (Some (pos_advance 9 s)).

Definition pos_phase3 (n : Z) (s : pos_state) : result pos_state :=
  if decide (pos_ptr s < n) then pos_tap n 51 (pos_ptr s) s else Ok s.

Definition pos_algorithm (is_pal : bool) (n : Z) : result pos_state :=
  let '(off1, off2) := offsets is_pal in
  let s := {| pos_ptr := 8192; pos_ac := replicate 512 (-1) |} in
  s ← for_in_break (range 32) (pos_phase1_body n off1 off2) s;
  s ← for_in_break (range 19) (pos_phase2_body n is_pal off2) s;
  pos_phase3 n s.

(** The byte a position stands for. *)
Definition byte_at (chunk : list byte) (p : Z) : byte :=
  if decide (p < 0) then silence else default x00 (chunk !! Z.to_nat p).

(** The byte state and the position state of the same run. *)
Definition tap_sim (chunk : list byte) (s : tap_state) (t : pos_state) : Prop :=
  ptr s = pos_ptr t
  ∧ ac s = byte_at chunk <$> pos_ac t
  ∧ Forall (λ p, -1 <= p < len chunk) (pos_ac t).

(** Two results that fail alike or succeed with related values. *)
Definition result_sim {A B} (R : A → B → Prop) (r : result A) (r' : result B)
  : Prop :=
  match r, r' with
  | Ok a, Ok b => R a b
  | Err e, Err e' => e = e'
  | _, _ => False
  end.

Definition option_sim {A B} (R : A → B → Prop) (o : option A) (o' : option B)
  : Prop :=
  match o, o' with
  | Some a, Some b => R a b
  | None, None => True
  | _, _ => False
  end.

(** The layout table holds position [p] at entry [i], for each listed
    pair [(i, p)]. *)
Definition layout_has (table : list Z) (pairs : list (Z * Z)) : bool :=
  forallb (λ ip, bool_decide (table !! Z.to_nat ip.1 = Some ip.2)) pairs.

(** ** Predicates of the further properties *)

(** The bytes of a 128-byte sub-block that reach the picture. *)
Definition displayed (offset : Z) : Prop :=
  1 <= offset < 41 ∨ 45 <= offset < 85 ∨ 88 <= offset < 128.

(** A colour that a [np.uint8] triple holds as it is. *)
Definition is_rgb8 (c : rgb) : Prop :=
  0 <= c.1.1 <= 255 ∧ 0 <= c.1.2 <= 255 ∧ 0 <= c.2 <= 255.

(** The palette of a player is the one its tunables generate. *)
Definition tuned (p : player) : Prop :=
  _generate_gtia_palette (phase_shift p) (saturation p) = Ok (palette p)
  ∧ (0 <= saturation p <= 2)%R.

(** ** Render pipeline, continued ([__init__], [run]) *)

(** [np.ones((192, 1, 1))] with [mask[1::2] = 0.6]: one factor per row. *)
Definition scanline_mask : list Q :=
  (λ i, if Z.even i then 1 else 0.6)%Q <$> range 192.

Definition scale_pixel (m : Q) (px : pixel) : pixel :=
  ((px.1.1 * m)%Q, (px.1.2 * m)%Q, (px.2 * m)%Q).

(** [rgb_192 * self.scanline_mask]: the mask has 192 rows, so the picture
    must have 192 rows, or a single one that is then repeated. *)
Definition apply_mask (rgb_192 : list (list pixel))
  : result (list (list pixel)) :=
  if decide (len rgb_192 = 192) then
    Ok (zip_with (λ m row, scale_pixel m <$> row) scanline_mask rgb_192)
  else
    match rgb_192 with
    | [row] => Ok ((λ m, scale_pixel m <$> row) <$> scanline_mask)
    | _ => Err ValueError
    end.

(** [astype(np.uint8)] on channels that lie within 0..255. *)
Definition to_uint8 (px : pixel) : rgb :=
  (int_Q px.1.1, int_Q px.1.2, int_Q px.2).

(** [rgb_192.astype(np.uint8)] *)
Definition to_uint8_rows (rows : list (list pixel)) : list (list rgb) :=
  (λ row : list pixel, to_uint8 <$> row) <$> rows.

(** The render pipeline of [run] for one frame, up to the array handed to
    the display surface. *)
Definition render (p : player) (vf : matrix) : result (list (list rgb)) :=
  let wide := rgb_wide (is_pal p) (palette p) vf in
  wide ← blend (enable_blending p) wide;
  let rgb_192 := repeat2 wide in
  if show_scanlines p then
    masked ← apply_mask rgb_192; Ok (to_uint8_rows masked)
  else Ok (to_uint8_rows rgb_192).

(** One of the two 4-bit fields of a byte: the high one first. *)
Definition nibble (k : nat) (b : byte) : Z :=
  if Nat.even k then Z.land (Z.shiftr (byte_val b) 4) 15
  else Z.land (byte_val b) 15.

(** Binary32: the product of a half-integer channel [k/2] and the mask
    factor, the double 0.6 stored in a [np.float32] array, truncated. *)
Definition darken_b32 (k : Z) : option Z :=
  let factor :=
    match B64.lit 6 10 with
    | S754_finite s m e => binary_normalize 24 128 (Z.pos m) e s
    | x => x
    end in
  let channel := SFdiv 24 128 (binary_normalize 24 128 k 0 false)
                   (binary_normalize 24 128 2 0 false) in
  B64.to_int (SFmul 24 128 channel factor).

(** ** Playback clock ([run]) *)

(** The timing variables local to [run]. *)
Record transport : Type := Transport {
  start_ticks : Z;
  paused : bool;
  pause_start : Z
}.

(** The space key at time [now] (milliseconds from [get_ticks]). *)
Definition space_key (now : Z) (t : transport) : transport :=
  if paused t then
    {| start_ticks := start_ticks t + (now - pause_start t);
       paused := false; pause_start := pause_start t |}
  else
    {| start_ticks := start_ticks t; paused := true; pause_start := now |}.

(** [ticks = pygame.time.get_ticks() - start_ticks] *)
Definition elapsed (now : Z) (t : transport) : Z := now - start_ticks t.

(** [f_idx = int((ticks / 1000.0) * self.fps)] *)
Definition frame_index (is_pal : bool) (ticks : Z) : Z :=
  int_Q (inject_Z ticks / 1000 * fps is_pal).

(** The frame to render, or [None] at the end of the file, where the
    session stops or restarts. *)
Definition current_frame (is_pal : bool) (frames : list matrix) (ticks : Z)
  : result (option matrix) :=
  let f_idx := frame_index is_pal ticks in
  if decide (f_idx >= len frames) then Ok None
  else vf ← getitem frames f_idx; Ok (Some vf).

(** A channel of the blended picture: half an integer between 0 and 510. *)
Definition half_int8 (x : Q) : Prop := ∃ k, 0 <= k <= 510 ∧ (x == k # 2)%Q.

(** A pixel as decoded, integer on every channel, and a pixel as blended. *)
Definition int_pixel (px : pixel) : Prop := ∃ c, is_rgb8 c ∧ px = to_float c.

Definition half_pixel (px : pixel) : Prop :=
  half_int8 px.1.1 ∧ half_int8 px.1.2 ∧ half_int8 px.2.

(** ** Audio track assembler, continued *)

(** The 16-bit sample a tap byte becomes where no interpolation mixes it
    with its neighbour: centered, scaled, clipped and truncated. *)
Definition pcm_of_byte (b : byte) : Z :=
  to_pcm (center (inject_Z (byte_val b))).

(** ** Overlays ([_draw_oscilloscope], [_draw_progressbar]) *)

(** What the overlay arithmetic can raise besides the exceptions of the
    loader. *)
Inductive draw_error : Type :=
| Raised (e : error)
| ZeroDivisionError.

(** [self.window_w = WIDTH * self.scale_x] with [scale_x = scale * 2] *)
Definition window_w (scale : Z) : Z := WIDTH * (scale * 2).

(** [l[lo:hi]] with bounds of either sign: a negative bound counts from
    the end, and both are clipped to the sequence. *)
Definition slice_signed {A} (l : list A) (lo hi : Z) : list A :=
  let norm i :=
    if decide (i < 0) then Z.max (i + len l) 0 else Z.min i (len l) in
  slice l (norm lo) (norm hi).

(** [range(0, n, step)] *)
Definition range_step (n step : Z) : draw_error + list Z :=
  if decide (step = 0) then inl (Raised ValueError)
  else if decide (0 < step) then
    inr ((λ k, k * step) <$> range ((n + step - 1) / step))
  else inr ((λ k, k * step) <$> range ((n + step + 1) / step)).

(** The points appended for the indices [idxs]:
    [((i/len(c))*self.window_w, 50-(c[i]/32000*50))]. The loop runs under
    [len(c) > 0], so the first division is a division. *)
Fixpoint trace_points (window_w : Z) (c : list Z) (idxs : list Z)
  : draw_error + list (Q * Q) :=
  match idxs with
  | [] => inr []
  | i :: idxs =>
      match getitem c i with
      | Err e => inl (Raised e)
      | Ok s =>
          let pt := (inject_Z i / inject_Z (len c) * inject_Z window_w,
                     50 - inject_Z s / 32000 * 50)%Q in
          match trace_points window_w c idxs with
          | inl e => inl e
          | inr pts => inr (pt :: pts)
          end
      end
  end.

(** The points of the oscilloscope trace at [ms] milliseconds, or [None]
    when the playback position is past the track and nothing is drawn. The
    polyline itself is drawn when there are at least two points. *)
Definition _draw_oscilloscope (window_w mix_freq : Z) (viz_array : list Z)
  (ms : Z) : draw_error + option (list (Q * Q)) :=
  let idx := int_Q (inject_Z ms / 1000 * inject_Z mix_freq) in
  let w := 1000 in
  if decide (idx < len viz_array) then
    let c := slice_signed viz_array idx (idx + w) in
    if decide (len c > 0) then
      if decide (window_w = 0) then inl ZeroDivisionError
      else
        let q := (inject_Z (len c) / inject_Z window_w)%Q in
        let step := if Qlt_le_dec 1 q then q else 1%Q in
        match range_step (len c) (int_Q step) with
        | inl e => inl e
        | inr idxs =>
            match trace_points window_w c idxs with
            | inl e => inl e
            | inr pts => inr (Some pts)
            end
        end
    else inr (Some [])
  else inr None.

(** The width of the filled part of the progress bar:
    [(idx/len(self.video_frames))*w]. *)
Definition _draw_progressbar (window_w : Z) (video_frames : list matrix)
  (idx : Z) : draw_error + Q :=
  if decide (len video_frames = 0) then inl ZeroDivisionError
  else inr (inject_Z idx / inject_Z (len video_frames) * inject_Z window_w)%Q.

(** * Proofs *)

(** ** Sequences and loops *)

Lemma len_nonneg {A} (l : list A) : 0 <= len l.
Proof. unfold len. lia. Qed.

Lemma len_slice {A} (l : list A) (lo hi : Z) :
  0 <= lo → lo <= hi → hi <= len l → len (slice l lo hi) = hi - lo.
Proof.
  unfold slice, len. intros Hlo Hhi Hlen.
  rewrite length_take, length_drop. lia.
Qed.

Lemma lookup_slice {A} (l : list A) (lo hi : Z) (i : nat) :
  0 <= lo → Z.of_nat i < hi - lo →
  slice l lo hi !! i = l !! (Z.to_nat lo + i)%nat.
Proof.
  unfold slice. intros Hlo Hi.
  rewrite lookup_take_lt by lia. by rewrite lookup_drop.
Qed.

Lemma slice_slice {A} (l : list A) (a b c d : Z) :
  0 <= a → 0 <= c → c <= d → a + d <= b →
  slice (slice l a b) c d = slice l (a + c) (a + d).
Proof.
  intros Ha Hc Hd Hb. apply list_eq. intros i.
  destruct (decide (Z.of_nat i < d - c)) as [Hi|Hi].
  - rewrite !lookup_slice by lia. f_equal. lia.
  - unfold slice. rewrite !lookup_take_ge; [done|lia|lia].
Qed.

Lemma getitem_lookup {A} (l : list A) (i : Z) (x : A) :
  0 <= i → l !! Z.to_nat i = Some x → getitem l i = Ok x.
Proof.
  intros Hi Hx. unfold getitem.
  destruct (decide (i < 0)); [lia|].
  destruct (decide (0 <= i)); [|lia]. by rewrite Hx.
Qed.

Lemma getitem_in_range {A} (l : list A) (i : Z) :
  0 <= i < len l → ∃ x, l !! Z.to_nat i = Some x ∧ getitem l i = Ok x.
Proof.
  intros Hi. destruct (lookup_lt_is_Some_2 l (Z.to_nat i)) as [x Hx].
  { unfold len in Hi. lia. }
  exists x. split; [done|]. apply getitem_lookup; [lia|done].
Qed.

Lemma setitem_in_range {A} (l : list A) (i : Z) (x : A) :
  0 <= i < len l → setitem l i x = Ok (<[Z.to_nat i := x]> l).
Proof.
  intros Hi. unfold setitem.
  destruct (decide (i < 0)); [lia|].
  by destruct (decide (0 <= i < len l)).
Qed.

Lemma len_insert {A} (l : list A) (i : nat) (x : A) :
  len (<[i := x]> l) = len l.
Proof. unfold len. by rewrite length_insert. Qed.

Lemma range_from_nil (lo hi : Z) : hi <= lo → range_from lo hi = [].
Proof. intros H. unfold range_from. by replace (Z.to_nat (hi - lo)) with 0%nat by lia. Qed.

Lemma range_from_cons (lo hi : Z) :
  lo < hi → range_from lo hi = lo :: range_from (lo + 1) hi.
Proof.
  intros H. unfold range_from.
  replace (Z.to_nat (hi - lo)) with (S (Z.to_nat (hi - (lo + 1)))) by lia.
  cbn [seq fmap list_fmap]. f_equal; [lia|].
  rewrite <- seq_shift, <- list_fmap_compose.
  apply list_fmap_ext. intros _ i _. cbn. lia.
Qed.

Lemma length_range_from (lo hi : Z) :
  length (range_from lo hi) = Z.to_nat (hi - lo).
Proof. unfold range_from. by rewrite length_fmap, length_seq. Qed.

Lemma elem_of_range_from (lo hi y : Z) :
  y ∈ range_from lo hi ↔ lo <= y < hi.
Proof.
  unfold range_from. rewrite list_elem_of_fmap. split.
  - intros (i & -> & Hi). apply elem_of_seq in Hi. lia.
  - intros Hy. exists (Z.to_nat (y - lo)). split; [lia|].
    apply elem_of_seq. lia.
Qed.

(** A loop over a range keeps an invariant indexed by the loop counter. *)
Lemma for_in_range_from {S} (P : Z → S → Prop) (body : Z → S → result S)
  (lo hi : Z) (s : S) :
  lo <= hi → P lo s →
  (∀ i s, lo <= i < hi → P i s → ∃ s', body i s = Ok s' ∧ P (i + 1) s') →
  ∃ s', for_in (range_from lo hi) body s = Ok s' ∧ P hi s'.
Proof.
  intros Hle. remember (Z.to_nat (hi - lo)) as n eqn:Hn.
  revert lo s Hle Hn. induction n as [|n IH]; intros lo s Hle Hn HP Hbody.
  - rewrite range_from_nil by lia. exists s. split; [done|].
    by replace hi with lo by lia.
  - rewrite range_from_cons by lia. cbn [for_in].
    destruct (Hbody lo s) as (s1 & -> & HP1); [lia|done|].
    cbn. apply IH; [lia|lia|done|].
    intros i s2 Hi. apply Hbody. lia.
Qed.

(** A loop with [break] keeps an invariant of the state. *)
Lemma for_in_break_inv {S} (P : S → Prop) (body : Z → S → result (option S))
  (ys : list Z) (s : S) :
  P s →
  (∀ y s, y ∈ ys → P s →
     body y s = Ok None ∨ ∃ s', body y s = Ok (Some s') ∧ P s') →
  ∃ s', for_in_break ys body s = Ok s' ∧ P s'.
Proof.
  revert s. induction ys as [|y ys IH]; intros s HP Hbody.
  - by exists s.
  - cbn [for_in_break].
    destruct (Hbody y s) as [-> | (s1 & -> & HP1)]; [by left|done| |].
    + by exists s.
    + cbn. apply IH; [done|]. intros y' s2 Hy'. apply Hbody. by right.
Qed.

(** ** Video extraction *)

Lemma set_row_full (v : matrix) (y : Z) (src : list byte) :
  len src = 40 → 0 <= y < len v →
  set_row v y src = Ok (<[Z.to_nat y := src]> v).
Proof.
  intros Hsrc Hy. unfold set_row.
  destruct (decide (len src = 40)); [|done].
  by apply setitem_in_range.
Qed.

Lemma video_body_inv (chunk : list byte) (b : Z) (v : matrix) :
  8192 <= len chunk → 0 <= b < 64 → video_inv chunk b v →
  ∃ v', video_body chunk b v = Ok v' ∧ video_inv chunk (b + 1) v'.
Proof.
  intros Hchunk Hb (Hlen & Hrows & Hdone). unfold video_body.
  set (r0 := slice chunk (b * 128 + 1) (b * 128 + 41)).
  set (r1 := slice chunk (b * 128 + 45) (b * 128 + 85)).
  set (r2 := slice chunk (b * 128 + 88) (b * 128 + 128)).
  assert (len r0 = 40) as H0 by (unfold r0; rewrite len_slice; lia).
  assert (len r1 = 40) as H1 by (unfold r1; rewrite len_slice; lia).
  assert (len r2 = 40) as H2 by (unfold r2; rewrite len_slice; lia).
  rewrite (set_row_full v) by lia. cbn.
  rewrite set_row_full by (rewrite ?len_insert; lia). cbn.
  rewrite set_row_full by (rewrite ?len_insert; lia).
  eexists. split; [done|]. split; [|split].
  - by rewrite !len_insert.
  - by repeat apply Forall_insert.
  - assert (length v = 192%nat) as Hlen' by (unfold len in Hlen; lia).
    intros b' Hb'. destruct (decide (b' = b)) as [->|Hne].
    + split; [|split].
      * do 2 (rewrite list_lookup_insert_ne by lia).
        apply list_lookup_insert_eq. lia.
      * rewrite list_lookup_insert_ne by lia.
        apply list_lookup_insert_eq. rewrite length_insert. lia.
      * apply list_lookup_insert_eq. rewrite !length_insert. lia.
    + rewrite !list_lookup_insert_ne by lia. apply Hdone. lia.
Qed.

Lemma extract_video_full (chunk : list byte) :
  8192 <= len chunk → ∃ v, extract_video chunk = Ok v ∧ video_inv chunk 64 v.
Proof.
  intros Hchunk. unfold extract_video, range.
  apply (for_in_range_from (video_inv chunk)); [lia| |].
  - split; [|split].
    + unfold len. rewrite length_replicate. done.
    + apply Forall_replicate. unfold len. by rewrite length_replicate.
    + intros b Hb. lia.
  - intros b v Hb Hinv. apply video_body_inv; [done|lia|done].
Qed.

(** ** Audio extraction *)

Lemma tap_run (chunk : list byte) (i src : Z) (s : tap_state) :
  0 <= i < len (ac s) → 0 <= src < len chunk →
  ∃ b, chunk !! Z.to_nat src = Some b
       ∧ tap chunk i src s
         = Ok {| ptr := ptr s; ac := <[Z.to_nat i := b]> (ac s);
                 written := i :: written s |}.
Proof.
  intros Hi Hsrc. destruct (getitem_in_range chunk src) as (b & Hb & Hget); [done|].
  exists b. split; [done|]. unfold tap. rewrite Hget. cbn.
  by rewrite setitem_in_range.
Qed.

Lemma tap_keeps_inv (chunk : list byte) (i src : Z) (s : tap_state) :
  0 <= i < 512 → 0 <= src < len chunk → tap_inv s →
  ∃ s', tap chunk i src s = Ok s' ∧ tap_inv s' ∧ ptr s' = ptr s.
Proof.
  intros Hi Hsrc (Hlen & Hptr & Hsil).
  destruct (tap_run chunk i src s) as (b & _ & ->); [lia|done|].
  eexists. split; [done|]. split; [|done]. split; [|split]; cbn.
  - by rewrite len_insert.
  - done.
  - intros j Hj Hnw. apply not_elem_of_cons in Hnw as [Hne Hnw].
    rewrite list_lookup_insert_ne by lia. by apply Hsil.
Qed.

Lemma advance_keeps_inv (n : Z) (s : tap_state) :
  0 <= n → tap_inv s → tap_inv (advance n s).
Proof. intros Hn (Hlen & Hptr & Hsil). split; [|split]; cbn; [done|lia|done]. Qed.

Ltac tap_step :=
  match goal with
  | H : tap_inv ?s |- context [tap ?chunk ?i ?src ?s] =>
      let s' := fresh "s" in
      let Hrun := fresh "Hrun" in
      let Hinv := fresh "Hinv" in
      let Hp := fresh "Hp" in
      destruct (tap_keeps_inv chunk i src s) as (s' & Hrun & Hinv & Hp);
      [lia | lia | exact H |];
      rewrite Hrun; cbn [mbind result_bind]; clear Hrun
  end.

Lemma offsets_cases (is_pal : bool) (off1 off2 : Z) :
  offsets is_pal = (off1, off2) → (off1 = 120 ∨ off1 = 70) ∧ off2 = 52.
Proof. destruct is_pal; cbn; intros [= <- <-]; lia. Qed.

Lemma phase1_body_inv (chunk : list byte) (off1 off2 y : Z) (s : tap_state) :
  (off1 = 120 ∨ off1 = 70) ∧ off2 = 52 → 0 <= y < 32 → tap_inv s →
  phase1_body chunk off1 off2 y s = Ok None
  ∨ ∃ s', phase1_body chunk off1 off2 y s = Ok (Some s') ∧ tap_inv s'.
Proof.
  intros Hoff Hy Hinv. unfold phase1_body.
  destruct (decide (ptr s + 9 >= len chunk)) as [|Hroom]; [by left|right].
  assert (0 <= ptr s) as Hptr by apply Hinv.
  repeat tap_step.
  eexists. split; [done|]. by apply advance_keeps_inv.
Qed.

Lemma phase2_body_inv (chunk : list byte) (is_pal : bool) (off2 y : Z)
  (s : tap_state) :
  off2 = 52 → 0 <= y < 19 → tap_inv s →
  phase2_body chunk is_pal off2 y s = Ok None
  ∨ ∃ s', phase2_body chunk is_pal off2 y s = Ok (Some s') ∧ tap_inv s'.
Proof.
  intros Hoff Hy Hinv. unfold phase2_body.
  destruct (decide (ptr s >= len chunk)) as [|Hroom]; [by left|right].
  assert (0 <= ptr s) as Hptr by apply Hinv.
  tap_step. destruct is_pal.
  - assert (tap_inv (advance 1 s0)) as Hinv1 by by apply advance_keeps_inv.
    destruct (decide (ptr (advance 1 s0) < len chunk)) as [Hmore|].
    + assert (0 <= ptr (advance 1 s0)) as Hptr1 by apply Hinv1.
      tap_step. eexists. split; [done|].
      by do 2 (apply advance_keeps_inv; [lia|]).
    + cbn [mbind result_bind]. eexists. split; [done|].
      by apply advance_keeps_inv.
  - eexists. split; [done|]. by do 2 (apply advance_keeps_inv; [lia|]).
Qed.

Lemma phase3_inv (chunk : list byte) (s : tap_state) :
  tap_inv s → ∃ s', phase3 chunk s = Ok s' ∧ tap_inv s'.
Proof.
  intros Hinv. unfold phase3.
  destruct (decide (ptr s < len chunk)) as [Hmore|]; [|by exists s].
  assert (0 <= ptr s) as Hptr by apply Hinv.
  destruct (tap_keeps_inv chunk 51 (ptr s) s) as (s' & -> & Hinv' & _);
    [lia|lia|done|]. by exists s'.
Qed.

Lemma tap_algorithm_inv (is_pal : bool) (chunk : list byte) :
  ∃ s, tap_algorithm is_pal chunk = Ok s ∧ tap_inv s.
Proof.
  unfold tap_algorithm. destruct (offsets is_pal) as [off1 off2] eqn:Hoff.
  apply offsets_cases in Hoff.
  edestruct (for_in_break_inv tap_inv (phase1_body chunk off1 off2) (range 32))
    as (s1 & -> & Hinv1).
  { split; [|split]; cbn [ac ptr written].
    - unfold len. by rewrite length_replicate.
    - lia.
    - intros i Hi _. apply lookup_replicate_2. lia. }
  { intros y s Hy. apply elem_of_range_from in Hy.
    apply phase1_body_inv; [done|lia]. }
  cbn [mbind result_bind].
  edestruct (for_in_break_inv tap_inv (phase2_body chunk is_pal off2) (range 19))
    as (s2 & -> & Hinv2); [exact Hinv1| |].
  { intros y s Hy. apply elem_of_range_from in Hy.
    apply phase2_body_inv; [lia|lia]. }
  cbn [mbind result_bind]. by apply phase3_inv.
Qed.

Lemma extract_audio_total (is_pal : bool) (chunk : list byte) :
  ∃ a, extract_audio is_pal chunk = Ok a ∧ len a = audio_len is_pal.
Proof.
  destruct (tap_algorithm_inv is_pal chunk) as (s & Hs & Hlen & _).
  unfold extract_audio. rewrite Hs. cbn [mbind result_bind].
  eexists. split; [done|]. rewrite len_slice; destruct is_pal; cbn; lia.
Qed.

(** ** Demux loop *)

Lemma num_frames_nonneg (raw : list byte) : 0 <= num_frames raw.
Proof.
  unfold num_frames, FRAME_SIZE_BYTES. pose proof (len_nonneg raw).
  Z.div_mod_to_equations. lia.
Qed.

(** Every chunk the loop cuts is a whole frame. *)
Lemma len_chunk (raw : list byte) (i : Z) :
  0 <= i < num_frames raw →
  len (slice raw (i * FRAME_SIZE_BYTES) (i * FRAME_SIZE_BYTES + FRAME_SIZE_BYTES))
  = FRAME_SIZE_BYTES.
Proof.
  unfold num_frames, FRAME_SIZE_BYTES. intros Hi.
  rewrite len_slice; [lia|lia|lia|].
  Z.div_mod_to_equations. lia.
Qed.

Lemma demux_body_total (is_pal : bool) (raw : list byte) (i : Z)
  (acc : list matrix * list (list byte)) :
  0 <= i < num_frames raw →
  ∃ v a, demux_body is_pal raw i acc = Ok (acc.1 ++ [v], acc.2 ++ [a])
         ∧ len a = audio_len is_pal.
Proof.
  intros Hi. unfold demux_body.
  pose proof (len_chunk raw i Hi) as Hlen.
  destruct (extract_video_full
              (slice raw (i * FRAME_SIZE_BYTES) (i * FRAME_SIZE_BYTES + FRAME_SIZE_BYTES)))
    as (v & -> & _).
  { rewrite Hlen. unfold FRAME_SIZE_BYTES. lia. }
  cbn [mbind result_bind].
  destruct (extract_audio_total is_pal
              (slice raw (i * FRAME_SIZE_BYTES) (i * FRAME_SIZE_BYTES + FRAME_SIZE_BYTES)))
    as (a & -> & Ha).
  cbn [mbind result_bind]. by exists v, a.
Qed.

Lemma demux_total (is_pal : bool) (raw : list byte) :
  ∃ vs taps, demux is_pal raw = Ok (vs, taps)
    ∧ len vs = num_frames raw ∧ len taps = num_frames raw
    ∧ Forall (λ a, len a = audio_len is_pal) taps.
Proof.
  pose proof (num_frames_nonneg raw) as Hn.
  destruct (for_in_range_from
              (λ i (acc : list matrix * list (list byte)),
                 len acc.1 = i ∧ len acc.2 = i
                 ∧ Forall (λ a, len a = audio_len is_pal) acc.2)
              (demux_body is_pal raw) 0 (num_frames raw) ([], []))
    as ([vs taps] & Hrun & Hvs & Htaps & Hall); [done|by cbn| |].
  - intros i acc Hi (Hv & Ha & Hall).
    destruct (demux_body_total is_pal raw i acc Hi) as (v & a & -> & Hlen).
    eexists. split; [done|]. cbn [fst snd]. unfold len in *.
    rewrite !length_app. cbn [length]. split; [lia|]. split; [lia|].
    apply Forall_app. split; [done|]. by apply Forall_singleton.
  - by exists vs, taps.
Qed.

Lemma for_in_ext {S} (body body' : Z → S → result S) (ys : list Z) (s : S) :
  (∀ y s, y ∈ ys → body y s = body' y s) →
  for_in ys body s = for_in ys body' s.
Proof.
  revert s. induction ys as [|y ys IH]; intros s Hext; [done|].
  cbn [for_in]. rewrite Hext by left.
  destruct (body' y s) as [s'|e]; [|done]. cbn.
  apply IH. intros y' s'' Hy'. apply Hext. by right.
Qed.

Lemma len_read_raw (file : list byte) :
  len (read_raw file)
  = if decide (len file mod FRAME_SIZE_BYTES ≠ 0)
    then Z.max 0 (len file - HEADER_SIZE) else len file.
Proof.
  unfold read_raw. destruct (decide _); [|done].
  unfold len. rewrite length_drop. unfold HEADER_SIZE. lia.
Qed.

Lemma for_in_break_range {S} (P : Z → S → Prop)
  (body : Z → S → result (option S)) (lo hi : Z) (s : S) :
  lo <= hi → P lo s →
  (∀ i s, lo <= i < hi → P i s →
     ∃ s', body i s = Ok (Some s') ∧ P (i + 1) s') →
  ∃ s', for_in_break (range_from lo hi) body s = Ok s' ∧ P hi s'.
Proof.
  intros Hle. remember (Z.to_nat (hi - lo)) as n eqn:Hn.
  revert lo s Hle Hn. induction n as [|n IH]; intros lo s Hle Hn HP Hbody.
  - rewrite range_from_nil by lia. exists s. split; [done|].
    by replace hi with lo by lia.
  - rewrite range_from_cons by lia. cbn [for_in_break].
    destruct (Hbody lo s) as (s1 & -> & HP1); [lia|done|].
    cbn. apply IH; [lia|lia|done|].
    intros i s2 Hi. apply Hbody. lia.
Qed.

Lemma slice_cons {A} (l : list A) (lo hi : Z) (x : A) :
  0 <= lo < hi → l !! Z.to_nat lo = Some x →
  slice l lo hi = x :: slice l (lo + 1) hi.
Proof.
  intros Hlo Hx. unfold slice.
  rewrite (drop_S _ _ _ Hx).
  replace (Z.to_nat (hi - lo)) with (S (Z.to_nat (hi - (lo + 1)))) by lia.
  cbn [take]. by replace (Z.to_nat (lo + 1)) with (S (Z.to_nat lo)) by lia.
Qed.

Lemma slice_lookups {A} (l : list A) (lo : Z) (xs : list A) :
  0 <= lo →
  (∀ (k : nat) x, xs !! k = Some x → l !! (Z.to_nat lo + k)%nat = Some x) →
  slice l lo (lo + len xs) = xs.
Proof.
  intros Hlo Hxs. apply list_eq. intros i.
  destruct (decide (i < length xs)%nat) as [Hi|Hi].
  - rewrite lookup_slice by (unfold len; lia).
    destruct (lookup_lt_is_Some_2 xs i Hi) as [x Hx].
    rewrite Hx. by apply Hxs.
  - rewrite (lookup_ge_None_2 xs) by lia.
    unfold slice. apply lookup_take_ge. unfold len. lia.
Qed.

Lemma slice_empty {A} (l : list A) (lo hi : Z) : hi <= lo → slice l lo hi = [].
Proof. intros H. unfold slice. by replace (Z.to_nat (hi - lo)) with 0%nat by lia. Qed.

Lemma phase1_body_run (chunk : list byte) (off1 off2 y : Z) (s : tap_state) :
  (off1 = 120 ∨ off1 = 70) ∧ off2 = 52 → 0 <= y < 32 →
  len (ac s) = 512 → 0 <= ptr s → ptr s + 9 < len chunk →
  phase1_body chunk off1 off2 y s
  = Ok (Some {| ptr := ptr s + 10;
                ac := assign_in_order (phase1_targets off1 off2 y)
                        (slice chunk (ptr s) (ptr s + 9)) (ac s);
                written := rev (phase1_targets off1 off2 y) ++ written s |}).
Proof.
  intros Hoff Hy Hlen Hptr Hroom. unfold phase1_body.
  destruct (decide (ptr s + 9 >= len chunk)) as [|_]; [lia|].
  destruct (tap_run chunk y (ptr s) s) as (b0 & H0 & ->); [lia|lia|].
  cbn [mbind result_bind].
  repeat match goal with
  | |- context [tap chunk ?i ?src ?t] =>
      let b := fresh "b" in
      let Hb := fresh "H" in
      destruct (tap_run chunk i src t) as (b & Hb & ->);
      [cbn [ac]; rewrite ?len_insert; lia | lia |];
      cbn [mbind result_bind ac ptr written]
  end.
  replace (slice chunk (ptr s) (ptr s + 9))
    with [b0; b; b1; b2; b3; b4; b5; b6; b7]; [reflexivity|].
  symmetry. apply (slice_lookups chunk (ptr s) [b0; b; b1; b2; b3; b4; b5; b6; b7]);
    [done|].
  intros k x Hk.
  do 9 (destruct k as [|k];
        [cbn in Hk; injection Hk as <-;
         match goal with
         | H : chunk !! ?m = Some ?b |- chunk !! ?n = Some ?b =>
             replace n with m by lia; exact H
         end
        |]).
  destruct k; discriminate.
Qed.

Lemma len_assign_in_order (targets : list Z) (bytes a : list byte) :
  len (assign_in_order targets bytes a) = len a.
Proof.
  unfold assign_in_order. generalize (zip targets bytes). intros ps.
  revert a. induction ps as [|p ps IH]; intros a; [done|].
  cbn [foldl]. by rewrite IH, len_insert.
Qed.

(** On a whole 8704-byte chunk the first tap loop never breaks: its 32
    rounds consume bytes 8192 to 8511. *)
Lemma phase1_full_chunk (is_pal : bool) (chunk : list byte) :
  len chunk = FRAME_SIZE_BYTES →
  ∃ s, for_in_break (range 32)
         (phase1_body chunk (offsets is_pal).1 (offsets is_pal).2)
         {| ptr := 8192; ac := replicate 512 silence; written := [] |} = Ok s
       ∧ ptr s = 8512 ∧ len (written s) = 288.
Proof.
  unfold FRAME_SIZE_BYTES. intros Hlen.
  destruct (for_in_break_range
              (λ i s, ptr s = 8192 + 10 * i ∧ len (ac s) = 512
                      ∧ len (written s) = 9 * i)
              (phase1_body chunk (offsets is_pal).1 (offsets is_pal).2) 0 32
              {| ptr := 8192; ac := replicate 512 silence; written := [] |})
    as (s & Hs & Hp & _ & Hw); [lia| |..].
  - cbn [ptr ac written]. split; [lia|]. split; [|done].
    unfold len. by rewrite length_replicate.
  - intros i s Hi (Hp & Ha & Hw).
    rewrite phase1_body_run; [|by destruct is_pal; cbn; lia|lia..].
    eexists. split; [done|]. cbn [ptr ac written].
    split; [lia|]. split; [by rewrite len_assign_in_order|].
    unfold len in *. rewrite length_app, length_rev. cbn [length phase1_targets]. lia.
  - exists s. split; [done|]. lia.
Qed.

(** ** Palette *)

Lemma Int_part_eq (x : R) (z : Z) :
  (IZR z <= x < IZR z + 1)%R → Int_part x = z.
Proof. intros Hx. symmetry. apply Int_part_spec. lra. Qed.

Lemma int_R_nonneg (x : R) (z : Z) :
  (0 <= x)%R → (IZR z <= x < IZR z + 1)%R → int_R x = z.
Proof.
  intros H0 Hx. unfold int_R.
  destruct (Rle_dec 0 x); [by apply Int_part_eq|done].
Qed.

Lemma int_R_neg (x : R) (z : Z) :
  (x < 0)%R → (IZR z <= - x < IZR z + 1)%R → int_R x = - z.
Proof.
  intros H0 Hx. unfold int_R.
  destruct (Rle_dec 0 x); [lra|]. f_equal. by apply Int_part_eq.
Qed.

Lemma int_R_IZR (z : Z) : int_R (IZR z) = z.
Proof.
  destruct (Z_le_gt_dec 0 z) as [Hz|Hz].
  - apply int_R_nonneg; [by apply IZR_le|lra].
  - replace z with (- - z) at 2 by lia. apply int_R_neg.
    + apply IZR_lt. lia.
    + rewrite <- opp_IZR. lra.
Qed.

Lemma gray_value (luma : Z) : int_R (IZR luma / 15 * 255) = 17 * luma.
Proof.
  replace (IZR luma / 15 * 255)%R with (IZR (17 * luma)).
  - apply int_R_IZR.
  - rewrite mult_IZR. lra.
Qed.

Lemma palette_index_eq (chroma luma : Z) :
  0 <= chroma < 16 → 0 <= luma < 16 →
  palette_index chroma luma = 16 * chroma + luma.
Proof.
  intros Hc Hl.
  assert (forallb (λ c, forallb (λ l, palette_index c l =? 16 * c + l) (range 16))
            (range 16) = true) as Hall.
  { vm_compute. reflexivity. }
  rewrite forallb_forall in Hall. specialize (Hall chroma).
  rewrite forallb_forall in Hall. apply Z.eqb_eq, Hall.
  - apply list_elem_of_In. by apply elem_of_range_from.
  - apply list_elem_of_In. by apply elem_of_range_from.
Qed.

Lemma gray_loop :
  ∃ palette, for_in (range 16) gray_body (replicate 256 (0, 0, 0)) = Ok palette
    ∧ len palette = 256
    ∧ ∀ l, 0 <= l < 16 →
        palette !! Z.to_nat l = Some (17 * l, 17 * l, 17 * l).
Proof.
  apply (for_in_range_from
           (λ i (p : list rgb), len p = 256 ∧ ∀ l, 0 <= l < i →
              p !! Z.to_nat l = Some (17 * l, 17 * l, 17 * l))); [lia| |].
  - split; [|intros l Hl; lia]. unfold len. by rewrite length_replicate.
  - intros i p Hi (Hlen & Hdone). unfold gray_body.
    rewrite gray_value, setitem_in_range by lia.
    eexists. split; [done|]. split; [by rewrite len_insert|].
    intros l Hl. destruct (decide (l = i)) as [->|Hne].
    + apply list_lookup_insert_eq. unfold len in Hlen. lia.
    + rewrite list_lookup_insert_ne by lia. apply Hdone. lia.
Qed.

Lemma color_round (phase_shift saturation : R) (c : Z) (palette : list rgb) :
  1 <= c < 16 → palette_inv phase_shift saturation c palette →
  ∃ palette', for_in (range 16) (color_body phase_shift saturation c) palette
              = Ok palette'
    ∧ palette_inv phase_shift saturation (c + 1) palette'.
Proof.
  intros Hc (Hlen & Hgray & Hcol).
  destruct (for_in_range_from
              (λ i (p : list rgb),
                 len p = 256
                 ∧ (∀ l, 0 <= l < 16 →
                      p !! Z.to_nat l = Some (17 * l, 17 * l, 17 * l))
                 ∧ (∀ c' l, 1 <= c' < c → 0 <= l < 16 →
                      p !! Z.to_nat (palette_index c' l)
                      = Some (color_rgb phase_shift saturation c' l))
                 ∧ ∀ l, 0 <= l < i →
                     p !! Z.to_nat (palette_index c l)
                     = Some (color_rgb phase_shift saturation c l))
              (color_body phase_shift saturation c) 0 16 palette)
    as (p' & Hrun & Hlen' & Hgray' & Hcol' & Hnew); [lia| |..].
  - repeat split; [done..|]. intros l Hl. lia.
  - intros i p Hi (Hl & Hg & Hc' & Hn). unfold color_body.
    rewrite palette_index_eq by lia.
    rewrite setitem_in_range by lia.
    eexists. split; [done|]. split; [by rewrite len_insert|].
    split; [|split].
    + intros l Hl'. rewrite list_lookup_insert_ne by lia. by apply Hg.
    + intros c' l Hc'' Hl'.
      specialize (Hc' c' l Hc'' Hl'). rewrite palette_index_eq in * by lia.
      by rewrite list_lookup_insert_ne by lia.
    + intros l Hl'. destruct (decide (l = i)) as [->|Hne].
      * rewrite palette_index_eq by lia.
        apply list_lookup_insert_eq. unfold len in Hl. lia.
      * specialize (Hn l). rewrite palette_index_eq in * by lia.
        rewrite list_lookup_insert_ne by lia. apply Hn. lia.
  - exists p'. split; [done|]. split; [done|]. split; [done|].
    intros c' l Hc'' Hl. destruct (decide (c' = c)) as [->|Hne].
    + by apply Hnew.
    + apply Hcol'; [lia|done].
Qed.

Lemma generate_palette_total (phase_shift saturation : R) :
  ∃ palette, _generate_gtia_palette phase_shift saturation = Ok palette
    ∧ palette_inv phase_shift saturation 16 palette.
Proof.
  unfold _generate_gtia_palette.
  destruct gray_loop as (p0 & -> & Hlen & Hgray). cbn [mbind result_bind].
  apply (for_in_range_from (palette_inv phase_shift saturation)); [lia| |].
  - split; [done|]. split; [done|]. intros c' l Hc'. lia.
  - intros c p Hc Hinv. by apply color_round.
Qed.

(** ** Audio track assembler *)

Lemma lerp_bound (lo hi x0 x1 x f0 f1 : Q) :
  (x0 < x → x < x1 → lo <= f0 <= hi → lo <= f1 <= hi →
   lo <= (f1 - f0) / (x1 - x0) * (x - x0) + f0 <= hi)%Q.
Proof.
  intros H0 H1 Hf0 Hf1.
  assert (0 < x1 - x0)%Q as Hd by Lqa.lra.
  set (t := ((x - x0) / (x1 - x0))%Q).
  assert (0 <= t)%Q as Ht0.
  { unfold t. apply Qle_shift_div_l; [done|]. Lqa.lra. }
  assert (t <= 1)%Q as Ht1.
  { unfold t. apply Qle_shift_div_r; [done|]. Lqa.lra. }
  assert ((f1 - f0) / (x1 - x0) * (x - x0) + f0 == (f1 - f0) * t + f0)%Q as ->.
  { unfold t. field. Lqa.lra. }
  split; Lqa.nra.
Qed.

(** Interpolation stays between the bounds of the samples. *)
Lemma interp_from_bound (lo hi x : Q) (xp fp : list Q) :
  Forall (λ f, lo <= f <= hi)%Q fp → length xp = length fp →
  (∀ x0, head xp = Some x0 → x0 <= x)%Q → xp ≠ [] →
  (lo <= interp_from x xp fp <= hi)%Q.
Proof.
  revert fp. induction xp as [|x0 xp IH]; intros fp Hfp Hlen Hhd Hne; [done|].
  destruct fp as [|f0 fp]; [done|].
  apply Forall_cons in Hfp as [Hf0 Hfp].
  cbn [interp_from].
  destruct xp as [|x1 xp]; [done|]. destruct fp as [|f1 fp]; [done|].
  destruct (Qlt_le_dec x x1) as [Hlt|Hge].
  - destruct (Qeq_bool x0 x) eqn:Heq; [done|].
    apply Qeq_bool_neq in Heq.
    assert (x0 <= x)%Q as Hle by by apply Hhd.
    apply lerp_bound; [|done|done|].
    + apply Qle_lteq in Hle as [Hlt'|Heq']; [done|]. by destruct Heq.
    + by apply Forall_cons in Hfp as [Hf1 _].
  - apply IH; [done| |by intros ? [= <-]|done].
    cbn [length] in *. lia.
Qed.

Lemma interp1_bound (lo hi x : Q) (xp fp : list Q) :
  Forall (λ f, lo <= f <= hi)%Q fp → length xp = length fp → xp ≠ [] →
  (lo <= interp1 x xp fp <= hi)%Q.
Proof.
  intros Hfp Hlen Hne. unfold interp1.
  destruct xp as [|x0 xp]; [done|]. destruct fp as [|f0 fp]; [done|].
  destruct (Qlt_le_dec x x0) as [Hlt|Hge].
  - by apply Forall_cons in Hfp as [Hf0 _].
  - apply interp_from_bound; [done|done| |done]. by intros ? [= <-].
Qed.

Lemma interp_total (lo hi : Q) (xs xp fp : list Q) :
  Forall (λ f, lo <= f <= hi)%Q fp → length xp = length fp → xp ≠ [] →
  ∃ ys, interp xs xp fp = Ok ys
    ∧ length ys = length xs ∧ Forall (λ y, lo <= y <= hi)%Q ys.
Proof.
  intros Hfp Hlen Hne. unfold interp.
  destruct (decide (length xp = 0%nat ∨ length xp ≠ length fp)) as [[H0|H1]|_].
  - by destruct xp.
  - done.
  - eexists. split; [done|]. split; [by rewrite length_fmap|].
    apply Forall_fmap, Forall_true. intros x. by apply interp1_bound.
Qed.

Lemma linspace01_total (num : Z) :
  0 <= num → ∃ xs, linspace01 num = Ok xs ∧ len xs = num.
Proof.
  intros Hnum. unfold linspace01.
  destruct (decide (num < 0)); [lia|].
  destruct (decide (num = 1)) as [->|_]; [by eexists|].
  eexists. split; [done|]. unfold len, range.
  rewrite length_fmap, length_range_from. lia.
Qed.

Lemma clip_range (x lo hi : Q) : (lo <= hi → lo <= clip x lo hi <= hi)%Q.
Proof.
  intros Hle. unfold clip. split.
  - apply Q.min_glb; [|done]. apply Q.le_max_r.
  - apply Q.le_min_r.
Qed.

Lemma center_range (x : Q) : (-50 <= center x <= 50)%Q.
Proof.
  unfold center. pose proof (clip_range x 0 100) as Hc.
  assert (0 <= 100)%Q as H by done. specialize (Hc H). Lqa.lra.
Qed.

(** Inside the bounds the clip returns its argument itself. *)
Lemma clip_id (x lo hi : Q) : (lo <= x <= hi)%Q → clip x lo hi = x.
Proof.
  intros [Hlo Hhi]. unfold clip, Qmin, Qmax, GenericMinMax.gmin, GenericMinMax.gmax.
  destruct (x ?= lo)%Q eqn:Hc1.
  - destruct (x ?= hi)%Q eqn:Hc2; [done..|].
    apply Qgt_alt in Hc2. Lqa.lra.
  - apply Qlt_alt in Hc1. Lqa.lra.
  - destruct (x ?= hi)%Q eqn:Hc2; [done..|].
    apply Qgt_alt in Hc2. Lqa.lra.
Qed.

Lemma int_Q_bound (q : Q) (m : Z) :
  0 <= m → (inject_Z (- m) <= q <= inject_Z m)%Q → - m <= int_Q q <= m.
Proof.
  intros Hm [Hlo Hhi]. destruct q as [n d]. unfold int_Q, Qle in *.
  cbn [Qnum Qden inject_Z] in *. split.
  - rewrite <- (Z.quot_mul (- m) (Z.pos d)) by done.
    apply Z.quot_le_mono; lia.
  - rewrite <- (Z.quot_mul m (Z.pos d)) by done.
    apply Z.quot_le_mono; lia.
Qed.

Lemma to_pcm_bound (x : Q) :
  (-50 <= x <= 50)%Q →
  clip (x * 500) (-32000) 32000 = (x * 500)%Q
  ∧ -25000 <= to_pcm x <= 25000.
Proof.
  intros Hx.
  assert (clip (x * 500) (-32000) 32000 = (x * 500)%Q) as Hclip.
  { apply clip_id. Lqa.lra. }
  split; [done|]. unfold to_pcm. rewrite Hclip.
  apply (int_Q_bound _ 25000); [lia|].
  change (inject_Z (Z.opp 25000)) with (Z.neg 25000 # 1)%Q.
  change (inject_Z 25000) with (25000 # 1)%Q. Lqa.lra.
Qed.

Lemma tgt_samples_eq (is_pal : bool) (mix_freq frames : Z) :
  tgt_samples is_pal mix_freq frames
  = Z.quot (frames * 100 * mix_freq) (if is_pal then 4986 else 5992).
Proof. by destruct is_pal. Qed.

Lemma tgt_samples_nonneg (is_pal : bool) (mix_freq frames : Z) :
  0 <= mix_freq → 0 <= frames → 0 <= tgt_samples is_pal mix_freq frames.
Proof.
  intros Hm Hf. rewrite tgt_samples_eq.
  apply Z.quot_pos; [nia|]. by destruct is_pal.
Qed.

Lemma int_Q_floor (q : Q) : (0 <= q)%Q → int_Q q = Qfloor q.
Proof.
  destruct q as [n d]. unfold Qle, int_Q, Qfloor. cbn [Qnum Qden].
  intros Hq. apply Z.quot_div_nonneg; lia.
Qed.

Lemma raw_audio_nonempty (is_pal : bool) (taps : list (list byte)) :
  Forall (λ a, len a = audio_len is_pal) taps → 0 < len (raw_audio taps).
Proof.
  intros Hall. unfold raw_audio. destruct taps as [|a taps]; [done|].
  apply Forall_cons in Hall as [Ha _].
  unfold len in *. rewrite length_fmap. cbn [concat]. rewrite length_app.
  destruct is_pal; cbn in Ha; lia.
Qed.

Lemma resample_total (is_pal : bool) (mix_freq frames : Z)
  (taps : list (list byte)) :
  0 <= mix_freq → 0 <= frames →
  Forall (λ a, len a = audio_len is_pal) taps →
  ∃ ys, resample is_pal mix_freq frames taps = Ok ys
    ∧ len ys = tgt_samples is_pal mix_freq frames
    ∧ Forall (λ y, -50 <= y <= 50)%Q ys.
Proof.
  intros Hm Hf Htaps. unfold resample.
  destruct (linspace01_total (tgt_samples is_pal mix_freq frames))
    as (xs & -> & Hxs); [by apply tgt_samples_nonneg|].
  cbn [mbind result_bind].
  pose proof (raw_audio_nonempty is_pal taps Htaps) as Hne.
  assert (len (center <$> raw_audio taps) = len (raw_audio taps)) as Hlen.
  { unfold len. by rewrite length_fmap. }
  destruct (linspace01_total (len (center <$> raw_audio taps)))
    as (xp & -> & Hxp); [lia|].
  cbn [mbind result_bind].
  destruct (interp_total (-50) 50 xs xp (center <$> raw_audio taps))
    as (ys & -> & Hys & Hbound).
  - apply Forall_fmap, Forall_true. intros x. apply center_range.
  - unfold len in *. lia.
  - intros ->. unfold len in *. cbn in Hxp. lia.
  - exists ys. split; [done|]. split; [|done]. unfold len in *. lia.
Qed.

(** Loading never raises when the mixer reports a usable frequency. *)
Lemma load_process_full_total (is_pal : bool) (mix_freq mix_chans : Z)
  (file : list byte) :
  0 <= mix_freq →
  ∃ vs taps ys l,
    demux is_pal (read_raw file) = Ok (vs, taps)
    ∧ len vs = num_frames (read_raw file)
    ∧ resample is_pal mix_freq (num_frames (read_raw file)) taps = Ok ys
    ∧ len ys = tgt_samples is_pal mix_freq (num_frames (read_raw file))
    ∧ Forall (λ y, -50 <= y <= 50)%Q ys
    ∧ _load_process_full is_pal mix_freq mix_chans file = Ok l
    ∧ loaded_frames l = vs
    ∧ loaded_viz l = to_pcm <$> ys
    ∧ Forall (λ row, Forall (λ s, s ∈ loaded_viz l) row) (loaded_final l)
    ∧ len (loaded_final l) = len (loaded_viz l).
Proof.
  intros Hm. unfold _load_process_full.
  destruct (demux_total is_pal (read_raw file))
    as (vs & taps & Hdemux & Hvs & _ & Htaps).
  destruct (resample_total is_pal mix_freq (num_frames (read_raw file)) taps)
    as (ys & Hres & Hlen & Hbound); [done|apply num_frames_nonneg|done|].
  rewrite Hdemux. cbn [mbind result_bind]. rewrite Hres. cbn [mbind result_bind].
  exists vs, taps, ys. eexists. repeat (split; [done|]).
  cbn [loaded_final loaded_viz]. split.
  - destruct (decide (mix_chans > 1)); apply Forall_fmap, Forall_forall;
      intros s Hs; cbn.
    + apply Forall_replicate. done.
    + by apply Forall_singleton.
  - unfold len. by destruct (decide (mix_chans > 1)); rewrite !length_fmap.
Qed.

(** ** Input handling *)

Lemma keydown_keeps_media (k : key) (shift : bool) (p : player) :
  ∃ p', keydown k shift p = Ok p'
    ∧ viz_array p' = viz_array p
    ∧ final_sound p' = final_sound p
    ∧ video_frames p' = video_frames p.
Proof.
  unfold keydown.
  destruct (live_tuning k shift (toggles k p)) as [p1 regen] eqn:Htune.
  assert (viz_array p1 = viz_array p ∧ final_sound p1 = final_sound p
          ∧ video_frames p1 = video_frames p) as (Hv & Hf & Hm).
  { unfold live_tuning, toggles in Htune.
    destruct shift, k; cbn in Htune; injection Htune as <- _; done. }
  destruct regen; [|by exists p1].
  destruct (generate_palette_total (phase_shift p1) (saturation p1))
    as (t & -> & _).
  cbn [mbind result_bind]. by eexists.
Qed.

Lemma keydowns_keep_media (ks : list (key * bool)) (p : player) :
  ∃ p', keydowns ks p = Ok p'
    ∧ viz_array p' = viz_array p
    ∧ final_sound p' = final_sound p
    ∧ video_frames p' = video_frames p.
Proof.
  revert p. induction ks as [|[k shift] ks IH]; intros p; [by exists p|].
  cbn [keydowns].
  destruct (keydown_keeps_media k shift p) as (p1 & -> & Hv & Hf & Hm).
  cbn [mbind result_bind].
  destruct (IH p1) as (p2 & -> & Hv' & Hf' & Hm').
  exists p2. split; [done|]. by rewrite Hv', Hf', Hm'.
Qed.

(** ** Render pipeline *)

Lemma blend_row_cons (p : pixel) (row : list pixel) :
  blend_row (p :: row)
  = Ok (p :: zip_with average row (take (length row) (p :: row))).
Proof.
  unfold blend_row. rewrite (getitem_lookup _ 0 p) by done.
  cbn [mbind result_bind length replicate take app drop].
  rewrite setitem_in_range by (unfold len; cbn [length]; lia).
  unfold slice, len. change (Z.to_nat 0) with 0%nat.
  rewrite take_0, !drop_0. cbn [app insert list_insert length]. do 3 f_equal.
  f_equal. lia.
Qed.

Lemma blend_row_columns (row : list pixel) :
  row ≠ [] →
  ∃ out, blend_row row = Ok out
    ∧ length out = length row
    ∧ out !! 0%nat = row !! 0%nat
    ∧ ∀ (i : nat) a b, (0 < i)%nat → row !! i = Some a →
        row !! (i - 1)%nat = Some b → out !! i = Some (average a b).
Proof.
  destruct row as [|p row]; [done|]. intros _.
  rewrite blend_row_cons. eexists. split; [done|]. split; [|split; [done|]].
  - cbn [length]. rewrite length_zip_with, length_take. cbn [length]. lia.
  - intros i a b Hi Ha Hb. destruct i as [|i]; [lia|].
    change ((p :: row) !! S i) with (row !! i) in Ha.
    replace (S i - 1)%nat with i in Hb by lia.
    match goal with
    | |- (_ :: ?l) !! S i = _ => change (l !! i = Some (average a b))
    end.
    rewrite lookup_zip_with, Ha. cbn [mbind option_bind].
    apply lookup_lt_Some in Ha as Hlt.
    rewrite lookup_take_lt by done. by rewrite Hb.
Qed.

Lemma map_rows_Forall2 {A B} (f : A → result B) (P : A → B → Prop)
  (rows : list A) :
  Forall (λ r, ∃ r', f r = Ok r' ∧ P r r') rows →
  ∃ out, map_rows f rows = Ok out ∧ Forall2 P rows out.
Proof.
  induction 1 as [|r rows (r' & Hr & HP) _ (out & Hout & Hall)].
  - by exists [].
  - exists (r' :: out). cbn [map_rows]. rewrite Hr. cbn [mbind result_bind].
    rewrite Hout. split; [done|]. by constructor.
Qed.

Lemma length_unpack_row (row : list byte) :
  length (unpack_row row) = (2 * length row)%nat.
Proof.
  unfold unpack_row. induction row as [|b row IH]; [done|].
  cbn [mbind list_bind app length] in *. rewrite IH. lia.
Qed.

Lemma length_repeat2 {A} (row : list A) :
  length (repeat2 row) = (2 * length row)%nat.
Proof.
  unfold repeat2. induction row as [|b row IH]; [done|].
  cbn [mbind list_bind app length] in *. rewrite IH. lia.
Qed.

Lemma Forall_every_other {A} (P : A → Prop) (l : list A) :
  Forall P l → Forall P (every_other l).
Proof.
  revert l. fix IH 2. intros l Hl.
  destruct Hl as [|x l Hx Hl]; [constructor|].
  cbn [every_other]. constructor; [done|].
  destruct Hl as [|y l Hy Hl]; [constructor|]. by apply IH.
Qed.

Lemma Forall_zip_with {A B C} (f : A → B → C) (P : A → Prop) (Q : B → Prop)
  (R : C → Prop) (l : list A) (k : list B) :
  (∀ x y, P x → Q y → R (f x y)) →
  Forall P l → Forall Q k → Forall R (zip_with f l k).
Proof.
  intros Hf Hl. revert k. induction Hl as [|x l Hx Hl IH]; intros k Hk.
  - constructor.
  - destruct Hk as [|y k Hy Hk]; [constructor|].
    cbn [zip_with]. constructor; [by apply Hf|by apply IH].
Qed.

(** A frame of 40-byte rows is rendered 160 pixels wide. *)
Lemma rgb_wide_width (is_pal : bool) (palette : list rgb) (vf : matrix) :
  Forall (λ row, len row = 40) vf →
  Forall (λ row, len row = 160) (rgb_wide is_pal palette vf).
Proof.
  intros Hvf. unfold rgb_wide, _decode_frame_gtia.
  set (c := if is_pal then every_other vf else every_other (drop 1 vf)).
  set (l := if is_pal then every_other (drop 1 vf) else every_other vf).
  assert (Forall (λ row, len row = 40) c) as Hc.
  { unfold c. destruct is_pal; apply Forall_every_other; [done|].
    by apply Forall_drop. }
  assert (Forall (λ row, len row = 40) l) as Hl.
  { unfold l. destruct is_pal; apply Forall_every_other; [|done].
    by apply Forall_drop. }
  apply Forall_fmap, Forall_fmap.
  apply (Forall_zip_with _ (λ r, length r = 80%nat) (λ r, length r = 80%nat)).
  - intros x y Hx Hy. cbn. unfold len.
    rewrite length_repeat2, length_fmap, length_zip_with. lia.
  - apply Forall_fmap, Forall_take. eapply Forall_impl; [exact Hl|].
    intros r Hr. cbn. rewrite length_unpack_row. unfold len in Hr. lia.
  - apply Forall_fmap, Forall_take. eapply Forall_impl; [exact Hc|].
    intros r Hr. cbn. rewrite length_unpack_row. unfold len in Hr. lia.
Qed.

(** ** Binary64 cross-checks *)

(** In binary64 too, [int((luma / 15.0) * 255)] is [17 * luma]. *)
Lemma gray_b64_value (luma : Z) :
  0 <= luma < 16 → gray_b64 luma = Some (17 * luma).
Proof.
  intros Hl.
  assert (forallb (λ l, match gray_b64 l with
                        | Some v => v =? 17 * l
                        | None => false
                        end) (range 16) = true) as Hall.
  { vm_compute. reflexivity. }
  rewrite forallb_forall in Hall. specialize (Hall luma).
  destruct (gray_b64 luma) as [v|].
  - f_equal. apply Z.eqb_eq, Hall, list_elem_of_In. by apply elem_of_range_from.
  - discriminate Hall. apply list_elem_of_In. by apply elem_of_range_from.
Qed.

(** A computed value less than half a sample away from the exact one still
    truncates to within one sample of the rounded exact value. *)
Lemma int_near_round (x x' : Q) :
  (0 <= x')%Q → (x - (1 # 2) < x' < x + (1 # 2))%Q →
  -1 <= int_Q x' - round_Q x <= 0.
Proof.
  intros Hpos [Hlo Hhi]. rewrite int_Q_floor by done. unfold round_Q.
  pose proof (Qfloor_le x') as H1. pose proof (Qlt_floor x') as H2.
  pose proof (Qfloor_le (x + (1 # 2))) as H3.
  pose proof (Qlt_floor (x + (1 # 2))) as H4.
  assert (inject_Z (Qfloor x') < inject_Z (Qfloor (x + (1 # 2)) + 1))%Q
    as H5 by Lqa.lra.
  assert (inject_Z (Qfloor (x + (1 # 2))) < inject_Z (Qfloor x' + 2))%Q as H6.
  { rewrite inject_Z_plus in H2. rewrite inject_Z_plus.
    change (inject_Z 1) with 1%Q in H2. change (inject_Z 2) with 2%Q.
    Lqa.lra. }
  rewrite <- Zlt_Qlt in H5, H6. lia.
Qed.

(** * The container reader and the demuxer *)

(** C1, as stated, fails on a file shorter than the header: a 100-byte file
    is not a multiple of the frame size, the seek goes past its end, nothing
    is read and no frame is decoded, while the formula gives -1. *)
Lemma frame_count_short_file :
  let file := replicate 100 x00 in
  ∃ vs taps, load_frames true file = Ok (vs, taps)
    ∧ len vs = 0
    ∧ spec_frame_count (len file) = -1
    ∧ len vs ≠ spec_frame_count (len file).
Proof. exists [], []. vm_compute. repeat split; discriminate. Qed.

(** C1 (amended): loading decodes [max 0 (spec_frame_count size)] video
    frames, which is the specification's count for every file that is a
    multiple of the frame size or at least as long as the header, and as
    many audio taps as video frames; a 17408-byte file gives 2 and 2. *)
Theorem frame_count (is_pal : bool) (file : list byte) :
  ∃ vs taps, load_frames is_pal file = Ok (vs, taps)
    ∧ len vs = Z.max 0 (spec_frame_count (len file))
    ∧ (len file mod 8704 = 0 ∨ 8192 <= len file →
       len vs = spec_frame_count (len file))
    ∧ len taps = len vs
    ∧ (len file = 17408 → len vs = 2 ∧ len taps = 2).
Proof.
  unfold load_frames.
  destruct (demux_total is_pal (read_raw file)) as (vs & taps & -> & Hvs & Htaps & _).
  exists vs, taps. split; [done|].
  assert (len vs = Z.max 0 (spec_frame_count (len file))) as Hcount.
  { rewrite Hvs. unfold num_frames. rewrite len_read_raw.
    unfold spec_frame_count, FRAME_SIZE_BYTES, HEADER_SIZE.
    pose proof (len_nonneg file).
    destruct (decide (len file mod 8704 ≠ 0)); Z.div_mod_to_equations; lia. }
  split; [done|]. split.
  { intros Hbig. rewrite Hcount. apply Z.max_r.
    unfold spec_frame_count. pose proof (len_nonneg file).
    destruct (decide (len file mod 8704 ≠ 0)); Z.div_mod_to_equations; lia. }
  split; [lia|].
  intros Hsize. rewrite Htaps, <- Hvs, Hcount, Hsize. by vm_compute.
Qed.

Lemma frame_count_witness :
  let file := replicate (Z.to_nat 17408) x00 in
  len file = 17408
  ∧ ∃ vs taps, load_frames false file = Ok (vs, taps)
      ∧ len vs = 2 ∧ len taps = 2.
Proof.
  intros file. split; [reflexivity|].
  destruct (frame_count false file) as (vs & taps & Hload & _ & _ & _ & Hex).
  exists vs, taps. split; [exact Hload|]. apply Hex. reflexivity.
Defined.

(** C2, as stated, fails: a header, one whole frame and 100 more bytes load
    without any error, as one frame; the 100 trailing bytes are dropped. *)
Lemma truncated_file_loads :
  let file := replicate (Z.to_nat (8192 + 8704 + 100)) x00 in
  len (read_raw file) mod FRAME_SIZE_BYTES = 100
  ∧ ∃ v a, load_frames true file = Ok ([v], [a]).
Proof. split; [reflexivity|]. do 2 eexists. vm_compute. reflexivity. Qed.

(** C2 (amended): loading never fails on a truncated file. Only the
    [len raw // 8704] whole chunks are demuxed, each of exactly 8704 bytes,
    so no read leaves a chunk; the bytes after the last whole chunk are
    dropped: the result is that of the data cut back to the whole chunks. *)
Theorem truncated_tail_dropped (is_pal : bool) (file : list byte) :
  let raw := read_raw file in
  let whole := slice raw 0 (num_frames raw * FRAME_SIZE_BYTES) in
  (∃ r, load_frames is_pal file = Ok r)
  ∧ load_frames is_pal file = demux is_pal whole
  ∧ len whole mod FRAME_SIZE_BYTES = 0
  ∧ ∀ i, 0 <= i < num_frames raw →
      len (slice raw (i * FRAME_SIZE_BYTES) (i * FRAME_SIZE_BYTES + FRAME_SIZE_BYTES))
      = FRAME_SIZE_BYTES.
Proof.
  intros raw whole. pose proof (num_frames_nonneg raw) as Hn.
  assert (num_frames raw * FRAME_SIZE_BYTES <= len raw) as Hfit.
  { unfold num_frames, FRAME_SIZE_BYTES. pose proof (len_nonneg raw).
    Z.div_mod_to_equations. lia. }
  assert (len whole = num_frames raw * FRAME_SIZE_BYTES) as Hwhole.
  { unfold whole. rewrite len_slice; unfold FRAME_SIZE_BYTES in *; lia. }
  assert (num_frames whole = num_frames raw) as Hsame.
  { unfold num_frames at 1. rewrite Hwhole. apply Z.div_mul. done. }
  split; [|split; [|split]].
  - unfold load_frames. fold raw.
    destruct (demux_total is_pal raw) as (vs & taps & -> & _). by eexists.
  - unfold load_frames, demux. fold raw. rewrite Hsame.
    apply for_in_ext. intros i acc Hi. apply elem_of_range_from in Hi.
    unfold demux_body. replace (slice whole _ _) with
      (slice raw (i * FRAME_SIZE_BYTES) (i * FRAME_SIZE_BYTES + FRAME_SIZE_BYTES));
      [done|].
    unfold whole. rewrite slice_slice; unfold FRAME_SIZE_BYTES in *; [|lia..].
    by rewrite !Z.add_0_l.
  - rewrite Hwhole. apply Z.mod_mul. done.
  - apply len_chunk.
Qed.

(** C8: on a full 8704-byte chunk the video extraction returns a matrix of
    192 rows of 40 bytes in which, for each sub-block [b] (bytes
    [128b, 128b+128) of the chunk), row [3b] is the sub-block's bytes
    [1, 41), row [3b+1] its bytes [45, 85) and row [3b+2] its bytes
    [88, 128). *)
Theorem video_rows (chunk : list byte) (b : Z) :
  len chunk = 8704 → 0 <= b < 64 →
  ∃ v, extract_video chunk = Ok v
    ∧ len v = 192
    ∧ Forall (λ row, len row = 40) v
    ∧ let sub_block := slice chunk (128 * b) (128 * b + 128) in
      v !! Z.to_nat (3 * b) = Some (slice sub_block 1 41)
      ∧ v !! Z.to_nat (3 * b + 1) = Some (slice sub_block 45 85)
      ∧ v !! Z.to_nat (3 * b + 2) = Some (slice sub_block 88 128).
Proof.
  intros Hlen Hb.
  destruct (extract_video_full chunk) as (v & Hv & Hl & Hrows & Hall); [lia|].
  exists v. split; [done|]. split; [done|]. split; [done|].
  destruct (Hall b Hb) as (H0 & H1 & H2). cbn zeta.
  rewrite !slice_slice by lia.
  replace (3 * b) with (b * 3) by lia.
  replace (128 * b) with (b * 128) by lia.
  by rewrite H0, H1, H2.
Qed.

Lemma video_rows_witness :
  let chunk := (λ i : nat, default x00 (Byte.of_N (N.of_nat (i `mod` 251))))
                 <$> seq 0 (Z.to_nat 8704) in
  len chunk = 8704 ∧ 0 <= 5 < 64
  ∧ ∃ v, extract_video chunk = Ok v
    ∧ len v = 192
    ∧ Forall (λ row, len row = 40) v
    ∧ let sub_block := slice chunk (128 * 5) (128 * 5 + 128) in
      v !! Z.to_nat (3 * 5) = Some (slice sub_block 1 41)
      ∧ v !! Z.to_nat (3 * 5 + 1) = Some (slice sub_block 45 85)
      ∧ v !! Z.to_nat (3 * 5 + 2) = Some (slice sub_block 88 128).
Proof.
  intros chunk.
  assert (len chunk = 8704) as Hlen by (vm_compute; reflexivity).
  assert (0 <= 5 < 64) as Hb by lia.
  split; [exact Hlen|]. split; [exact Hb|].
  exact (video_rows chunk 5 Hlen Hb).
Defined.




(** C5: whatever the chunk, the tap algorithm ends without an error, the
    AudioTap [ac[:audio_len]] has exactly [audio_len] entries (312 at 50 Hz,
    262 at 60 Hz), every subscript the algorithm never assigned still holds
    the silence byte 50, and centering ([clip] to [0, 100], minus 50) maps
    that byte to 0. *)
Theorem audio_tap_silence (is_pal : bool) (chunk : list byte) :
  ∃ s, tap_algorithm is_pal chunk = Ok s
    ∧ extract_audio is_pal chunk = Ok (slice (ac s) 0 (audio_len is_pal))
    ∧ len (slice (ac s) 0 (audio_len is_pal)) = audio_len is_pal
    ∧ audio_len is_pal = (if is_pal then 312 else 262)
    ∧ (∀ i, 0 <= i < 512 → i ∉ written s →
         ac s !! Z.to_nat i = Some silence)
    ∧ (∀ i, 0 <= i < audio_len is_pal → i ∉ written s →
         slice (ac s) 0 (audio_len is_pal) !! Z.to_nat i = Some silence)
    ∧ byte_val silence = 50
    ∧ center (inject_Z (byte_val silence)) = 0%Q.
Proof.
  destruct (tap_algorithm_inv is_pal chunk) as (s & Hs & Hlen & Hptr & Hsil).
  exists s. split; [done|]. split.
  { unfold extract_audio. by rewrite Hs. }
  assert (0 <= audio_len is_pal <= 512) as Hal by (destruct is_pal; cbn; lia).
  split; [rewrite len_slice; lia|]. split; [done|]. split; [done|].
  split; [|by vm_compute].
  intros i Hi Hnw. rewrite lookup_slice by lia.
  replace (Z.to_nat 0 + Z.to_nat i)%nat with (Z.to_nat i) by lia.
  apply Hsil; [lia|done].
Qed.

(** A chunk too short to hold an audio block gives a tap of silence only. *)
Example audio_tap_of_short_chunk :
  extract_audio false (replicate 100 x07)
  = Ok (replicate (Z.to_nat 262) silence).
Proof. vm_compute. reflexivity. Qed.

(** * The palette synthesizer *)




(** C7: for every (phase_shift, saturation) and every luma in 0..15, the
    palette entry at index luma (chroma 0) is the gray triplet (v, v, v)
    with v = round(luma/15 x 255) = 17 luma; neither tunable occurs in
    it. The binary64 evaluation of [int((luma / 15.0) * 255)] gives the
    same v. *)
Theorem gray_entry (phase_shift saturation : R) (luma : Z) :
  0 <= luma <= 15 →
  ∃ palette, _generate_gtia_palette phase_shift saturation = Ok palette
    ∧ let v := round_R (IZR luma / 15 * 255) in
      v = 17 * luma
      ∧ palette !! Z.to_nat luma = Some (v, v, v)
      ∧ gray_b64 luma = Some v.
Proof.
  intros Hl.
  destruct (generate_palette_total phase_shift saturation)
    as (palette & Hgen & _ & Hgray & _).
  exists palette. split; [done|]. cbn zeta.
  assert (round_R (IZR luma / 15 * 255) = 17 * luma) as ->.
  { unfold round_R. apply Int_part_eq. rewrite mult_IZR. lra. }
  split; [done|]. split; [apply Hgray; lia|].
  apply gray_b64_value. lia.
Qed.

Lemma gray_entry_witness :
  0 <= 7 <= 15
  ∧ ∃ palette, _generate_gtia_palette 1.8 0.15 = Ok palette
    ∧ palette !! 7%nat = Some (119, 119, 119).
Proof.
  assert (0 <= 7 <= 15) as Hl by lia.
  split; [exact Hl|].
  destruct (gray_entry 1.8 0.15 7 Hl) as (palette & Hgen & Hv & Hentry & _).
  exists palette. split; [exact Hgen|].
  rewrite Hv in Hentry. exact Hentry.
Defined.

(** * The audio track assembler *)





(** Two frames at 44100 Hz: 1768 samples, in exact and in binary64
    arithmetic alike. *)
Example tgt_samples_example :
  tgt_samples true 44100 2 = 1768
  ∧ tgt_samples_b64 true 44100 2 = Some 1768
  ∧ round_Q (inject_Z 2 / 49.86 * inject_Z 44100) = 1769.
Proof. by vm_compute. Qed.

(** One whole frame of the byte 100 at 300 Hz: six samples, every tap
    centered to 50 and scaled to the largest magnitude, 25000. *)
Example pcm_of_loud_frame :
  loaded_viz <$> (match _load_process_full true 300 1
                          (replicate (Z.to_nat 8704) x64) with
                  | Ok l => Some l
                  | Err _ => None
                  end)
  = Some [25000; 25000; 25000; 25000; 25000; 25000].
Proof. vm_compute. reflexivity. Qed.

(** * The render pipeline *)

(** C9: with blending enabled, in every decoded and horizontally upscaled
    row, output column 0 is input column 0 unchanged and, for every column
    [i > 0], each channel of output column [i] is the average
    [(a + b) * 0.5] of input columns [i] and [i-1]. *)
Theorem blend_columns (is_pal : bool) (palette : list rgb) (vf : matrix) :
  Forall (λ row, len row = 40) vf →
  let wide := rgb_wide is_pal palette vf in
  ∃ blended, blend true wide = Ok blended
    ∧ Forall2
        (λ (row out : list pixel),
           length out = length row
           ∧ out !! 0%nat = row !! 0%nat
           ∧ ∀ (i : nat) a b, (0 < i)%nat → row !! i = Some a →
               row !! (i - 1)%nat = Some b →
               out !! i = Some (((a.1.1 + b.1.1) * 0.5)%Q,
                                ((a.1.2 + b.1.2) * 0.5)%Q,
                                ((a.2 + b.2) * 0.5)%Q))
        wide blended.
Proof.
  intros Hvf wide. unfold blend.
  apply map_rows_Forall2.
  eapply Forall_impl; [exact (rgb_wide_width is_pal palette vf Hvf)|].
  intros row Hrow. apply blend_row_columns.
  intros ->. discriminate Hrow.
Qed.

Lemma blend_columns_witness :
  let vf := replicate (Z.to_nat 192) (replicate 40 x1b) in
  let palette := (λ i : nat, (Z.of_nat i, 0, 255 - Z.of_nat i)) <$> seq 0 256 in
  Forall (λ row, len row = 40) vf
  ∧ ∃ blended, blend true (rgb_wide true palette vf) = Ok blended
      ∧ Forall2 (λ (row out : list pixel), out !! 0%nat = row !! 0%nat)
          (rgb_wide true palette vf) blended.
Proof.
  intros vf palette.
  assert (Forall (λ row, len row = 40) vf) as Hvf.
  { apply Forall_replicate. reflexivity. }
  split; [exact Hvf|].
  destruct (blend_columns true palette vf Hvf) as (blended & Hb & Hall).
  exists blended. split; [exact Hb|].
  eapply Forall2_impl; [exact Hall|]. intros row out H. exact (proj1 (proj2 H)).
Defined.

(** A row of two source pixels, 10 and 30 on every channel: upscaled to
    10 10 30 30, blended to 10 10 20 30. *)
Example blend_row_example :
  blend_row [(10, 10, 10); (10, 10, 10); (30, 30, 30); (30, 30, 30)]%Q
  = Ok [(10, 10, 10)%Q;
        ((10 + 10) * 0.5, (10 + 10) * 0.5, (10 + 10) * 0.5)%Q;
        ((30 + 10) * 0.5, (30 + 10) * 0.5, (30 + 10) * 0.5)%Q;
        ((30 + 30) * 0.5, (30 + 30) * 0.5, (30 + 30) * 0.5)%Q].
Proof. reflexivity. Qed.

(** * Further properties of the code *)

(** ** Chunks of a concatenated stream *)

Lemma len_app {A} (l k : list A) : len (l ++ k) = len l + len k.
Proof. unfold len. rewrite length_app. lia. Qed.

Lemma len_concat_uniform {A} (k : Z) (chunks : list (list A)) :
  Forall (λ c, len c = k) chunks → len (concat chunks) = len chunks * k.
Proof.
  induction 1 as [|c chunks Hc _ IH]; [done|].
  cbn [concat]. rewrite len_app, IH, Hc. unfold len. cbn [length]. lia.
Qed.

Lemma slice_app_l {A} (l k : list A) (hi : Z) :
  hi = len l → slice (l ++ k) 0 hi = l.
Proof.
  intros ->. unfold slice, len. rewrite drop_0, Z.sub_0_r, Nat2Z.id.
  by rewrite take_app_length.
Qed.

Lemma slice_app_r {A} (l k : list A) (lo hi : Z) :
  len l <= lo → slice (l ++ k) lo hi = slice k (lo - len l) (hi - len l).
Proof.
  intros Hlo. unfold slice, len in *.
  rewrite drop_app_ge by lia.
  replace (Z.to_nat lo - length l)%nat with (Z.to_nat (lo - Z.of_nat (length l))) by lia.
  f_equal. lia.
Qed.

Lemma slice_concat {A} (k : Z) (chunks : list (list A)) (i : nat) (c : list A) :
  0 < k → Forall (λ c, len c = k) chunks → chunks !! i = Some c →
  slice (concat chunks) (Z.of_nat i * k) (Z.of_nat i * k + k) = c.
Proof.
  intros Hk Hall. revert i. induction Hall as [|c0 chunks Hc0 _ IH]; intros i Hi; [done|].
  cbn [concat]. destruct i as [|i].
  - injection Hi as ->. unfold slice. cbn [Z.of_nat]. rewrite Z.mul_0_l.
    change (Z.to_nat 0) with 0%nat. rewrite drop_0, Z.add_0_l, Z.sub_0_r.
    unfold len in Hc0. replace (Z.to_nat k) with (length c) by lia.
    by rewrite take_app_length.
  - change ((c0 :: chunks) !! S i) with (chunks !! i) in Hi.
    rewrite slice_app_r by (rewrite Hc0; nia).
    rewrite <- (IH i Hi). f_equal; rewrite Hc0; lia.
Qed.

Lemma demux_of_chunks (is_pal : bool) (chunks : list (list byte)) :
  Forall (λ c, len c = FRAME_SIZE_BYTES) chunks →
  ∃ vs taps, demux is_pal (concat chunks) = Ok (vs, taps)
    ∧ Forall2 (λ c v, extract_video c = Ok v) chunks vs
    ∧ Forall2 (λ c a, extract_audio is_pal c = Ok a) chunks taps.
Proof.
  intros Hall. unfold demux.
  assert (num_frames (concat chunks) = len chunks) as Hn.
  { unfold num_frames. rewrite (len_concat_uniform FRAME_SIZE_BYTES) by done.
    by apply Z.div_mul. }
  rewrite Hn.
  destruct (for_in_range_from
              (λ i (acc : list matrix * list (list byte)),
                 Forall2 (λ c v, extract_video c = Ok v)
                   (take (Z.to_nat i) chunks) acc.1
                 ∧ Forall2 (λ c a, extract_audio is_pal c = Ok a)
                     (take (Z.to_nat i) chunks) acc.2)
              (demux_body is_pal (concat chunks)) 0 (len chunks) ([], []))
    as ([vs taps] & Hrun & Hvs & Htaps).
  - apply len_nonneg.
  - cbn [fst snd]. change (Z.to_nat 0) with 0%nat. rewrite take_0. by split.
  - intros i acc Hi [Hv Ha]. unfold demux_body.
    destruct (lookup_lt_is_Some_2 chunks (Z.to_nat i)) as [c Hc].
    { unfold len in Hi. lia. }
    replace (slice (concat chunks) (i * FRAME_SIZE_BYTES)
               (i * FRAME_SIZE_BYTES + FRAME_SIZE_BYTES)) with c.
    2:{ symmetry. replace i with (Z.of_nat (Z.to_nat i)) at 1 2 by lia.
        by apply slice_concat. }
    assert (len c = FRAME_SIZE_BYTES) as Hlen.
    { rewrite Forall_forall in Hall. apply Hall. by eapply list_elem_of_lookup_2. }
    destruct (extract_video_full c) as (v & Hvid & _).
    { rewrite Hlen. unfold FRAME_SIZE_BYTES. lia. }
    destruct (extract_audio_total is_pal c) as (a & Haud & _).
    rewrite Hvid, Haud. cbn [mbind result_bind].
    eexists. split; [done|]. cbn [fst snd].
    replace (Z.to_nat (i + 1)) with (S (Z.to_nat i)) by lia.
    rewrite (take_S_r _ _ _ Hc).
    split; (apply Forall2_app; [done|]; by repeat constructor).
  - exists vs, taps. split; [done|]. cbn [fst snd] in *.
    unfold len in Hvs, Htaps. rewrite Nat2Z.id in Hvs, Htaps.
    rewrite take_ge in Hvs, Htaps by lia. by split.
Qed.

(** Frame [i] of the result is extracted from bytes
    [i * 8704, (i + 1) * 8704) of the data. *)
Lemma demux_frames (is_pal : bool) (raw : list byte) :
  ∃ vs taps, demux is_pal raw = Ok (vs, taps)
    ∧ len vs = num_frames raw ∧ len taps = num_frames raw
    ∧ ∀ i, 0 <= i < num_frames raw →
        ∃ v a, vs !! Z.to_nat i = Some v ∧ taps !! Z.to_nat i = Some a
          ∧ extract_video (slice raw (i * FRAME_SIZE_BYTES)
                             (i * FRAME_SIZE_BYTES + FRAME_SIZE_BYTES)) = Ok v
          ∧ extract_audio is_pal (slice raw (i * FRAME_SIZE_BYTES)
                                    (i * FRAME_SIZE_BYTES + FRAME_SIZE_BYTES)) = Ok a.
Proof.
  pose proof (num_frames_nonneg raw) as Hn. unfold demux.
  destruct (for_in_range_from
              (λ n (acc : list matrix * list (list byte)),
                 len acc.1 = n ∧ len acc.2 = n
                 ∧ ∀ i, 0 <= i < n →
                     ∃ v a, acc.1 !! Z.to_nat i = Some v
                       ∧ acc.2 !! Z.to_nat i = Some a
                       ∧ extract_video (slice raw (i * FRAME_SIZE_BYTES)
                            (i * FRAME_SIZE_BYTES + FRAME_SIZE_BYTES)) = Ok v
                       ∧ extract_audio is_pal (slice raw (i * FRAME_SIZE_BYTES)
                            (i * FRAME_SIZE_BYTES + FRAME_SIZE_BYTES)) = Ok a)
              (demux_body is_pal raw) 0 (num_frames raw) ([], []))
    as ([vs taps] & Hrun & Hvs & Htaps & Hall); [done| | |].
  - cbn [fst snd]. repeat split; [done..|]. intros i Hi. lia.
  - intros n acc Hn' (Hv & Ha & Hacc). unfold demux_body.
    pose proof (len_chunk raw n Hn') as Hlen.
    destruct (extract_video_full
                (slice raw (n * FRAME_SIZE_BYTES) (n * FRAME_SIZE_BYTES + FRAME_SIZE_BYTES)))
      as (v & Hvid & _).
    { rewrite Hlen. unfold FRAME_SIZE_BYTES. lia. }
    destruct (extract_audio_total is_pal
                (slice raw (n * FRAME_SIZE_BYTES) (n * FRAME_SIZE_BYTES + FRAME_SIZE_BYTES)))
      as (a & Haud & _).
    rewrite Hvid, Haud. cbn [mbind result_bind].
    eexists. split; [done|]. cbn [fst snd].
    unfold len in *. rewrite !length_app. cbn [length].
    split; [lia|]. split; [lia|].
    intros i Hi. destruct (decide (i = n)) as [->|Hne].
    + exists v, a. split; [|split; [|done]].
      * rewrite lookup_app_r by lia.
        by replace (Z.to_nat n - length acc.1)%nat with 0%nat by lia.
      * rewrite lookup_app_r by lia.
        by replace (Z.to_nat n - length acc.2)%nat with 0%nat by lia.
    + destruct (Hacc i) as (v' & a' & Hv' & Ha' & Hx); [lia|].
      exists v', a'. split; [|split; [|done]].
      * by rewrite lookup_app_l by lia.
      * by rewrite lookup_app_l by lia.
  - by exists vs, taps.
Qed.

Lemma read_raw_multiple (file : list byte) :
  len file mod FRAME_SIZE_BYTES = 0 → read_raw file = file.
Proof. intros H. unfold read_raw. by destruct (decide _). Qed.

Lemma read_raw_header (header data : list byte) :
  len header = HEADER_SIZE → len data mod FRAME_SIZE_BYTES = 0 →
  read_raw (header ++ data) = data.
Proof.
  unfold HEADER_SIZE, FRAME_SIZE_BYTES. intros Hh Hd. unfold read_raw.
  destruct (decide _) as [_|Hmul].
  - unfold HEADER_SIZE, len in *. rewrite drop_app_length'; [done|lia].
  - exfalso. apply Hmul. rewrite len_app, Hh.
    unfold FRAME_SIZE_BYTES. pose proof (len_nonneg data).
    Z.div_mod_to_equations. lia.
Qed.

(** With no byte at the cursor every guard of the tap loops breaks. *)
Lemma tap_algorithm_short (is_pal : bool) (chunk : list byte) :
  len chunk <= 8192 →
  tap_algorithm is_pal chunk
  = Ok {| ptr := 8192; ac := replicate 512 silence; written := [] |}.
Proof.
  intros Hlen. unfold tap_algorithm. destruct (offsets is_pal) as [off1 off2].
  set (s0 := {| ptr := 8192; ac := replicate 512 silence; written := [] |}).
  assert (phase1_body chunk off1 off2 0 s0 = Ok None) as H1.
  { unfold phase1_body. cbn [ptr s0]. by destruct (decide _); [|lia]. }
  assert (phase2_body chunk is_pal off2 0 s0 = Ok None) as H2.
  { unfold phase2_body. cbn [ptr s0]. by destruct (decide _); [|lia]. }
  unfold range. rewrite (range_from_cons 0 32), (range_from_cons 0 19) by lia.
  cbn [for_in_break]. rewrite H1. cbn [mbind result_bind]. rewrite H2.
  cbn [mbind result_bind]. unfold phase3. cbn [ptr s0].
  by destruct (decide _); [lia|].
Qed.

(** ** The tap loops on byte positions *)

Lemma getitem_sim (chunk : list byte) (src : Z) :
  result_sim (λ b p, 0 <= p < len chunk ∧ b = byte_at chunk p)
    (getitem chunk src) (pos_getitem (len chunk) src).
Proof.
  unfold getitem, pos_getitem.
  set (j := if decide (src < 0) then src + len chunk else src).
  destruct (decide (0 <= j)) as [Hj|Hj].
  - destruct (decide (0 <= j < len chunk)) as [Hlt|Hge].
    + destruct (lookup_lt_is_Some_2 chunk (Z.to_nat j)) as [b Hb].
      { unfold len in Hlt. lia. }
      rewrite Hb. cbn. split; [lia|]. unfold byte_at.
      destruct (decide (j < 0)); [lia|]. by rewrite Hb.
    + rewrite (lookup_ge_None_2 chunk) by (unfold len in Hge; lia). done.
  - destruct (decide (0 <= j < len chunk)); [lia|done].
Qed.

Lemma pos_tap_sim (chunk : list byte) (i src : Z) (s : tap_state)
  (t : pos_state) :
  tap_sim chunk s t →
  result_sim (tap_sim chunk) (tap chunk i src s) (pos_tap (len chunk) i src t).
Proof.
  intros (Hp & Ha & Hr). unfold tap, pos_tap.
  pose proof (getitem_sim chunk src) as Hget.
  destruct (getitem chunk src) as [b|e], (pos_getitem (len chunk) src) as [p|e'];
    cbn in Hget; try done.
  destruct Hget as [Hpr ->]. cbn [mbind result_bind].
  unfold setitem. rewrite Ha.
  assert (len (byte_at chunk <$> pos_ac t) = len (pos_ac t)) as Hl.
  { unfold len. by rewrite length_fmap. }
  rewrite !Hl.
  set (j := if decide (i < 0) then i + len (pos_ac t) else i).
  destruct (decide (0 <= j < len (pos_ac t))); [|done].
  cbn. split; [done|]. split.
  - cbn [ac pos_ac]. by rewrite list_fmap_insert.
  - cbn [pos_ac]. apply Forall_insert; [done|lia].
Qed.

Lemma pos_advance_sim (chunk : list byte) (k : Z) (s : tap_state)
  (t : pos_state) :
  tap_sim chunk s t → tap_sim chunk (advance k s) (pos_advance k t).
Proof. intros (Hp & Ha & Hr). split; [cbn; lia|done]. Qed.

Ltac sim_step :=
  match goal with
  | H : tap_sim ?chunk ?s ?t
    |- context [tap ?chunk ?i ?src ?s] =>
      let Hs := fresh "Hs" in
      pose proof (pos_tap_sim chunk i src s t H) as Hs;
      destruct (tap chunk i src s), (pos_tap (len chunk) i src t);
      cbn in Hs; try done; cbn [mbind result_bind]; clear H
  end.

Lemma pos_phase1_body_sim (chunk : list byte) (off1 off2 y : Z)
  (s : tap_state) (t : pos_state) :
  tap_sim chunk s t →
  result_sim (option_sim (tap_sim chunk))
    (phase1_body chunk off1 off2 y s)
    (pos_phase1_body (len chunk) off1 off2 y t).
Proof.
  intros Hsim. unfold phase1_body, pos_phase1_body.
  assert (ptr s = pos_ptr t) as -> by apply Hsim.
  destruct (decide (pos_ptr t + 9 >= len chunk)); [done|].
  do 9 sim_step. cbn [result_sim option_sim mbind result_bind].
  match goal with
  | H : tap_sim chunk ?a ?p |- _ => exact (pos_advance_sim chunk 10 a p H)
  end.
Qed.

Lemma pos_phase2_body_sim (chunk : list byte) (is_pal : bool) (off2 y : Z)
  (s : tap_state) (t : pos_state) :
  tap_sim chunk s t →
  result_sim (option_sim (tap_sim chunk))
    (phase2_body chunk is_pal off2 y s)
    (pos_phase2_body (len chunk) is_pal off2 y t).
Proof.
  intros Hsim. unfold phase2_body, pos_phase2_body.
  assert (ptr s = pos_ptr t) as Hp by apply Hsim. rewrite Hp.
  destruct (decide (pos_ptr t >= len chunk)); [done|].
  pose proof (pos_tap_sim chunk (y + 32) (pos_ptr t) s t Hsim) as Hs.
  destruct (tap chunk (y + 32) (pos_ptr t) s) as [s1|],
    (pos_tap (len chunk) (y + 32) (pos_ptr t) t) as [t1|];
    cbn in Hs; try done; cbn [mbind result_bind].
  pose proof (pos_advance_sim chunk 1 s1 t1 Hs) as Hs1.
  assert (ptr (advance 1 s1) = pos_ptr (pos_advance 1 t1)) as Hp1 by apply Hs1.
  destruct is_pal.
  - rewrite Hp1.
    destruct (decide (pos_ptr (pos_advance 1 t1) < len chunk)).
    + pose proof (pos_tap_sim chunk (y + 64 + off2) (pos_ptr (pos_advance 1 t1))
                    _ _ Hs1) as Hs2.
      destruct (tap chunk _ _ (advance 1 s1)) as [s2|],
        (pos_tap (len chunk) _ _ (pos_advance 1 t1)) as [t2|];
        cbn in Hs2; try done; cbn [mbind result_bind result_sim option_sim].
      exact (pos_advance_sim chunk 8 _ _ (pos_advance_sim chunk 1 _ _ Hs2)).
    + cbn [mbind result_bind result_sim option_sim].
      exact (pos_advance_sim chunk 8 _ _ Hs1).
  - cbn [result_sim option_sim].
    exact (pos_advance_sim chunk 9 _ _ Hs1).
Qed.

Lemma for_in_break_sim {S T} (R : S → T → Prop)
  (body : Z → S → result (option S)) (body' : Z → T → result (option T))
  (ys : list Z) (s : S) (t : T) :
  (∀ y s t, R s t → result_sim (option_sim R) (body y s) (body' y t)) →
  R s t →
  result_sim R (for_in_break ys body s) (for_in_break ys body' t).
Proof.
  intros Hbody. revert s t. induction ys as [|y ys IH]; intros s t HR; [done|].
  cbn [for_in_break]. specialize (Hbody y s t HR).
  destruct (body y s) as [[s'|]|e], (body' y t) as [[t'|]|e']; cbn in Hbody;
    try done; cbn [mbind result_bind].
  by apply IH.
Qed.

Lemma pos_algorithm_sim (is_pal : bool) (chunk : list byte) :
  result_sim (tap_sim chunk) (tap_algorithm is_pal chunk)
    (pos_algorithm is_pal (len chunk)).
Proof.
  unfold tap_algorithm, pos_algorithm. destruct (offsets is_pal) as [off1 off2].
  pose proof (len_nonneg chunk) as Hn.
  assert (tap_sim chunk
            {| ptr := 8192; ac := replicate 512 silence; written := [] |}
            {| pos_ptr := 8192; pos_ac := replicate 512 (-1) |}) as H0.
  { split; [done|]. split; cbn [ac pos_ac].
    - by rewrite fmap_replicate.
    - apply Forall_replicate. lia. }
  pose proof (for_in_break_sim (tap_sim chunk) (phase1_body chunk off1 off2)
                (pos_phase1_body (len chunk) off1 off2) (range 32) _ _
                (λ y s t, pos_phase1_body_sim chunk off1 off2 y s t) H0) as H1.
  destruct (for_in_break (range 32) (phase1_body chunk off1 off2) _) as [s1|],
    (for_in_break (range 32) (pos_phase1_body (len chunk) off1 off2) _) as [t1|];
    cbn in H1; try done; cbn [mbind result_bind].
  pose proof (for_in_break_sim (tap_sim chunk) (phase2_body chunk is_pal off2)
                (pos_phase2_body (len chunk) is_pal off2) (range 19) _ _
                (λ y s t, pos_phase2_body_sim chunk is_pal off2 y s t) H1) as H2.
  destruct (for_in_break (range 19) (phase2_body chunk is_pal off2) _) as [s2|],
    (for_in_break (range 19) (pos_phase2_body (len chunk) is_pal off2) _) as [t2|];
    cbn in H2; try done; cbn [mbind result_bind].
  unfold phase3, pos_phase3.
  assert (ptr s2 = pos_ptr t2) as -> by apply H2.
  destruct (decide (pos_ptr t2 < len chunk)); [|done].
  by apply pos_tap_sim.
Qed.

(** On a chunk whose length is known, the tap is read off the positions the
    position run leaves in its array. *)
Lemma tap_of_positions (is_pal : bool) (chunk : list byte) (t : pos_state) :
  pos_algorithm is_pal (len chunk) = Ok t →
  ∃ tap, extract_audio is_pal chunk = Ok tap
    ∧ len tap = audio_len is_pal
    ∧ tap = slice (byte_at chunk <$> pos_ac t) 0 (audio_len is_pal)
    ∧ ∀ i p, 0 <= i < audio_len is_pal → 0 <= p →
        pos_ac t !! Z.to_nat i = Some p →
        p < len chunk ∧ tap !! Z.to_nat i = chunk !! Z.to_nat p.
Proof.
  intros Ht. pose proof (pos_algorithm_sim is_pal chunk) as Hsim.
  rewrite Ht in Hsim.
  destruct (extract_audio_total is_pal chunk) as (tap & Htap & Hlen).
  exists tap. split; [done|]. split; [done|].
  unfold extract_audio in Htap.
  destruct (tap_algorithm is_pal chunk) as [s|]; [|done].
  cbn in Hsim. destruct Hsim as (_ & Hac & Hrange).
  cbn [mbind result_bind] in Htap. injection Htap as <-.
  split; [by rewrite Hac|].
  intros i p Hi Hp Hlook.
  assert (p < len chunk) as Hlt.
  { rewrite Forall_forall in Hrange.
    apply (Hrange p). by eapply list_elem_of_lookup_2. }
  split; [done|].
  rewrite lookup_slice by lia.
  replace (Z.to_nat 0 + Z.to_nat i)%nat with (Z.to_nat i) by lia.
  rewrite Hac, list_lookup_fmap, Hlook. cbn. unfold byte_at.
  destruct (decide (p < 0)); [lia|].
  destruct (lookup_lt_is_Some_2 chunk (Z.to_nat p)) as [b Hb].
  { unfold len in Hlt. lia. }
  by rewrite Hb.
Qed.

Lemma layout_group (table : list Z) (f : Z → Z * Z) (lo hi y : Z) :
  layout_has table (f <$> range_from lo hi) = true → lo <= y < hi →
  table !! Z.to_nat (f y).1 = Some (f y).2.
Proof.
  intros Hall Hy. unfold layout_has in Hall. rewrite forallb_forall in Hall.
  specialize (Hall (f y)). rewrite bool_decide_eq_true in Hall. apply Hall.
  apply list_elem_of_In, list_elem_of_fmap. exists y. split; [done|].
  by apply elem_of_range_from.
Qed.

(** ** What a frame's two halves depend on *)

Lemma video_inv_unique (chunk chunk' : list byte) (v v' : matrix) :
  video_inv chunk 64 v → video_inv chunk' 64 v' →
  (∀ b, 0 <= b < 64 →
     slice chunk (b * 128 + 1) (b * 128 + 41)
     = slice chunk' (b * 128 + 1) (b * 128 + 41)
     ∧ slice chunk (b * 128 + 45) (b * 128 + 85)
       = slice chunk' (b * 128 + 45) (b * 128 + 85)
     ∧ slice chunk (b * 128 + 88) (b * 128 + 128)
       = slice chunk' (b * 128 + 88) (b * 128 + 128)) →
  v = v'.
Proof.
  intros (Hl & _ & Hrows) (Hl' & _ & Hrows') Heq.
  apply list_eq. intros r.
  destruct (decide (r < 192)%nat) as [Hr|Hr].
  - assert (∃ b, 0 <= b < 64
                 ∧ (r = Z.to_nat (b * 3) ∨ r = Z.to_nat (b * 3 + 1)
                    ∨ r = Z.to_nat (b * 3 + 2))) as (b & Hb & Hcase).
    { exists (Z.of_nat r / 3). Z.div_mod_to_equations. lia. }
    destruct (Hrows b Hb) as (R0 & R1 & R2).
    destruct (Hrows' b Hb) as (R0' & R1' & R2').
    destruct (Heq b Hb) as (E0 & E1 & E2).
    destruct Hcase as [->|[->| ->]].
    + by rewrite R0, R0', E0.
    + by rewrite R1, R1', E1.
    + by rewrite R2, R2', E2.
  - unfold len in Hl, Hl'. by rewrite !lookup_ge_None_2 by lia.
Qed.

Lemma slice_ext {A} (l l' : list A) (lo hi : Z) :
  0 <= lo →
  (∀ p, lo <= p < hi → l !! Z.to_nat p = l' !! Z.to_nat p) →
  slice l lo hi = slice l' lo hi.
Proof.
  intros Hlo Heq. apply list_eq. intros i.
  destruct (decide (Z.of_nat i < hi - lo)) as [Hi|Hi].
  - rewrite !lookup_slice by lia.
    replace (Z.to_nat lo + i)%nat with (Z.to_nat (lo + Z.of_nat i)) by lia.
    apply Heq. lia.
  - unfold slice. by rewrite !lookup_take_ge by lia.
Qed.
(** ** The whole palette table *)

Lemma palette_inv_lookup (phase_shift saturation : R) (palette : list rgb)
  (i : Z) :
  palette_inv phase_shift saturation 16 palette → 0 <= i < 256 →
  palette !! Z.to_nat i
  = Some (if decide (i < 16) then (17 * i, 17 * i, 17 * i)
          else color_rgb phase_shift saturation (i / 16) (i mod 16)).
Proof.
  intros (_ & Hgray & Hcol) Hi. destruct (decide (i < 16)) as [Hlt|Hge].
  - apply Hgray. lia.
  - rewrite <- (Hcol (i / 16) (i mod 16)) by (Z.div_mod_to_equations; lia).
    rewrite palette_index_eq by (Z.div_mod_to_equations; lia).
    f_equal. Z.div_mod_to_equations. lia.
Qed.

Lemma color_rgb_is_rgb8 (phase_shift saturation : R) (chroma luma : Z) :
  is_rgb8 (color_rgb phase_shift saturation chroma luma).
Proof. unfold is_rgb8, color_rgb. cbn [fst snd]. lia. Qed.

Lemma color_rgb_unsaturated (phase_shift : R) (chroma luma : Z) :
  0 <= luma < 16 →
  color_rgb phase_shift 0 chroma luma = (17 * luma, 17 * luma, 17 * luma).
Proof.
  intros Hl. unfold color_rgb.
  set (angle := (IZR (chroma - 1) * (2 * PI / 15) + phase_shift)%R).
  replace ((IZR luma / 15 + 1.140 * (0 * 0.5 * sin angle)) * 255)%R
    with (IZR luma / 15 * 255)%R by lra.
  replace ((IZR luma / 15 - 0.395 * (0 * 0.5 * cos angle)
            - 0.581 * (0 * 0.5 * sin angle)) * 255)%R
    with (IZR luma / 15 * 255)%R by lra.
  replace ((IZR luma / 15 + 2.032 * (0 * 0.5 * cos angle)) * 255)%R
    with (IZR luma / 15 * 255)%R by lra.
  rewrite gray_value. repeat f_equal; lia.
Qed.

(** ** Key presses *)

Lemma saturation_up (s : R) :
  (0 <= s <= 2 → 0 <= Rmin 2.0 (s + 0.05) <= 2)%R.
Proof.
  intros Hs. split.
  - apply Rmin_glb; lra.
  - etransitivity; [apply Rmin_l|lra].
Qed.

Lemma saturation_down (s : R) :
  (0 <= s <= 2 → 0 <= Rmax 0.0 (s - 0.05) <= 2)%R.
Proof.
  intros Hs. split.
  - etransitivity; [|apply Rmax_l]. lra.
  - apply Rmax_lub; lra.
Qed.

Lemma keydown_tuned (k : key) (shift : bool) (p : player) :
  tuned p → ∃ p', keydown k shift p = Ok p' ∧ tuned p'.
Proof.
  intros [Hpal Hsat]. unfold keydown.
  destruct (live_tuning k shift (toggles k p)) as [p1 regen] eqn:Htune.
  assert ((regen = false ∧ phase_shift p1 = phase_shift p
           ∧ saturation p1 = saturation p ∧ palette p1 = palette p)
          ∨ (regen = true ∧ (0 <= saturation p1 <= 2)%R)) as Hcase.
  { unfold live_tuning, toggles in Htune.
    destruct shift, k; cbn in Htune; injection Htune as <- <-;
      cbn [saturation phase_shift palette set_saturation set_phase_shift
           set_looping set_debug_mode set_show_scanlines set_enable_blending];
      lazymatch goal with
      | |- (false = false ∧ _) ∨ _ => left; repeat split; reflexivity
      | |- (true = false ∧ _) ∨ _ =>
          right; split; [reflexivity|];
          first [ exact Hsat
                | exact (saturation_up _ Hsat)
                | exact (saturation_down _ Hsat) ]
      end. }
  destruct Hcase as [(-> & Hph & Hs & Hp) | (-> & Hrange)].
  - exists p1. split; [done|]. split; [by rewrite Hph, Hs, Hp|by rewrite Hs].
  - destruct (generate_palette_total (phase_shift p1) (saturation p1))
      as (t & Hgen & _).
    rewrite Hgen. cbn [mbind result_bind]. eexists. split; [done|].
    split; [|done]. by cbn [phase_shift saturation palette set_palette].
Qed.

Lemma keydowns_tuned (ks : list (key * bool)) (p : player) :
  tuned p → ∃ p', keydowns ks p = Ok p' ∧ tuned p'.
Proof.
  revert p. induction ks as [|[k shift] ks IH]; intros p Hp; [by exists p|].
  cbn [keydowns].
  destruct (keydown_tuned k shift p Hp) as (p1 & -> & Hp1).
  cbn [mbind result_bind]. by apply IH.
Qed.

Lemma byte_at_agree (chunk chunk' : list byte) (p : Z) :
  (p = -1 ∨ 8192 <= p) →
  (∀ q, 8192 <= q → chunk !! Z.to_nat q = chunk' !! Z.to_nat q) →
  byte_at chunk p = byte_at chunk' p.
Proof.
  intros Hp Hagree. unfold byte_at. destruct (decide (p < 0)); [done|].
  rewrite Hagree by lia. done.
Qed.

(** * Further properties *)

(** X1: a stream of whole 8704-byte chunks, bare or behind an 8192-byte
    header, loads as one video frame and one audio tap per chunk, in
    order, each extracted from its own chunk alone. *)
Theorem frames_of_stream (is_pal : bool) (header : list byte)
  (chunks : list (list byte)) :
  len header = 0 ∨ len header = HEADER_SIZE →
  Forall (λ c, len c = FRAME_SIZE_BYTES) chunks →
  ∃ vs taps, load_frames is_pal (header ++ concat chunks) = Ok (vs, taps)
    ∧ Forall2 (λ c v, extract_video c = Ok v) chunks vs
    ∧ Forall2 (λ c a, extract_audio is_pal c = Ok a) chunks taps.
Proof.
  intros Hh Hall. unfold load_frames.
  assert (len (concat chunks) mod FRAME_SIZE_BYTES = 0) as Hmul.
  { rewrite (len_concat_uniform FRAME_SIZE_BYTES) by done. by apply Z.mod_mul. }
  assert (read_raw (header ++ concat chunks) = concat chunks) as ->.
  { destruct Hh as [H0|H8].
    - destruct header; [|unfold len in H0; cbn in H0; lia].
      by apply read_raw_multiple.
    - by apply read_raw_header. }
  by apply demux_of_chunks.
Qed.

Lemma frames_of_stream_witness :
  let header := replicate (Z.to_nat 8192) xff in
  let chunks := [replicate (Z.to_nat 8704) x01; replicate (Z.to_nat 8704) x02] in
  (len header = 0 ∨ len header = HEADER_SIZE)
  ∧ Forall (λ c, len c = FRAME_SIZE_BYTES) chunks
  ∧ ∃ vs taps, load_frames true (header ++ concat chunks) = Ok (vs, taps)
      ∧ Forall2 (λ c v, extract_video c = Ok v) chunks vs
      ∧ Forall2 (λ c a, extract_audio true c = Ok a) chunks taps.
Proof.
  intros header chunks.
  assert (len header = 0 ∨ len header = HEADER_SIZE) as Hh by (right; reflexivity).
  assert (Forall (λ c, len c = FRAME_SIZE_BYTES) chunks) as Hall.
  { repeat constructor. }
  split; [exact Hh|]. split; [exact Hall|].
  exact (frames_of_stream true header chunks Hh Hall).
Defined.

(** X2: the header test looks at the file size only. A file made of an
    8192-byte header, whole frames and 512 trailing bytes has a size that
    is a multiple of 8704, so nothing is skipped: one frame more than was
    stored is decoded, and the first frame is cut from the header and the
    512 bytes after it. *)
Theorem header_taken_for_a_frame (is_pal : bool) (header tail : list byte)
  (chunks : list (list byte)) :
  len header = HEADER_SIZE → len tail = 512 →
  Forall (λ c, len c = FRAME_SIZE_BYTES) chunks →
  let file := header ++ concat chunks ++ tail in
  ∃ vs taps v0, load_frames is_pal file = Ok (vs, taps)
    ∧ len vs = len chunks + 1
    ∧ vs !! 0%nat = Some v0
    ∧ extract_video (header ++ slice (concat chunks ++ tail) 0 512) = Ok v0.
Proof.
  intros Hh Ht Hall file. unfold HEADER_SIZE in Hh.
  pose proof (len_concat_uniform FRAME_SIZE_BYTES chunks Hall) as Hc.
  pose proof (len_nonneg chunks) as Hn.
  assert (len file = (len chunks + 1) * FRAME_SIZE_BYTES) as Hsize.
  { unfold file. rewrite !len_app, Hh, Ht, Hc. unfold FRAME_SIZE_BYTES. lia. }
  unfold load_frames. rewrite read_raw_multiple by (rewrite Hsize; by apply Z.mod_mul).
  assert (num_frames file = len chunks + 1) as Hnum.
  { unfold num_frames. rewrite Hsize. by apply Z.div_mul. }
  destruct (demux_frames is_pal file) as (vs & taps & Hrun & Hvs & _ & Hframes).
  destruct (Hframes 0) as (v0 & _ & Hv0 & _ & Hvid & _); [lia|].
  exists vs, taps, v0. split; [done|]. split; [lia|]. split; [done|].
  rewrite <- Hvid. f_equal. unfold file.
  rewrite Z.mul_0_l, Z.add_0_l. unfold slice, FRAME_SIZE_BYTES.
  change (Z.to_nat 0) with 0%nat. rewrite !drop_0, !Z.sub_0_r.
  replace (Z.to_nat 8704) with (length header + Z.to_nat 512)%nat
    by (unfold len in Hh; lia).
  by rewrite take_app_add.
Qed.

Lemma header_taken_for_a_frame_witness :
  let header := replicate (Z.to_nat 8192) xff in
  let tail := replicate (Z.to_nat 512) x00 in
  let chunks := [replicate (Z.to_nat 8704) x01] in
  len header = HEADER_SIZE ∧ len tail = 512
  ∧ Forall (λ c, len c = FRAME_SIZE_BYTES) chunks
  ∧ ∃ vs taps, load_frames true (header ++ concat chunks ++ tail) = Ok (vs, taps)
      ∧ len vs = 2.
Proof.
  intros header tail chunks.
  assert (len header = HEADER_SIZE) as Hh by reflexivity.
  assert (len tail = 512) as Ht by reflexivity.
  assert (Forall (λ c, len c = FRAME_SIZE_BYTES) chunks) as Hall.
  { repeat constructor. }
  split; [exact Hh|]. split; [exact Ht|]. split; [exact Hall|].
  destruct (header_taken_for_a_frame true header tail chunks Hh Ht Hall)
    as (vs & taps & v0 & Hload & Hlen & _).
  exists vs, taps. split; [exact Hload|exact Hlen].
Defined.

(** X3: a chunk that ends before its audio block (at most 8192 bytes)
    gives a tap of silence only: every guard of the tap loops breaks
    before a byte is read. *)
Theorem audio_of_short_chunk (is_pal : bool) (chunk : list byte) :
  len chunk <= 8192 →
  extract_audio is_pal chunk
  = Ok (replicate (Z.to_nat (audio_len is_pal)) silence).
Proof.
  intros Hlen. unfold extract_audio. rewrite tap_algorithm_short by done.
  cbn [mbind result_bind ac]. f_equal. unfold slice.
  change (Z.to_nat 0) with 0%nat. rewrite drop_0, Z.sub_0_r.
  rewrite take_replicate. f_equal. destruct is_pal; cbn; lia.
Qed.

Lemma audio_of_short_chunk_witness :
  len (replicate (Z.to_nat 8192) x07) <= 8192
  ∧ extract_audio false (replicate (Z.to_nat 8192) x07)
    = Ok (replicate (Z.to_nat 262) silence).
Proof.
  assert (len (replicate (Z.to_nat 8192) x07) <= 8192) as Hlen.
  { vm_compute. discriminate. }
  split; [exact Hlen|].
  exact (audio_of_short_chunk false (replicate (Z.to_nat 8192) x07) Hlen).
Defined.

(** X4: a file that holds less than one whole frame after the header rule
    (the empty file, a header alone, any file shorter than 8704 bytes)
    loads without error as no frame and an empty track, whatever the mixer
    reports. *)
Theorem load_without_frames (is_pal : bool) (mix_freq mix_chans : Z)
  (file : list byte) :
  len (read_raw file) < FRAME_SIZE_BYTES →
  _load_process_full is_pal mix_freq mix_chans file
  = Ok {| loaded_frames := []; loaded_final := []; loaded_viz := [] |}.
Proof.
  unfold FRAME_SIZE_BYTES. intros Hlen. unfold _load_process_full, demux.
  assert (num_frames (read_raw file) = 0) as ->.
  { unfold num_frames, FRAME_SIZE_BYTES. pose proof (len_nonneg (read_raw file)).
    Z.div_mod_to_equations. lia. }
  cbn [range range_from for_in mbind result_bind]. unfold resample.
  assert (tgt_samples is_pal mix_freq 0 = 0) as ->.
  { rewrite tgt_samples_eq. by destruct is_pal. }
  cbn [mbind result_bind].
  by destruct (decide (mix_chans > 1)); vm_compute.
Qed.

Lemma load_without_frames_witness :
  len (read_raw (replicate (Z.to_nat 8192) xff)) < FRAME_SIZE_BYTES
  ∧ _load_process_full true 44100 2 (replicate (Z.to_nat 8192) xff)
    = Ok {| loaded_frames := []; loaded_final := []; loaded_viz := [] |}.
Proof.
  assert (len (read_raw (replicate (Z.to_nat 8192) xff)) < FRAME_SIZE_BYTES)
    as Hlen by (vm_compute; reflexivity).
  split; [exact Hlen|].
  exact (load_without_frames true 44100 2 _ Hlen).
Defined.

(** X5: the audio layout of a whole frame at 50 Hz. Of the 512 bytes of
    the audio block (from 8192), the AudioTap keeps, for each of the 32
    ten-byte records [y], byte 0 at entry [y], bytes 7 and 8 at entries
    [52+y] and [84+y], and bytes 1 to 6 at entries [120+32k+y] from entry
    135 on; for each of the 19 ten-byte records [y] that follow, byte 0 at
    entry [32+y] and byte 1 at entry [116+y]; and byte 510 at entry 51.
    Entries 120 to 134 are assigned twice: the second loop overwrites what
    the first put there. *)
Theorem tap_layout_pal (chunk : list byte) :
  len chunk = FRAME_SIZE_BYTES →
  ∃ tap, extract_audio true chunk = Ok tap
    ∧ len tap = 312
    ∧ (∀ y, 0 <= y < 32 →
         tap !! Z.to_nat y = chunk !! Z.to_nat (8192 + 10 * y)
         ∧ tap !! Z.to_nat (52 + y) = chunk !! Z.to_nat (8192 + 10 * y + 7)
         ∧ tap !! Z.to_nat (84 + y) = chunk !! Z.to_nat (8192 + 10 * y + 8))
    ∧ (∀ y k, 0 <= y < 32 → 0 <= k < 6 → 135 <= 120 + 32 * k + y →
         tap !! Z.to_nat (120 + 32 * k + y)
         = chunk !! Z.to_nat (8192 + 10 * y + 1 + k))
    ∧ (∀ y, 0 <= y < 19 →
         tap !! Z.to_nat (32 + y) = chunk !! Z.to_nat (8512 + 10 * y)
         ∧ tap !! Z.to_nat (116 + y) = chunk !! Z.to_nat (8512 + 10 * y + 1))
    ∧ tap !! 51%nat = chunk !! Z.to_nat 8702.
Proof.
  unfold FRAME_SIZE_BYTES. intros Hlen.
  assert (∃ t, pos_algorithm true 8704 = Ok t
            ∧ layout_has (pos_ac t)
                ((λ y, (y, 8192 + 10 * y)) <$> range_from 0 32) = true
            ∧ layout_has (pos_ac t)
                ((λ y, (52 + y, 8192 + 10 * y + 7)) <$> range_from 0 32) = true
            ∧ layout_has (pos_ac t)
                ((λ y, (84 + y, 8192 + 10 * y + 8)) <$> range_from 0 32) = true
            ∧ layout_has (pos_ac t)
                ((λ m, (120 + m, 8192 + 10 * (m mod 32) + 1 + m / 32))
                   <$> range_from 15 192) = true
            ∧ layout_has (pos_ac t)
                ((λ y, (32 + y, 8512 + 10 * y)) <$> range_from 0 19) = true
            ∧ layout_has (pos_ac t)
                ((λ y, (116 + y, 8512 + 10 * y + 1)) <$> range_from 0 19) = true
            ∧ layout_has (pos_ac t)
                ((λ y, (51 + y, 8702 + y)) <$> range_from 0 1) = true)
    as (t & Ht & G0 & G7 & G8 & G16 & P0 & P1 & L).
  { eexists. split; [vm_compute; reflexivity|]. by vm_compute. }
  rewrite <- Hlen in Ht.
  destruct (tap_of_positions true chunk t Ht) as (tap & Htap & Hl & _ & Hpos).
  exists tap. split; [done|]. split; [done|].
  assert (∀ (f : Z → Z * Z) lo hi y,
            layout_has (pos_ac t) (f <$> range_from lo hi) = true →
            lo <= y < hi → 0 <= (f y).1 < 312 → 0 <= (f y).2 →
            tap !! Z.to_nat (f y).1 = chunk !! Z.to_nat (f y).2) as Hgroup.
  { intros f lo hi y Hhas Hy Hi Hp.
    apply (Hpos (f y).1 (f y).2); [done|done|].
    by apply (layout_group _ f lo hi). }
  split; [|split; [|split]].
  - intros y Hy. split; [|split].
    + apply (Hgroup (λ y, (y, 8192 + 10 * y)) 0 32 y G0); cbn; lia.
    + apply (Hgroup (λ y, (52 + y, 8192 + 10 * y + 7)) 0 32 y G7); cbn; lia.
    + apply (Hgroup (λ y, (84 + y, 8192 + 10 * y + 8)) 0 32 y G8); cbn; lia.
  - intros y k Hy Hk Hfree.
    pose proof (Hgroup (λ m, (120 + m, 8192 + 10 * (m mod 32) + 1 + m / 32))
                  15 192 (32 * k + y) G16) as H.
    cbn [fst snd] in H.
    replace ((32 * k + y) mod 32) with y in H by (Z.div_mod_to_equations; lia).
    replace ((32 * k + y) / 32) with k in H by (Z.div_mod_to_equations; lia).
    replace (120 + (32 * k + y)) with (120 + 32 * k + y) in H by lia.
    apply H; lia.
  - intros y Hy. split.
    + apply (Hgroup (λ y, (32 + y, 8512 + 10 * y)) 0 19 y P0); cbn; lia.
    + apply (Hgroup (λ y, (116 + y, 8512 + 10 * y + 1)) 0 19 y P1); cbn; lia.
  - apply (Hgroup (λ y, (51 + y, 8702 + y)) 0 1 0 L); cbn; lia.
Qed.

Lemma tap_layout_pal_witness :
  let chunk := (λ i : nat, default x00 (Byte.of_N (N.of_nat (i `mod` 251))))
                 <$> seq 0 (Z.to_nat 8704) in
  len chunk = FRAME_SIZE_BYTES
  ∧ ∃ tap, extract_audio true chunk = Ok tap
      ∧ len tap = 312
      ∧ tap !! 51%nat = chunk !! Z.to_nat 8702.
Proof.
  intros chunk.
  assert (len chunk = FRAME_SIZE_BYTES) as Hlen by (vm_compute; reflexivity).
  split; [exact Hlen|].
  destruct (tap_layout_pal chunk Hlen) as (tap & Htap & Hl & _ & _ & _ & H51).
  exists tap. split; [exact Htap|]. split; [exact Hl|exact H51].
Defined.

(** X6: the audio layout of a whole frame at 60 Hz, where the offsets make
    the groups of the first loop overlap. The AudioTap keeps, for each of
    the 32 records [y], byte 0 at entry [y] and byte 7 at entry [52+y];
    byte 8 at entry [84+y] only for the records from 18 on; bytes 1 to 6
    at entries [70+32k+y] only where that entry lies in 84..101 or from
    116 on; for each of the 19 records [y] that follow, byte 0 at entry
    [32+y]; and byte 510 at entry 51. Everywhere the later assignment
    wins. *)
Theorem tap_layout_ntsc (chunk : list byte) :
  len chunk = FRAME_SIZE_BYTES →
  ∃ tap, extract_audio false chunk = Ok tap
    ∧ len tap = 262
    ∧ (∀ y, 0 <= y < 32 →
         tap !! Z.to_nat y = chunk !! Z.to_nat (8192 + 10 * y)
         ∧ tap !! Z.to_nat (52 + y) = chunk !! Z.to_nat (8192 + 10 * y + 7))
    ∧ (∀ y, 18 <= y < 32 →
         tap !! Z.to_nat (84 + y) = chunk !! Z.to_nat (8192 + 10 * y + 8))
    ∧ (∀ y k, 0 <= y < 32 → 0 <= k < 6 →
         84 <= 70 + 32 * k + y < 102 ∨ 116 <= 70 + 32 * k + y →
         tap !! Z.to_nat (70 + 32 * k + y)
         = chunk !! Z.to_nat (8192 + 10 * y + 1 + k))
    ∧ (∀ y, 0 <= y < 19 →
         tap !! Z.to_nat (32 + y) = chunk !! Z.to_nat (8512 + 10 * y))
    ∧ tap !! 51%nat = chunk !! Z.to_nat 8702.
Proof.
  unfold FRAME_SIZE_BYTES. intros Hlen.
  assert (∃ t, pos_algorithm false 8704 = Ok t
            ∧ layout_has (pos_ac t)
                ((λ y, (y, 8192 + 10 * y)) <$> range_from 0 32) = true
            ∧ layout_has (pos_ac t)
                ((λ y, (52 + y, 8192 + 10 * y + 7)) <$> range_from 0 32) = true
            ∧ layout_has (pos_ac t)
                ((λ y, (84 + y, 8192 + 10 * y + 8)) <$> range_from 18 32) = true
            ∧ layout_has (pos_ac t)
                ((λ m, (70 + m, 8192 + 10 * (m mod 32) + 1 + m / 32))
                   <$> range_from 14 32) = true
            ∧ layout_has (pos_ac t)
                ((λ m, (70 + m, 8192 + 10 * (m mod 32) + 1 + m / 32))
                   <$> range_from 46 192) = true
            ∧ layout_has (pos_ac t)
                ((λ y, (32 + y, 8512 + 10 * y)) <$> range_from 0 19) = true
            ∧ layout_has (pos_ac t)
                ((λ y, (51 + y, 8702 + y)) <$> range_from 0 1) = true)
    as (t & Ht & G0 & G7 & G8 & Ga & Gb & P0 & L).
  { eexists. split; [vm_compute; reflexivity|]. by vm_compute. }
  rewrite <- Hlen in Ht.
  destruct (tap_of_positions false chunk t Ht) as (tap & Htap & Hl & _ & Hpos).
  exists tap. split; [done|]. split; [done|].
  assert (∀ (f : Z → Z * Z) lo hi y,
            layout_has (pos_ac t) (f <$> range_from lo hi) = true →
            lo <= y < hi → 0 <= (f y).1 < 262 → 0 <= (f y).2 →
            tap !! Z.to_nat (f y).1 = chunk !! Z.to_nat (f y).2) as Hgroup.
  { intros f lo hi y Hhas Hy Hi Hp.
    apply (Hpos (f y).1 (f y).2); [done|done|].
    by apply (layout_group _ f lo hi). }
  split; [|split; [|split; [|split]]].
  - intros y Hy. split.
    + apply (Hgroup (λ y, (y, 8192 + 10 * y)) 0 32 y G0); cbn; lia.
    + apply (Hgroup (λ y, (52 + y, 8192 + 10 * y + 7)) 0 32 y G7); cbn; lia.
  - intros y Hy.
    apply (Hgroup (λ y, (84 + y, 8192 + 10 * y + 8)) 18 32 y G8); cbn; lia.
  - intros y k Hy Hk Hfree.
    assert (∀ lo hi,
              layout_has (pos_ac t)
                ((λ m, (70 + m, 8192 + 10 * (m mod 32) + 1 + m / 32))
                   <$> range_from lo hi) = true →
              lo <= 32 * k + y < hi →
              tap !! Z.to_nat (70 + 32 * k + y)
              = chunk !! Z.to_nat (8192 + 10 * y + 1 + k)) as Hm.
    { intros lo hi G Hin.
      pose proof (Hgroup (λ m, (70 + m, 8192 + 10 * (m mod 32) + 1 + m / 32))
                    lo hi (32 * k + y) G Hin) as H.
      cbn [fst snd] in H.
      replace ((32 * k + y) mod 32) with y in H by (Z.div_mod_to_equations; lia).
      replace ((32 * k + y) / 32) with k in H by (Z.div_mod_to_equations; lia).
      replace (70 + (32 * k + y)) with (70 + 32 * k + y) in H by lia.
      apply H; lia. }
    destruct Hfree as [Hlow|Hhigh].
    + apply (Hm 14 32 Ga). lia.
    + apply (Hm 46 192 Gb). lia.
  - intros y Hy.
    apply (Hgroup (λ y, (32 + y, 8512 + 10 * y)) 0 19 y P0); cbn; lia.
  - apply (Hgroup (λ y, (51 + y, 8702 + y)) 0 1 0 L); cbn; lia.
Qed.

Lemma tap_layout_ntsc_witness :
  let chunk := (λ i : nat, default x00 (Byte.of_N (N.of_nat (i `mod` 251))))
                 <$> seq 0 (Z.to_nat 8704) in
  len chunk = FRAME_SIZE_BYTES
  ∧ ∃ tap, extract_audio false chunk = Ok tap
      ∧ len tap = 262
      ∧ tap !! 51%nat = chunk !! Z.to_nat 8702.
Proof.
  intros chunk.
  assert (len chunk = FRAME_SIZE_BYTES) as Hlen by (vm_compute; reflexivity).
  split; [exact Hlen|].
  destruct (tap_layout_ntsc chunk Hlen) as (tap & Htap & Hl & _ & _ & _ & _ & H51).
  exists tap. split; [exact Htap|]. split; [exact Hl|exact H51].
Defined.

(** X7: the video matrix of a chunk depends only on the displayed bytes of
    its first 8192 bytes: in each 128-byte sub-block the bytes at offsets
    0, 41 to 44 and 85 to 87, and everything from byte 8192 on, are never
    shown. Two chunks that agree on the displayed bytes give the same
    matrix. *)
Theorem video_ignores_gaps (chunk chunk' : list byte) :
  8192 <= len chunk → 8192 <= len chunk' →
  (∀ p, 0 <= p < 8192 → displayed (p mod 128) →
     chunk !! Z.to_nat p = chunk' !! Z.to_nat p) →
  extract_video chunk = extract_video chunk'
  ∧ ∃ v, extract_video chunk = Ok v.
Proof.
  intros Hlen Hlen' Hagree.
  destruct (extract_video_full chunk Hlen) as (v & Hv & Hinv).
  destruct (extract_video_full chunk' Hlen') as (v' & Hv' & Hinv').
  split; [|by exists v]. rewrite Hv, Hv'. f_equal.
  apply (video_inv_unique chunk chunk'); [done|done|].
  intros b Hb.
  split; [|split]; apply slice_ext; try lia; intros p Hp;
    apply Hagree; try lia; unfold displayed; Z.div_mod_to_equations; lia.
Qed.

(** X8: the audio tap of a whole frame depends only on its audio block:
    two 8704-byte chunks that agree from byte 8192 on give the same tap,
    whatever their video blocks hold. *)
Theorem audio_ignores_video (is_pal : bool) (chunk chunk' : list byte) :
  len chunk = FRAME_SIZE_BYTES → len chunk' = FRAME_SIZE_BYTES →
  (∀ q, 8192 <= q < 8704 → chunk !! Z.to_nat q = chunk' !! Z.to_nat q) →
  extract_audio is_pal chunk = extract_audio is_pal chunk'.
Proof.
  unfold FRAME_SIZE_BYTES. intros Hlen Hlen' Hagree.
  assert (∃ t, pos_algorithm is_pal 8704 = Ok t
            ∧ forallb (λ p, (p =? -1) || (8192 <=? p)) (pos_ac t) = true)
    as (t & Ht & Hpos).
  { destruct is_pal; (eexists; split; [vm_compute; reflexivity|by vm_compute]). }
  assert (∀ q, 8192 <= q → chunk !! Z.to_nat q = chunk' !! Z.to_nat q) as Hall.
  { intros q Hq. destruct (decide (q < 8704)); [apply Hagree; lia|].
    unfold len in *. by rewrite !lookup_ge_None_2 by lia. }
  pose proof Ht as Ht'. rewrite <- Hlen in Ht. rewrite <- Hlen' in Ht'.
  destruct (tap_of_positions is_pal chunk t Ht) as (tap & -> & _ & -> & _).
  destruct (tap_of_positions is_pal chunk' t Ht') as (tap' & -> & _ & -> & _).
  do 2 f_equal. apply list_fmap_ext. intros i p Hp.
  apply byte_at_agree; [|done].
  rewrite forallb_forall in Hpos. specialize (Hpos p).
  apply list_elem_of_lookup_2, list_elem_of_In in Hp. specialize (Hpos Hp).
  apply orb_true_iff in Hpos as [H1|H2]; lia.
Qed.

Lemma audio_ignores_video_witness :
  let chunk := replicate (Z.to_nat 8704) x33 in
  let chunk' := replicate (Z.to_nat 8192) xff ++ replicate (Z.to_nat 512) x33 in
  len chunk = FRAME_SIZE_BYTES ∧ len chunk' = FRAME_SIZE_BYTES
  ∧ extract_audio true chunk = extract_audio true chunk'.
Proof.
  intros chunk chunk'.
  assert (len chunk = FRAME_SIZE_BYTES) as Hlen by reflexivity.
  assert (len chunk' = FRAME_SIZE_BYTES) as Hlen' by reflexivity.
  split; [exact Hlen|]. split; [exact Hlen'|].
  apply (audio_ignores_video true chunk chunk' Hlen Hlen').
  intros q Hq. unfold chunk, chunk'.
  rewrite lookup_app_r by (rewrite length_replicate; lia).
  rewrite length_replicate, !lookup_replicate_2 by lia. reflexivity.
Defined.

Lemma video_ignores_gaps_witness :
  let chunk := replicate (Z.to_nat 8704) x11 in
  let chunk' := <[0%nat := xff]> chunk in
  8192 <= len chunk ∧ 8192 <= len chunk'
  ∧ extract_video chunk = extract_video chunk'.
Proof.
  intros chunk chunk'.
  assert (8192 <= len chunk) as Hlen by (vm_compute; discriminate).
  assert (8192 <= len chunk') as Hlen' by (vm_compute; discriminate).
  split; [exact Hlen|]. split; [exact Hlen'|].
  refine (proj1 (video_ignores_gaps chunk chunk' Hlen Hlen' _)).
  intros p Hp Hshown. unfold chunk'.
  rewrite list_lookup_insert_ne; [reflexivity|].
  unfold displayed in Hshown. Z.div_mod_to_equations. lia.
Defined.

(** X9: whatever the tunables, the generated table has 256 entries and
    every channel of every entry lies in 0..255, so the [np.uint8] table
    stores each as it is. *)
Theorem palette_well_formed (phase_shift saturation : R) :
  ∃ palette, _generate_gtia_palette phase_shift saturation = Ok palette
    ∧ len palette = 256
    ∧ Forall is_rgb8 palette.
Proof.
  destruct (generate_palette_total phase_shift saturation)
    as (palette & Hgen & Hinv).
  exists palette. split; [done|]. split; [apply Hinv|].
  apply Forall_lookup. intros i c Hc.
  assert (0 <= Z.of_nat i < 256) as Hi.
  { apply lookup_lt_Some in Hc. destruct Hinv as [Hl _]. unfold len in Hl. lia. }
  pose proof (palette_inv_lookup _ _ _ _ Hinv Hi) as Hlook.
  rewrite Nat2Z.id, Hc in Hlook. injection Hlook as ->.
  destruct (decide (Z.of_nat i < 16)).
  - unfold is_rgb8. cbn [fst snd]. lia.
  - apply color_rgb_is_rgb8.
Qed.

(** X10: at saturation 0 the table is gray throughout: for every chroma
    and luma the entry at [(chroma<<4)|luma] is (17 luma, 17 luma,
    17 luma), the phase playing no part. *)
Theorem palette_unsaturated (phase_shift : R) (chroma luma : Z) :
  0 <= chroma < 16 → 0 <= luma < 16 →
  ∃ palette, _generate_gtia_palette phase_shift 0 = Ok palette
    ∧ palette !! Z.to_nat (palette_index chroma luma)
      = Some (17 * luma, 17 * luma, 17 * luma).
Proof.
  intros Hc Hl.
  destruct (generate_palette_total phase_shift 0)
    as (palette & Hgen & _ & Hgray & Hcol).
  exists palette. split; [done|].
  destruct (decide (chroma = 0)) as [->|Hne].
  - rewrite palette_index_eq by lia. rewrite Z.mul_0_r, Z.add_0_l.
    by apply Hgray.
  - rewrite Hcol by lia. f_equal. by apply color_rgb_unsaturated.
Qed.

Lemma palette_unsaturated_witness :
  (0 <= 5 < 16 ∧ 0 <= 9 < 16)
  ∧ ∃ palette, _generate_gtia_palette 1.8 0 = Ok palette
      ∧ palette !! Z.to_nat (palette_index 5 9) = Some (153, 153, 153).
Proof.
  assert (0 <= 5 < 16) as Hc by lia.
  assert (0 <= 9 < 16) as Hl by lia.
  split; [by split|].
  exact (palette_unsaturated 1.8 5 9 Hc Hl).
Defined.

(** X11: the palette always matches the tunables. The player starts with
    the table of phase 1.8 and saturation 0.15, and after any run of key
    presses its table is the one generated from its current phase and
    saturation, with the saturation still within [0, 2]. *)
Theorem player_stays_tuned (is_pal debug : bool) (mix_freq mix_chans : Z)
  (file : list byte) (ks : list (key * bool)) :
  0 <= mix_freq →
  ∃ p p', init_player is_pal debug mix_freq mix_chans file = Ok p
    ∧ tuned p
    ∧ keydowns ks p = Ok p'
    ∧ tuned p'.
Proof.
  intros Hm. unfold init_player.
  destruct (generate_palette_total 1.8 0.15) as (t & Hgen & _).
  destruct (load_process_full_total is_pal mix_freq mix_chans file Hm)
    as (_ & _ & _ & l & _ & _ & _ & _ & _ & Hload & _).
  rewrite Hgen, Hload. cbn [mbind result_bind].
  match goal with
  | |- ∃ _ _, Ok ?q = _ ∧ _ => set (p := q)
  end.
  assert (tuned p) as Hp.
  { split; [exact Hgen|]. cbn [saturation p]. lra. }
  destruct (keydowns_tuned ks p Hp) as (p' & Hrun & Hp').
  exists p, p'. split; [reflexivity|]. split; [exact Hp|].
  split; [exact Hrun|exact Hp'].
Qed.

Lemma player_stays_tuned_witness :
  0 <= 44100
  ∧ ∃ p p', init_player true false 44100 2 (replicate (Z.to_nat 8704) x00) = Ok p
      ∧ keydowns [(K_RIGHTBRACKET, true); (K_LEFTBRACKET, false)] p = Ok p'
      ∧ tuned p'.
Proof.
  assert (0 <= 44100) as Hm by lia.
  split; [exact Hm|].
  destruct (player_stays_tuned true false 44100 2 (replicate (Z.to_nat 8704) x00)
              [(K_RIGHTBRACKET, true); (K_LEFTBRACKET, false)] Hm)
    as (p & p' & Hinit & _ & Hrun & Hp').
  exists p, p'. split; [exact Hinit|]. split; [exact Hrun|exact Hp'].
Defined.

(** X12: the keys L, D, S and B are pure toggles: one press flips a flag,
    so the state changes, but the tunables and the palette stay as they
    are, and a second press restores the state exactly. *)
Theorem toggle_twice (k : key) (shift shift' : bool) (p : player) :
  k = K_l ∨ k = K_d ∨ k = K_s ∨ k = K_b →
  ∃ p1, keydown k shift p = Ok p1
    ∧ p1 ≠ p
    ∧ phase_shift p1 = phase_shift p
    ∧ saturation p1 = saturation p
    ∧ palette p1 = palette p
    ∧ keydown k shift' p1 = Ok p.
Proof.
  intros Hk. destruct p as [pal dbg lp sc bl ph sat tbl vf snd viz].
  destruct Hk as [->|[->|[->| ->]]]; destruct shift, shift', dbg, lp, sc, bl;
    (eexists; split; [reflexivity|]; split; [discriminate|];
     repeat (split; [reflexivity|]); reflexivity).
Qed.

Lemma toggle_twice_witness :
  let p := Player true false false true true 1.8 0.15 [] [] [] [] in
  (K_s = K_l ∨ K_s = K_d ∨ K_s = K_s ∨ K_s = K_b)
  ∧ ∃ p1, keydown K_s false p = Ok p1
      ∧ show_scanlines p1 = false
      ∧ keydown K_s false p1 = Ok p.
Proof.
  intros p.
  assert (K_s = K_l ∨ K_s = K_d ∨ K_s = K_s ∨ K_s = K_b) as Hk
    by (right; right; left; reflexivity).
  split; [exact Hk|].
  destruct (toggle_twice K_s false false p Hk)
    as (p1 & Hp1 & _ & _ & _ & _ & Hback).
  exists p1. split; [exact Hp1|]. split; [|exact Hback].
  injection Hp1 as <-. reflexivity.
Defined.

(** * Further properties: rendering, clock, audio track, overlays *)


(** ** Render pipeline *)

Lemma lookup_every_other {A} (l : list A) (r : nat) :
  every_other l !! r = l !! (2 * r)%nat.
Proof.
  revert l. induction r as [|r IH]; intros l.
  - by destruct l.
  - destruct l as [|x [|y l]]; [done|done|].
    cbn [every_other]. replace (2 * S r)%nat with (S (S (2 * r))) by lia.
    change ((x :: every_other l) !! S r) with (every_other l !! r).
    change ((x :: y :: l) !! S (S (2 * r))) with (l !! (2 * r)%nat).
    apply IH.
Qed.

Lemma length_every_other {A} (l : list A) :
  length (every_other l) = ((length l + 1) / 2)%nat.
Proof.
  revert l. fix IH 1. intros [|x [|y l]]; [done|done|].
  cbn [every_other length]. rewrite IH.
  replace (S (S (length l)) + 1)%nat with (length l + 1 + 1 * 2)%nat by lia.
  rewrite Nat.div_add by lia. lia.
Qed.

Lemma lookup_pairs {A B} (g h : A → B) (l : list A) (j : nat) :
  (l ≫= λ a, [g a; h a]) !! j
  = (λ a, if Nat.even j then g a else h a) <$> l !! (j / 2)%nat.
Proof.
  revert j. induction l as [|a l IH]; intros j; [done|].
  cbn [mbind list_bind app].
  destruct j as [|[|j]]; [done|done|].
  change ((g a :: h a :: (l ≫= λ a, [g a; h a])) !! S (S j))
    with ((l ≫= λ a, [g a; h a]) !! j).
  rewrite IH. replace (S (S j)) with (j + 2 * 1)%nat by lia.
  rewrite Nat.even_add_mul_2. replace (j + 2 * 1)%nat with (j + 1 * 2)%nat by lia.
  rewrite Nat.div_add by lia.
  by replace (j / 2 + 1)%nat with (S (j / 2)) by lia.
Qed.

Lemma lookup_unpack_row (row : list byte) (j : nat) :
  unpack_row row !! j = nibble j <$> row !! (j / 2)%nat.
Proof.
  unfold unpack_row.
  pose proof (lookup_pairs (λ b, Z.land (Z.shiftr (byte_val b) 4) 15)
                (λ b, Z.land (byte_val b) 15) row j) as H.
  cbn beta in H. rewrite H.
  unfold nibble. by destruct (row !! (j / 2)%nat).
Qed.

Lemma lookup_repeat2 {A} (row : list A) (x : nat) :
  repeat2 row !! x = row !! (x / 2)%nat.
Proof.
  unfold repeat2.
  pose proof (lookup_pairs (λ a : A, a) (λ a : A, a) row x) as H.
  cbn beta in H. rewrite H.
  destruct (row !! (x / 2)%nat); [|done]. cbn. by destruct (Nat.even x).
Qed.

Lemma byte_val_range (b : byte) : 0 <= byte_val b < 256.
Proof. unfold byte_val. pose proof (Byte.to_N_bounded b). lia. Qed.

Lemma nibble_range (k : nat) (b : byte) : 0 <= nibble k b < 16.
Proof.
  pose proof (byte_val_range b) as Hb. unfold nibble.
  change 15 with (Z.ones 4). rewrite !Z.land_ones by lia.
  destruct (Nat.even k); Z.div_mod_to_equations; lia.
Qed.

(** The rows of a frame that carry the chroma and the luma of picture row
    [r]: even and odd at 50 Hz, the other way round at 60 Hz. *)
Lemma chroma_luma_rows (is_pal : bool) (vf : matrix) (r : nat) :
  (if is_pal then every_other vf else every_other (drop 1 vf)) !! r
  = vf !! (if is_pal then 2 * r else 2 * r + 1)%nat
  ∧ (if is_pal then every_other (drop 1 vf) else every_other vf) !! r
    = vf !! (if is_pal then 2 * r + 1 else 2 * r)%nat.
Proof.
  destruct is_pal; rewrite !lookup_every_other, ?lookup_drop;
    split; f_equal; lia.
Qed.

Lemma rgb_wide_lookup (is_pal : bool) (palette : list rgb) (vf : matrix)
  (r : nat) (crow lrow : list byte) :
  vf !! (if is_pal then 2 * r else 2 * r + 1)%nat = Some crow →
  vf !! (if is_pal then 2 * r + 1 else 2 * r)%nat = Some lrow →
  rgb_wide is_pal palette vf !! r
  = Some (repeat2 (to_float <$>
            zip_with (λ l c, palette !!! Z.to_nat (palette_index c l))
              (unpack_row lrow) (unpack_row crow))).
Proof.
  intros Hc Hl. destruct (chroma_luma_rows is_pal vf r) as [Ec El].
  rewrite Hc in Ec. rewrite Hl in El. unfold rgb_wide, _decode_frame_gtia.
  set (c := if is_pal then every_other vf else every_other (drop 1 vf)) in *.
  set (l := if is_pal then every_other (drop 1 vf) else every_other vf) in *.
  apply lookup_lt_Some in Ec as Hrc. apply lookup_lt_Some in El as Hrl.
  rewrite !list_lookup_fmap, lookup_zip_with, !list_lookup_fmap.
  rewrite !lookup_take_lt by lia. by rewrite Ec, El.
Qed.

Lemma rgb_wide_pixel (is_pal : bool) (palette : list rgb) (vf : matrix)
  (r x : nat) (crow lrow : list byte) (cb lb : byte) :
  vf !! (if is_pal then 2 * r else 2 * r + 1)%nat = Some crow →
  vf !! (if is_pal then 2 * r + 1 else 2 * r)%nat = Some lrow →
  crow !! (x / 4)%nat = Some cb → lrow !! (x / 4)%nat = Some lb →
  ∃ row, rgb_wide is_pal palette vf !! r = Some row
    ∧ row !! x
      = Some (to_float
                (palette !!! Z.to_nat
                   (palette_index (nibble (x / 2) cb) (nibble (x / 2) lb)))).
Proof.
  intros Hc Hl Hcb Hlb. eexists. split; [by apply rgb_wide_lookup|].
  rewrite lookup_repeat2, list_lookup_fmap, lookup_zip_with.
  rewrite !lookup_unpack_row, Nat.Div0.div_div. change (2 * 2)%nat with 4%nat.
  by rewrite Hcb, Hlb.
Qed.

Lemma len_every_other_192 (vf : matrix) :
  len vf = 192 →
  length (every_other vf) = 96%nat ∧ length (every_other (drop 1 vf)) = 96%nat.
Proof.
  unfold len. intros Hlen. rewrite !length_every_other, length_drop.
  replace (length vf) with 192%nat by lia. done.
Qed.

Lemma len_rgb_wide (is_pal : bool) (palette : list rgb) (vf : matrix) :
  len vf = 192 → len (rgb_wide is_pal palette vf) = 96.
Proof.
  intros Hlen. destruct (len_every_other_192 vf Hlen) as [He Ho].
  unfold rgb_wide, _decode_frame_gtia, len.
  rewrite !length_fmap, length_zip_with, !length_fmap, !length_take.
  destruct is_pal; rewrite He, Ho; done.
Qed.

(** ** Channel ranges through the pipeline *)

Lemma lookup_total_rgb8 (palette : list rgb) (i : nat) :
  Forall is_rgb8 palette → is_rgb8 (palette !!! i).
Proof.
  intros Hall. rewrite list_lookup_total_alt.
  destruct (palette !! i) as [c|] eqn:Hc.
  - rewrite Forall_forall in Hall. apply Hall. by eapply list_elem_of_lookup_2.
  - unfold is_rgb8. cbn. lia.
Qed.

Lemma inject_Z_half (c : Z) : 0 <= c <= 255 → half_int8 (inject_Z c).
Proof.
  intros Hc. exists (2 * c). split; [lia|].
  unfold Qeq, inject_Z. cbn [Qnum Qden]. lia.
Qed.

Lemma average_half (a b : Q) (ca cb : Z) :
  0 <= ca <= 255 → 0 <= cb <= 255 → a = inject_Z ca → b = inject_Z cb →
  half_int8 ((a + b) * 0.5).
Proof.
  intros Ha Hb -> ->. exists (ca + cb). split; [lia|].
  unfold Qeq, Qmult, Qplus, inject_Z. cbn [Qnum Qden]. lia.
Qed.

Lemma half_int8_range (x : Q) : half_int8 x → (0 <= x <= 255)%Q.
Proof.
  intros (k & Hk & ->). unfold Qle. cbn [Qnum Qden]. lia.
Qed.

Lemma int_Q_opp (q : Q) : int_Q (- q) = - int_Q q.
Proof. destruct q as [n d]. unfold int_Q. cbn [Qnum Qden Qopp]. apply Z.quot_opp_l. done. Qed.

(** [int] depends on the value of the rational only. *)
Lemma int_Q_comp (x y : Q) : (x == y)%Q → int_Q x = int_Q y.
Proof.
  intros Heq. destruct (Qlt_le_dec x 0) as [Hneg|Hpos].
  - assert (int_Q (- x) = int_Q (- y)) as H.
    { rewrite !int_Q_floor by (rewrite <- ?Heq; Lqa.lra).
      apply Qfloor_comp. by rewrite Heq. }
    rewrite !int_Q_opp in H. lia.
  - rewrite !int_Q_floor by (rewrite <- ?Heq; done).
    by apply Qfloor_comp.
Qed.

Lemma int_Q_range8 (x : Q) : (0 <= x <= 255)%Q → 0 <= int_Q x <= 255.
Proof.
  intros [H0 H1]. rewrite int_Q_floor by done. split.
  - change 0 with (Qfloor 0). by apply Qfloor_resp_le.
  - change 255 with (Qfloor 255). by apply Qfloor_resp_le.
Qed.

(** In binary32, as in exact arithmetic, darkening the channel [k/2]
    gives [int(0.6 * k/2)], for every half-integer a channel can hold. *)
Lemma darken_b32_exact (k : Z) :
  0 <= k <= 510 → darken_b32 k = Some (int_Q ((k # 2) * 0.6)).
Proof.
  intros Hk.
  assert (forallb (λ k, match darken_b32 k with
                        | Some v => v =? int_Q ((k # 2) * 0.6)
                        | None => false
                        end) (range 511) = true) as Hall.
  { vm_compute. reflexivity. }
  rewrite forallb_forall in Hall. specialize (Hall k).
  destruct (darken_b32 k) as [v|].
  - f_equal. apply Z.eqb_eq, Hall, list_elem_of_In, elem_of_range_from. lia.
  - discriminate Hall. apply list_elem_of_In, elem_of_range_from. lia.
Qed.

Lemma int_pixel_half (px : pixel) : int_pixel px → half_pixel px.
Proof.
  intros ([[r g] b] & (Hr & Hg & Hb) & ->). cbn [fst snd] in *.
  repeat split; by apply inject_Z_half.
Qed.

Lemma average_half_pixel (a b : pixel) :
  int_pixel a → int_pixel b → half_pixel (average a b).
Proof.
  intros ([[r g] b'] & (Hr & Hg & Hb) & ->) ([[r2 g2] b2] & (Hr2 & Hg2 & Hb2) & ->).
  cbn [fst snd] in *. unfold average, to_float, half_pixel. cbn [fst snd].
  repeat split;
    (eapply average_half; cycle 2; [reflexivity|reflexivity|done|done]).
Qed.

Lemma Forall_repeat2 {A} (P : A → Prop) (row : list A) :
  Forall P row → Forall P (repeat2 row).
Proof.
  unfold repeat2. induction 1 as [|x row Hx _ IH]; [constructor|].
  cbn [mbind list_bind app]. by repeat constructor.
Qed.

Lemma rgb_wide_int_pixels (is_pal : bool) (palette : list rgb) (vf : matrix) :
  Forall is_rgb8 palette →
  Forall (Forall int_pixel) (rgb_wide is_pal palette vf).
Proof.
  intros Hpal. unfold rgb_wide, _decode_frame_gtia.
  apply Forall_fmap, Forall_fmap.
  apply (Forall_zip_with _ (λ _, True) (λ _, True)); [|by apply Forall_true..].
  intros lrow crow _ _. cbn. apply Forall_repeat2, Forall_fmap.
  apply (Forall_zip_with _ (λ _, True) (λ _, True)); [|by apply Forall_true..].
  intros l c _ _. cbn. eexists. split; [|done]. by apply lookup_total_rgb8.
Qed.

Lemma blend_row_half (row : list pixel) :
  Forall int_pixel row → row ≠ [] →
  ∃ out, blend_row row = Ok out ∧ length out = length row
    ∧ Forall half_pixel out.
Proof.
  intros Hrow Hne. destruct row as [|p row]; [done|].
  apply Forall_cons in Hrow as [Hp Hrow].
  rewrite blend_row_cons. eexists. split; [done|]. split.
  - cbn [length]. rewrite length_zip_with, length_take. cbn [length]. lia.
  - constructor; [by apply int_pixel_half|].
    apply (Forall_zip_with _ int_pixel int_pixel); [|done|].
    + intros a b. apply average_half_pixel.
    + apply Forall_take. by constructor.
Qed.

Lemma map_rows_Forall {A B} (f : A → result B) (P : A → Prop) (Q : A → B → Prop)
  (rows : list A) :
  (∀ r, P r → ∃ r', f r = Ok r' ∧ Q r r') → Forall P rows →
  ∃ out, map_rows f rows = Ok out ∧ Forall2 Q rows out.
Proof.
  intros Hf. induction 1 as [|r rows Hr _ (out & Hout & Hall)].
  - by exists [].
  - destruct (Hf r Hr) as (r' & Hr' & HQ).
    exists (r' :: out). cbn [map_rows]. rewrite Hr'. cbn [mbind result_bind].
    rewrite Hout. split; [done|]. by constructor.
Qed.

Lemma blend_half (b : bool) (wide : list (list pixel)) :
  Forall (λ row, Forall int_pixel row ∧ row ≠ []) wide →
  ∃ blended, blend b wide = Ok blended
    ∧ Forall2 (λ row out, length out = length row ∧ Forall half_pixel out)
        wide blended.
Proof.
  intros Hwide. destruct b; cbn [blend].
  - apply (map_rows_Forall _ (λ row, Forall int_pixel row ∧ row ≠ [])); [|done].
    intros row [Hrow Hne].
    destruct (blend_row_half row Hrow Hne) as (out & Hout & Hl & Hh).
    by exists out.
  - exists wide. split; [done|]. apply Forall2_same_length_lookup.
    split; [done|]. intros i row row' Hr Hr'.
    rewrite Hr in Hr'. injection Hr' as <-. split; [done|].
    rewrite Forall_forall in Hwide.
    destruct (Hwide row) as [Hint _]; [by eapply list_elem_of_lookup_2|].
    eapply Forall_impl; [exact Hint|]. apply int_pixel_half.
Qed.

Lemma lookup_range (n : Z) (j : nat) :
  Z.of_nat j < n → range n !! j = Some (Z.of_nat j).
Proof.
  intros Hj. unfold range, range_from. rewrite list_lookup_fmap.
  rewrite lookup_seq_lt by lia. cbn. f_equal; lia.
Qed.

Lemma even_of_nat (j : nat) : Z.even (Z.of_nat j) = Nat.even j.
Proof.
  destruct (Nat.Even_or_Odd j) as [[q ->]|[q ->]].
  - rewrite Nat2Z.inj_mul, Z.even_mul, Nat.even_mul. done.
  - replace (Z.of_nat (2 * q + 1)) with (1 + 2 * Z.of_nat q) by lia.
    replace (2 * q + 1)%nat with (1 + 2 * q)%nat by lia.
    by rewrite Z.even_add_mul_2, Nat.even_add_mul_2.
Qed.

Lemma lookup_scanline_mask (j : nat) :
  (j < 192)%nat →
  scanline_mask !! j = Some (if Nat.even j then 1 else 0.6)%Q.
Proof.
  intros Hj. unfold scanline_mask.
  rewrite list_lookup_fmap, lookup_range by lia.
  cbn [fmap option_fmap option_map]. by rewrite even_of_nat.
Qed.

Lemma to_uint8_scale_1 (px : pixel) : to_uint8 (scale_pixel 1 px) = to_uint8 px.
Proof.
  unfold to_uint8, scale_pixel. cbn [fst snd].
  f_equal; [f_equal|]; apply int_Q_comp, Qmult_1_r.
Qed.

Lemma to_uint8_rgb8 (px : pixel) : half_pixel px → is_rgb8 (to_uint8 px).
Proof.
  intros (H1 & H2 & H3). unfold is_rgb8, to_uint8. cbn [fst snd].
  repeat split; apply int_Q_range8; by apply half_int8_range.
Qed.

Lemma to_uint8_dark_rgb8 (px : pixel) :
  half_pixel px → is_rgb8 (to_uint8 (scale_pixel 0.6 px)).
Proof.
  intros (H1 & H2 & H3). unfold is_rgb8, to_uint8, scale_pixel. cbn [fst snd].
  apply half_int8_range in H1, H2, H3.
  repeat split; apply int_Q_range8; Lqa.lra.
Qed.

(** The last steps of the pipeline on 96 blended rows: each row is shown
    twice, the second copy darkened when scanlines are on. *)
Lemma shown_rows (show : bool) (blended : list (list pixel)) :
  len blended = 96 →
  ∃ out,
    (if show then masked ← apply_mask (repeat2 blended); Ok (to_uint8_rows masked)
     else Ok (to_uint8_rows (repeat2 blended))) = Ok out
    ∧ len out = 192
    ∧ ∀ (j : nat) row, blended !! (j / 2)%nat = Some row →
        out !! j
        = Some (if show && Nat.odd j
                then (λ px, to_uint8 (scale_pixel 0.6 px)) <$> row
                else to_uint8 <$> row).
Proof.
  intros Hlen.
  assert (length (repeat2 blended) = 192%nat) as H192.
  { rewrite length_repeat2. unfold len in Hlen. lia. }
  assert (∀ j row, blended !! (j / 2)%nat = Some row → (j < 192)%nat) as Hj.
  { intros j row Hrow. apply lookup_lt_Some in Hrow. unfold len in Hlen.
    pose proof (Nat.div_mod_eq j 2) as Hdm.
    pose proof (Nat.mod_upper_bound j 2) as Hmod. lia. }
  destruct show.
  - unfold apply_mask.
    destruct (decide (len (repeat2 blended) = 192)) as [_|Hne];
      [|unfold len in Hne; lia].
    cbn [mbind result_bind]. eexists. split; [done|]. split.
    + unfold len, to_uint8_rows, scanline_mask, range.
      rewrite length_fmap, length_zip_with, length_fmap, length_range_from. lia.
    + intros j row Hrow. unfold to_uint8_rows.
      rewrite list_lookup_fmap, lookup_zip_with.
      rewrite lookup_scanline_mask by by eapply Hj.
      rewrite lookup_repeat2, Hrow. cbn [mbind option_bind fmap option_fmap option_map].
      f_equal. rewrite <- list_fmap_compose. rewrite <- Nat.negb_even.
      destruct (Nat.even j); cbn [negb andb]; [|done].
      apply list_fmap_ext. intros i px _. apply to_uint8_scale_1.
  - eexists. split; [done|]. split.
    + unfold len, to_uint8_rows. rewrite length_fmap. lia.
    + intros j row Hrow. unfold to_uint8_rows.
      by rewrite list_lookup_fmap, lookup_repeat2, Hrow.
Qed.

(** X13: which bytes make a pixel. In a 192 x 40 frame, the pixel in row
    [r] (of 96) and column [x] (of 160) of the decoded, horizontally
    doubled picture is the palette entry whose index has, as high field,
    nibble [x/2] of the chroma row and, as low field, nibble [x/2] of the
    luma row (byte [x/4] of each; the high nibble for an even [x/2]). The
    chroma row is frame row [2r] and the luma row [2r+1] at 50 Hz, the
    other way round at 60 Hz. The index is always inside the table. *)
Theorem pixel_of_frame (is_pal : bool) (palette : list rgb) (vf : matrix)
  (r x : nat) :
  len vf = 192 → Forall (λ row, len row = 40) vf →
  (r < 96)%nat → (x < 160)%nat →
  ∃ crow lrow cb lb row,
    vf !! (if is_pal then 2 * r else 2 * r + 1)%nat = Some crow
    ∧ vf !! (if is_pal then 2 * r + 1 else 2 * r)%nat = Some lrow
    ∧ crow !! (x / 4)%nat = Some cb ∧ lrow !! (x / 4)%nat = Some lb
    ∧ len (rgb_wide is_pal palette vf) = 96
    ∧ rgb_wide is_pal palette vf !! r = Some row
    ∧ len row = 160
    ∧ 0 <= palette_index (nibble (x / 2) cb) (nibble (x / 2) lb) < 256
    ∧ row !! x
      = Some (to_float
                (palette !!! Z.to_nat
                   (palette_index (nibble (x / 2) cb) (nibble (x / 2) lb)))).
Proof.
  intros Hlen Hrows Hr Hx.
  assert (∀ i, (i < 192)%nat → ∃ row, vf !! i = Some row ∧ length row = 40%nat)
    as Hrow.
  { intros i Hi. destruct (lookup_lt_is_Some_2 vf i) as [row Hrow].
    { unfold len in Hlen. lia. }
    exists row. split; [done|]. rewrite Forall_forall in Hrows.
    specialize (Hrows row (list_elem_of_lookup_2 _ _ _ Hrow)).
    unfold len in Hrows. lia. }
  destruct (Hrow (if is_pal then 2 * r else 2 * r + 1)%nat) as (crow & Hc & Hcl);
    [destruct is_pal; lia|].
  destruct (Hrow (if is_pal then 2 * r + 1 else 2 * r)%nat) as (lrow & Hl & Hll);
    [destruct is_pal; lia|].
  assert (x / 4 < 40)%nat as Hx4.
  { pose proof (Nat.div_mod_eq x 4). pose proof (Nat.mod_upper_bound x 4). lia. }
  destruct (lookup_lt_is_Some_2 crow (x / 4)%nat) as [cb Hcb]; [lia|].
  destruct (lookup_lt_is_Some_2 lrow (x / 4)%nat) as [lb Hlb]; [lia|].
  destruct (rgb_wide_pixel is_pal palette vf r x crow lrow cb lb Hc Hl Hcb Hlb)
    as (row & Hwide & Hpx).
  exists crow, lrow, cb, lb, row. repeat (split; [done|]).
  split; [by apply len_rgb_wide|]. split; [done|]. split.
  { pose proof (rgb_wide_width is_pal palette vf Hrows) as Hw.
    rewrite Forall_forall in Hw. apply Hw. by eapply list_elem_of_lookup_2. }
  split; [|done].
  pose proof (nibble_range (x / 2) cb). pose proof (nibble_range (x / 2) lb).
  rewrite palette_index_eq by lia. lia.
Qed.

Lemma pixel_of_frame_witness :
  let vf := replicate (Z.to_nat 192) (replicate 40 x1b) in
  let palette := (λ i : nat, (Z.of_nat i, 0, 255 - Z.of_nat i)) <$> seq 0 256 in
  (len vf = 192 ∧ Forall (λ row, len row = 40) vf ∧ (3 < 96)%nat ∧ (5 < 160)%nat)
  ∧ ∃ row, rgb_wide true palette vf !! 3%nat = Some row
      ∧ row !! 5%nat = Some (to_float (palette !!! 17%nat)).
Proof.
  intros vf palette.
  assert (len vf = 192) as Hlen by reflexivity.
  assert (Forall (λ row, len row = 40) vf) as Hrows.
  { apply Forall_replicate. reflexivity. }
  assert (3 < 96)%nat as Hr by lia.
  assert (5 < 160)%nat as Hx by lia.
  split; [by repeat split|].
  destruct (pixel_of_frame true palette vf 3 5 Hlen Hrows Hr Hx)
    as (crow & lrow & cb & lb & row & Hc & Hl & Hcb & Hlb & _ & Hrow & _ & _ & Hpx).
  exists row. split; [exact Hrow|]. rewrite Hpx.
  vm_compute in Hc, Hl. injection Hc as <-. injection Hl as <-.
  vm_compute in Hcb, Hlb. injection Hcb as <-. injection Hlb as <-.
  reflexivity.
Defined.



(** X15: the darkening is free of rounding artefacts. For every value a
    blended channel can hold, half an integer [k/2] between 0 and 255, the
    binary32 product with the mask factor (the double 0.6 stored as
    binary32) truncates to [floor(3k/10)], the exact product truncated. *)
Theorem darkening_exact (k : Z) :
  0 <= k <= 510 →
  darken_b32 k = Some (3 * k / 10)
  ∧ int_Q ((k # 2) * 0.6) = 3 * k / 10.
Proof.
  intros Hk. rewrite darken_b32_exact by done.
  assert (int_Q ((k # 2) * 0.6) = 3 * k / 10) as ->; [|done].
  unfold int_Q, Qmult. cbn [Qnum Qden].
  rewrite Z.quot_div_nonneg by lia. Z.div_mod_to_equations. lia.
Qed.

Lemma darkening_exact_witness :
  0 <= 255 <= 510 ∧ darken_b32 255 = Some 76.
Proof.
  assert (0 <= 255 <= 510) as Hk by lia.
  split; [exact Hk|].
  exact (proj1 (darkening_exact 255 Hk)).
Defined.

(** ** Playback clock *)

Lemma frame_index_eq (is_pal : bool) (ticks : Z) :
  frame_index is_pal ticks
  = Z.quot (ticks * (if is_pal then 4986 else 5992)) 100000.
Proof.
  unfold frame_index, int_Q. destruct is_pal; cbn [fps Qnum Qden Qmult Qdiv Qinv inject_Z];
    rewrite Z.mul_1_r; reflexivity.
Qed.

Lemma frame_index_nonneg (is_pal : bool) (ticks : Z) :
  0 <= ticks → 0 <= frame_index is_pal ticks.
Proof.
  intros Ht. rewrite frame_index_eq. apply Z.quot_pos; [|lia].
  destruct is_pal; lia.
Qed.

(** X16: pausing stops the clock. After a pause at [t1] and a resume at
    [t2] the elapsed time is again what it was at [t1], and from then on it
    runs behind the unpaused clock by the length of the pause. *)
Theorem pause_excluded (t : transport) (t1 t2 later : Z) :
  paused t = false →
  let t' := space_key t2 (space_key t1 t) in
  paused (space_key t1 t) = true
  ∧ paused t' = false
  ∧ elapsed t2 t' = elapsed t1 t
  ∧ elapsed later t' = elapsed later t - (t2 - t1).
Proof.
  intros Hp. unfold space_key, elapsed. rewrite Hp.
  cbn [paused start_ticks pause_start]. repeat split; lia.
Qed.

Lemma pause_excluded_witness :
  let t := {| start_ticks := 100; paused := false; pause_start := 0 |} in
  paused t = false
  ∧ elapsed 9000 (space_key 5000 (space_key 2000 t)) = elapsed 9000 t - 3000.
Proof.
  intros t.
  assert (paused t = false) as Hp by reflexivity.
  split; [exact Hp|].
  exact (proj2 (proj2 (proj2 (pause_excluded t 2000 5000 9000 Hp)))).
Defined.

(** X17: frame selection is safe and never runs backwards. At any elapsed
    time from 0 on, the frame index is non-negative and either it is below
    the number of frames, and that frame is the one rendered, or the end
    of the file is reported; the lookup never raises. A later time never
    gives an earlier frame. *)
Theorem frame_selection (is_pal : bool) (frames : list matrix)
  (ticks ticks' : Z) :
  0 <= ticks <= ticks' →
  0 <= frame_index is_pal ticks <= frame_index is_pal ticks'
  ∧ (if decide (frame_index is_pal ticks < len frames)
     then ∃ vf, frames !! Z.to_nat (frame_index is_pal ticks) = Some vf
                ∧ current_frame is_pal frames ticks = Ok (Some vf)
     else current_frame is_pal frames ticks = Ok None).
Proof.
  intros Ht. pose proof (frame_index_nonneg is_pal ticks) as Hn.
  split.
  - split; [apply Hn; lia|]. rewrite !frame_index_eq.
    apply Z.quot_le_mono; [lia|]. destruct is_pal; nia.
  - unfold current_frame. destruct (decide (frame_index is_pal ticks < len frames)).
    + destruct (decide (frame_index is_pal ticks >= len frames)); [lia|].
      destruct (getitem_in_range frames (frame_index is_pal ticks))
        as (vf & Hvf & Hget); [lia|].
      exists vf. split; [done|]. by rewrite Hget.
    + by destruct (decide (frame_index is_pal ticks >= len frames)); [|lia].
Qed.

Lemma frame_selection_witness :
  0 <= 1000 <= 2000 ∧ 0 <= frame_index true 1000 <= frame_index true 2000.
Proof.
  assert (0 <= 1000 <= 2000) as Ht by lia.
  split; [exact Ht|].
  exact (proj1 (frame_selection true [] 1000 2000 Ht)).
Defined.

(** ** Audio track assembler, continued *)

Lemma range_from_snoc (lo hi : Z) :
  lo < hi → range_from lo hi = range_from lo (hi - 1) ++ [hi - 1].
Proof.
  intros H. unfold range_from.
  replace (Z.to_nat (hi - lo)) with (S (Z.to_nat (hi - 1 - lo))) by lia.
  rewrite seq_S, fmap_app. cbn. do 2 f_equal. lia.
Qed.

Lemma int_Q_inject (z : Z) : int_Q (inject_Z z) = z.
Proof. unfold int_Q. cbn. apply Z.quot_1_r. Qed.

Lemma pcm_of_byte_eq (b : byte) :
  pcm_of_byte b = 500 * (Z.min (byte_val b) 100 - 50).
Proof.
  pose proof (byte_val_range b) as Hb. unfold pcm_of_byte.
  set (v := byte_val b) in *.
  assert (0 <= inject_Z v)%Q as H0.
  { change 0%Q with (inject_Z 0). rewrite <- Zle_Qle. lia. }
  assert (center (inject_Z v) == inject_Z (Z.min v 100 - 50))%Q as Hc.
  { unfold center. destruct (Z_le_gt_dec v 100) as [Hle|Hgt].
    - rewrite clip_id, Z.min_l by
        (try split; try done; change 100%Q with (inject_Z 100);
         rewrite <- ?Zle_Qle; lia).
      unfold Z.sub. by rewrite inject_Z_plus.
    - rewrite Z.min_r by lia. unfold clip.
      assert (Qmin (Qmax (inject_Z v) 0) 100 == 100)%Q as ->; [|done].
      apply Q.min_r. eapply Qle_trans; [|apply Q.le_max_l].
      change 100%Q with (inject_Z 100). rewrite <- Zle_Qle. lia. }
  unfold to_pcm.
  destruct (to_pcm_bound (center (inject_Z v))) as [-> _]; [apply center_range|].
  rewrite <- (int_Q_inject (500 * _)). apply int_Q_comp.
  rewrite Hc, inject_Z_mult. change (inject_Z 500) with 500%Q. ring.
Qed.

(** At or beyond the last knot the interpolation returns the last value. *)
Lemma interp_from_last (x : Q) (xp fp : list Q) :
  Forall (λ k, k <= x)%Q xp → length xp = length fp → xp ≠ [] →
  last fp = Some (interp_from x xp fp).
Proof.
  revert fp. induction xp as [|x0 xp IH]; intros fp Hle Hlen Hne; [done|].
  destruct fp as [|f0 fp]; [done|].
  apply Forall_cons in Hle as [_ Hle].
  destruct xp as [|x1 xp]; destruct fp as [|f1 fp]; try done.
  rewrite last_cons_cons. cbn [interp_from].
  destruct (Qlt_le_dec x x1) as [Hlt|_].
  - apply Forall_cons in Hle as [Hx1 _]. by apply Qlt_not_le in Hlt.
  - apply IH; [done| |done]. cbn [length] in *. lia.
Qed.

Lemma interp1_last (x : Q) (xp fp : list Q) :
  Forall (λ k, k <= x)%Q xp → length xp = length fp → xp ≠ [] →
  last fp = Some (interp1 x xp fp).
Proof.
  intros Hle Hlen Hne. unfold interp1.
  destruct xp as [|x0 xp]; [done|]. destruct fp as [|f0 fp]; [done|].
  destruct (Qlt_le_dec x x0) as [Hlt|_].
  - apply Forall_cons in Hle as [Hx0 _]. by apply Qlt_not_le in Hlt.
  - by apply interp_from_last.
Qed.

(** On the first knot it returns the first value. *)
Lemma interp1_first (x k0 k1 f0 f1 : Q) (xp fp : list Q) :
  (x == 0)%Q → (k0 == 0)%Q → (0 < k1)%Q →
  interp1 x (k0 :: k1 :: xp) (f0 :: f1 :: fp) = f0.
Proof.
  intros Hx Hk0 Hk1. unfold interp1.
  destruct (Qlt_le_dec x k0); [done|]. cbn [interp_from].
  destruct (Qlt_le_dec x k1) as [_|Hge].
  - assert (Qeq_bool k0 x = true) as ->; [|done].
    apply Qeq_eq_bool. by rewrite Hx.
  - rewrite Hx in Hge. by apply Qlt_not_le in Hk1.
Qed.

(** A stream of one value is resampled to that value. *)
Lemma interp_from_const (c x : Q) (xp fp : list Q) :
  Forall (λ f, f = c) fp → length xp = length fp → xp ≠ [] →
  (interp_from x xp fp == c)%Q.
Proof.
  revert fp. induction xp as [|x0 xp IH]; intros fp Hc Hlen Hne; [done|].
  destruct fp as [|f0 fp]; [done|].
  apply Forall_cons in Hc as [-> Hc].
  destruct xp as [|x1 xp]; destruct fp as [|f1 fp]; try done.
  cbn [interp_from].
  destruct (Qlt_le_dec x x1) as [_|_].
  - destruct (Qeq_bool x0 x); [done|].
    apply Forall_cons in Hc as [-> _]. unfold Qdiv. ring.
  - refine (IH (f1 :: fp) Hc _ _); [|done]. cbn [length] in *. lia.
Qed.

Lemma interp1_const (c x : Q) (xp fp : list Q) :
  Forall (λ f, f = c) fp → length xp = length fp → xp ≠ [] →
  (interp1 x xp fp == c)%Q.
Proof.
  intros Hc Hlen Hne. unfold interp1.
  destruct xp as [|x0 xp]; [done|]. destruct fp as [|f0 fp]; [done|].
  destruct (Qlt_le_dec x x0).
  - by apply Forall_cons in Hc as [-> _].
  - by apply interp_from_const.
Qed.

Lemma linspace01_knots (num : Z) :
  2 <= num →
  linspace01 num
  = Ok ((λ i, inject_Z i / inject_Z (num - 1))%Q <$> range num).
Proof.
  intros H. unfold linspace01.
  destruct (decide (num < 0)); [lia|]. by destruct (decide (num = 1)); [lia|].
Qed.

Lemma knot_le_1 (i n : Z) : 0 < n → i <= n → (inject_Z i / inject_Z n <= 1)%Q.
Proof.
  intros Hn Hi. apply Qle_shift_div_r.
  - change 0%Q with (inject_Z 0). by rewrite <- Zlt_Qlt.
  - rewrite Qmult_1_l. by rewrite <- Zle_Qle.
Qed.

Lemma knot_eq_1 (n : Z) : 0 < n → (inject_Z n / inject_Z n == 1)%Q.
Proof.
  intros Hn. apply Qmult_inv_r. intros H.
  unfold Qeq in H. cbn [Qnum Qden inject_Z] in H. lia.
Qed.

Lemma knot_pos (i n : Z) : 0 < i → 0 < n → (0 < inject_Z i / inject_Z n)%Q.
Proof.
  intros Hi Hn. apply Qlt_shift_div_l.
  - change 0%Q with (inject_Z 0). by rewrite <- Zlt_Qlt.
  - rewrite Qmult_0_l. change 0%Q with (inject_Z 0). by rewrite <- Zlt_Qlt.
Qed.

(** The resampled stream starts and ends on the samples the stream
    itself starts and ends on. *)
Lemma interp_endpoints (tgt : Z) (audio ys : list Q) :
  2 <= tgt → 2 <= len audio →
  (xs ← linspace01 tgt; xp ← linspace01 (len audio); interp xs xp audio)
  = Ok ys →
  head ys = head audio ∧ last ys = last audio.
Proof.
  intros Htgt Hlen.
  rewrite (linspace01_knots tgt), (linspace01_knots (len audio)) by lia.
  cbn [mbind result_bind]. unfold interp.
  destruct (decide _) as [|_]; [done|]. intros [= <-].
  assert (length (range (len audio)) = length audio) as Hlr.
  { unfold range. rewrite length_range_from. unfold len. lia. }
  split.
  - unfold range. rewrite (range_from_cons 0 tgt) by lia.
    rewrite (range_from_cons 0 (len audio)),
      (range_from_cons (0 + 1) (len audio)) by lia.
    destruct audio as [|f0 [|f1 fp]];
      [unfold len in Hlen; cbn [length] in Hlen; lia..|].
    cbn [fmap list_fmap head]. f_equal. apply interp1_first.
    + unfold Qdiv. apply Qmult_0_l.
    + unfold Qdiv. apply Qmult_0_l.
    + apply knot_pos; lia.
  - rewrite !fmap_last. unfold range in *. rewrite (range_from_snoc 0 tgt) by lia.
    rewrite last_snoc. cbn [fmap option_fmap option_map].
    symmetry. apply interp1_last.
    + apply Forall_fmap, Forall_forall. intros i Hi. cbn.
      apply elem_of_range_from in Hi.
      rewrite (knot_eq_1 (tgt - 1)) by lia. apply knot_le_1; lia.
    + by rewrite length_fmap.
    + rewrite (range_from_cons 0 (len audio)) by lia. done.
Qed.

(** Entry [j] of tap [i] in the concatenated stream. *)
Lemma lookup_concat_uniform {A} (m : nat) (ls : list (list A)) (i j : nat)
  (l : list A) :
  Forall (λ l, length l = m) ls → ls !! i = Some l → (j < m)%nat →
  concat ls !! (i * m + j)%nat = l !! j.
Proof.
  revert i. induction ls as [|l0 ls IH]; intros i Hall Hi Hj; [done|].
  apply Forall_cons in Hall as [Hl0 Hall]. cbn [concat].
  destruct i as [|i].
  - injection Hi as ->. cbn. by rewrite lookup_app_l by lia.
  - cbn in Hi. rewrite lookup_app_r by lia.
    replace (S i * m + j - length l0)%nat with (i * m + j)%nat by lia.
    by apply IH.
Qed.

Lemma length_concat_uniform {A} (m : nat) (ls : list (list A)) :
  Forall (λ l, length l = m) ls → length (concat ls) = (length ls * m)%nat.
Proof.
  induction 1 as [|l ls Hl _ IH]; [done|].
  cbn [concat length]. rewrite length_app. lia.
Qed.

(** In a whole frame every entry of the tap comes from the audio block:
    none keeps the value the array starts with. *)
Lemma tap_entries_from_block (is_pal : bool) (chunk tap : list byte) :
  len chunk = FRAME_SIZE_BYTES → extract_audio is_pal chunk = Ok tap →
  len tap = audio_len is_pal
  ∧ tap !! Z.to_nat 0 = chunk !! Z.to_nat 8192
  ∧ tap !! Z.to_nat (audio_len is_pal - 1) = chunk !! Z.to_nat 8508
  ∧ ∀ i, 0 <= i < audio_len is_pal →
      ∃ p, 8192 <= p < 8704 ∧ tap !! Z.to_nat i = chunk !! Z.to_nat p.
Proof.
  unfold FRAME_SIZE_BYTES. intros Hlen Htap.
  assert (∃ t, pos_algorithm is_pal 8704 = Ok t
            ∧ pos_ac t !! Z.to_nat 0 = Some 8192
            ∧ pos_ac t !! Z.to_nat (audio_len is_pal - 1) = Some 8508
            ∧ length (pos_ac t) = 512%nat
            ∧ forallb (λ p, (8192 <=? p) && (p <? 8704))
                (take (Z.to_nat (audio_len is_pal)) (pos_ac t)) = true)
    as (t & Ht & H0 & Hlast & Hlt & Hall).
  { destruct is_pal; (eexists; split; [vm_compute; reflexivity|by vm_compute]). }
  rewrite <- Hlen in Ht.
  destruct (tap_of_positions is_pal chunk t Ht) as (tap' & Htap' & Hl & _ & Hpos).
  rewrite Htap in Htap'. injection Htap' as <-.
  assert (20 <= audio_len is_pal <= 512) as Hal by (destruct is_pal; cbn; lia).
  split; [done|]. split; [|split].
  - apply (Hpos 0 8192); [lia|lia|done].
  - apply (Hpos (audio_len is_pal - 1) 8508); [lia|lia|done].
  - intros i Hi.
    destruct (lookup_lt_is_Some_2 (pos_ac t) (Z.to_nat i)) as [p Hp]; [lia|].
    rewrite forallb_forall in Hall. specialize (Hall p).
    assert (8192 <= p < 8704) as Hrange.
    { assert ((8192 <=? p) && (p <? 8704) = true) as H; [|lia].
      apply Hall, list_elem_of_In. apply (list_elem_of_lookup_2 _ (Z.to_nat i)).
      rewrite lookup_take_lt by lia. done. }
    exists p. split; [done|]. apply (Hpos i p); [done|lia|done].
Qed.

Lemma tap_of_constant_block (is_pal : bool) (chunk tap : list byte) (b : byte) :
  len chunk = FRAME_SIZE_BYTES →
  (∀ q, 8192 <= q < 8704 → chunk !! Z.to_nat q = Some b) →
  extract_audio is_pal chunk = Ok tap → Forall (λ x, x = b) tap.
Proof.
  intros Hlen Hb Htap.
  destruct (tap_entries_from_block is_pal chunk tap Hlen Htap)
    as (Hl & _ & _ & Hall).
  apply Forall_lookup. intros i x Hx.
  assert (i < length tap)%nat as Hi by by eapply lookup_lt_Some.
  destruct (Hall (Z.of_nat i)) as (p & Hp & Hlook); [unfold len in Hl; lia|].
  rewrite Nat2Z.id, Hx, (Hb p Hp) in Hlook. by injection Hlook.
Qed.

Lemma to_pcm_comp (x y : Q) :
  (x == y)%Q → (-50 <= y <= 50)%Q → to_pcm x = to_pcm y.
Proof.
  intros Heq Hy. unfold to_pcm.
  destruct (to_pcm_bound x) as [-> _]; [by rewrite Heq|].
  destruct (to_pcm_bound y) as [-> _]; [done|].
  apply int_Q_comp. by rewrite Heq.
Qed.

Lemma interp_const_track (tgt : Z) (audio ys : list Q) (c : Q) :
  Forall (λ f, f = c) audio →
  (xs ← linspace01 tgt; xp ← linspace01 (len audio); interp xs xp audio)
  = Ok ys →
  Forall (λ y, y == c)%Q ys.
Proof.
  intros Hc. destruct (linspace01 tgt) as [xs|]; [|done].
  destruct (linspace01 (len audio)) as [xp|]; [|done].
  cbn [mbind result_bind]. unfold interp.
  destruct (decide _) as [|Hn]; [done|]. intros [= <-].
  apply Forall_fmap, Forall_true. intros x. cbn.
  apply interp1_const; [done| |].
  - destruct (decide (length xp = length audio)); [done|]. destruct Hn. by right.
  - intros ->. destruct Hn. by left.
Qed.

Lemma tgt_samples_no_frames (is_pal : bool) (mix_freq : Z) :
  tgt_samples is_pal mix_freq 0 = 0.
Proof. rewrite tgt_samples_eq. by destruct is_pal. Qed.

(** X18: the track starts and ends on the recording. When the track has at
    least two samples, its first sample is byte 8192 of the first frame and
    its last sample is byte 8508 of the last frame, each clipped to 100,
    centered on 50 and multiplied by 500: the resampling leaves both ends
    of the tap stream where they are. *)
Theorem track_endpoints (is_pal : bool) (mix_freq mix_chans : Z)
  (file : list byte) :
  let raw := read_raw file in
  let n := num_frames raw in
  0 < mix_freq → 2 <= tgt_samples is_pal mix_freq n →
  ∃ l, _load_process_full is_pal mix_freq mix_chans file = Ok l
    ∧ head (loaded_viz l) = pcm_of_byte <$> raw !! Z.to_nat 8192
    ∧ last (loaded_viz l)
      = pcm_of_byte <$> raw !! Z.to_nat ((n - 1) * FRAME_SIZE_BYTES + 8508)
    ∧ ∀ b, pcm_of_byte b = 500 * (Z.min (byte_val b) 100 - 50).
Proof.
  intros raw n Hm Htgt.
  destruct (load_process_full_total is_pal mix_freq mix_chans file)
    as (vs & taps & ys & l & Hdemux & _ & Hres & _ & _ & Hload & _ & Hviz & _);
    [lia|].
  fold raw in Hdemux, Hres. fold n in Hres.
  exists l. split; [done|].
  pose proof (num_frames_nonneg raw) as Hn0. fold n in Hn0.
  assert (1 <= n) as Hn.
  { destruct (decide (n = 0)) as [H0|]; [|lia].
    rewrite H0, tgt_samples_no_frames in Htgt. lia. }
  destruct (demux_total is_pal raw) as (vs1 & taps1 & Hd1 & _ & _ & Hlens).
  destruct (demux_frames is_pal raw) as (vs2 & taps2 & Hd2 & _ & Hlt & Hframes).
  rewrite Hdemux in Hd1, Hd2. injection Hd1 as <- <-. injection Hd2 as <- <-.
  fold n in Hlt, Hframes.
  set (m := Z.to_nat (audio_len is_pal)).
  assert (262 <= m)%nat as Hm262 by (unfold m; destruct is_pal; cbn; lia).
  assert (Forall (λ a : list byte, length a = m) taps) as Hlens'.
  { eapply Forall_impl; [exact Hlens|]. intros a Ha. unfold len in Ha. cbn in Ha.
    unfold m. lia. }
  assert (length (concat taps) = (length taps * m)%nat) as Hlc
    by by apply length_concat_uniform.
  assert (raw_audio taps = (λ b, inject_Z (byte_val b)) <$> concat taps) as Hraw.
  { unfold raw_audio. destruct taps; [|done]. unfold len in Hlt. cbn in Hlt. lia. }
  unfold resample in Hres. apply interp_endpoints in Hres; [|done|].
  2:{ unfold len in *. rewrite length_fmap, Hraw, length_fmap, Hlc. nia. }
  destruct Hres as [Hhead Hlast].
  (* the first and the last tap, and the chunks they were read from *)
  destruct (Hframes 0) as (_ & a0 & _ & Ha0 & _ & Hx0); [lia|].
  destruct (Hframes (n - 1)) as (_ & a1 & _ & Ha1 & _ & Hx1); [lia|].
  pose proof (len_chunk raw 0 ltac:(fold n; lia)) as Hc0.
  pose proof (len_chunk raw (n - 1) ltac:(fold n; lia)) as Hc1.
  destruct (tap_entries_from_block is_pal _ a0 Hc0 Hx0) as (_ & H0 & _ & _).
  destruct (tap_entries_from_block is_pal _ a1 Hc1 Hx1) as (_ & _ & H1 & _).
  unfold FRAME_SIZE_BYTES in *.
  rewrite lookup_slice in H0 by lia. rewrite lookup_slice in H1 by lia.
  split; [|split; [|apply pcm_of_byte_eq]].
  - rewrite Hviz, !head_lookup, !list_lookup_fmap, <- head_lookup, Hhead.
    rewrite head_lookup, Hraw, !list_lookup_fmap.
    pose proof (lookup_concat_uniform m taps 0 0 a0 Hlens' Ha0 ltac:(lia)) as Hc.
    cbn [Nat.mul Nat.add] in Hc. rewrite Hc.
    change (Z.to_nat 0) with 0%nat in H0. rewrite H0.
    replace (Z.to_nat (0 * 8704) + Z.to_nat 8192)%nat with (Z.to_nat 8192) by lia.
    generalize (raw !! Z.to_nat 8192). intros [x|]; unfold pcm_of_byte; cbn [fmap option_fmap option_map]; reflexivity.
  - rewrite Hviz, fmap_last, Hlast, Hraw, !fmap_last, last_lookup, Hlc.
    pose proof (lookup_concat_uniform m taps (Z.to_nat (n - 1)) (m - 1) a1
                  Hlens' Ha1 ltac:(lia)) as Hc.
    replace (Init.Nat.pred (length taps * m))
      with (Z.to_nat (n - 1) * m + (m - 1))%nat by (unfold len in Hlt; nia).
    rewrite Hc.
    replace (m - 1)%nat with (Z.to_nat (audio_len is_pal - 1)) by (unfold m; lia).
    rewrite H1.
    replace (Z.to_nat ((n - 1) * 8704) + Z.to_nat 8508)%nat
      with (Z.to_nat ((n - 1) * 8704 + 8508)) by lia.
    generalize (raw !! Z.to_nat ((n - 1) * 8704 + 8508)).
    intros [x|]; unfold pcm_of_byte; cbn [fmap option_fmap option_map]; reflexivity.
Qed.

Lemma track_endpoints_witness :
  let file := replicate (Z.to_nat 8192) x64 ++ [x0a]
              ++ replicate (Z.to_nat 315) x64 ++ [x5a]
              ++ replicate (Z.to_nat 195) x64 in
  0 < 300 ∧ 2 <= tgt_samples true 300 (num_frames (read_raw file))
  ∧ ∃ l, _load_process_full true 300 1 file = Ok l
    ∧ head (loaded_viz l) = Some (-20000)
    ∧ last (loaded_viz l) = Some 20000.
Proof.
  intros file.
  assert (0 < 300) as Hm by lia.
  assert (2 <= tgt_samples true 300 (num_frames (read_raw file))) as Htgt
    by (vm_compute; discriminate).
  split; [exact Hm|]. split; [exact Htgt|].
  destruct (track_endpoints true 300 1 file Hm Htgt) as (l & Hload & Hh & Hl & _).
  exists l. split; [exact Hload|]. split.
  - rewrite Hh. vm_compute. reflexivity.
  - rewrite Hl. vm_compute. reflexivity.
Defined.

(** X19: a recording of one level gives a track of one level. When every
    byte of the audio block of every frame holds the same value, every
    sample of every channel of the track is that value clipped to 100,
    centered on 50 and multiplied by 500; for the value 50 the track is
    all zeros. *)
Theorem constant_audio_track (is_pal : bool) (mix_freq mix_chans : Z)
  (header : list byte) (chunks : list (list byte)) (b : byte) :
  0 < mix_freq →
  len header = 0 ∨ len header = HEADER_SIZE →
  Forall (λ c, len c = FRAME_SIZE_BYTES
               ∧ ∀ q, 8192 <= q < 8704 → c !! Z.to_nat q = Some b) chunks →
  let level := 500 * (Z.min (byte_val b) 100 - 50) in
  ∃ l, _load_process_full is_pal mix_freq mix_chans (header ++ concat chunks)
       = Ok l
    ∧ Forall (λ s, s = level) (loaded_viz l)
    ∧ Forall (Forall (λ s, s = level)) (loaded_final l)
    ∧ (byte_val b = 50 → level = 0).
Proof.
  intros Hm Hh Hchunks level.
  assert (Forall (λ c, len c = FRAME_SIZE_BYTES) chunks) as Hlens.
  { eapply Forall_impl; [exact Hchunks|]. by intros c [H _]. }
  assert (read_raw (header ++ concat chunks) = concat chunks) as Hraw.
  { assert (len (concat chunks) mod FRAME_SIZE_BYTES = 0) as Hmul.
    { rewrite (len_concat_uniform FRAME_SIZE_BYTES) by done. by apply Z.mod_mul. }
    destruct Hh as [H0|H8].
    - destruct header; [|unfold len in H0; cbn in H0; lia].
      by apply read_raw_multiple.
    - by apply read_raw_header. }
  destruct (load_process_full_total is_pal mix_freq mix_chans
              (header ++ concat chunks))
    as (vs & taps & ys & l & Hdemux & _ & Hres & Hlen & Hys & Hload & _ & Hviz
        & Hfinal & _); [lia|].
  rewrite Hraw in Hdemux, Hres, Hlen.
  exists l. split; [done|].
  destruct (demux_of_chunks is_pal chunks Hlens) as (vs' & taps' & Hd & _ & Htaps).
  rewrite Hdemux in Hd. injection Hd as <- <-.
  assert (Forall (λ s, s = level) (loaded_viz l)) as Hlevel.
  { rewrite Hviz. apply Forall_fmap.
    destruct taps as [|a taps].
    { apply Forall2_nil_inv_r in Htaps as ->.
      change (num_frames (concat [])) with 0 in Hlen.
      rewrite tgt_samples_no_frames in Hlen.
      destruct ys; [done|]. unfold len in Hlen. cbn in Hlen. lia. }
    assert (Forall (λ x, x = b) (concat (a :: taps))) as Hb.
    { apply Forall_concat.
      clear -Htaps Hchunks. induction Htaps as [|c t cs ts Hx _ IH]; [done|].
      apply Forall_cons in Hchunks as [[Hc Hq] Hchunks].
      apply Forall_cons. split; [|by apply IH].
      by apply (tap_of_constant_block is_pal c t b). }
    set (c := center (inject_Z (byte_val b))).
    unfold resample in Hres. apply (interp_const_track _ _ _ c) in Hres.
    - eapply Forall_impl; [exact Hres|]. intros y Hy. cbn.
      unfold level. rewrite <- pcm_of_byte_eq. unfold pcm_of_byte. fold c.
      apply to_pcm_comp; [done|apply center_range].
    - apply Forall_fmap. unfold raw_audio. apply Forall_fmap.
      eapply Forall_impl; [exact Hb|]. intros x ->. done. }
  split; [done|]. split.
  - eapply Forall_impl; [exact Hfinal|]. intros row Hrow.
    eapply Forall_impl; [exact Hrow|]. intros s Hs. cbn in Hs.
    rewrite Forall_forall in Hlevel. by apply Hlevel.
  - intros Hb. unfold level. rewrite Hb. reflexivity.
Qed.

Lemma constant_audio_track_witness :
  let chunks := [replicate (Z.to_nat 8192) xff ++ replicate (Z.to_nat 512) x32] in
  0 < 300
  ∧ (len (@nil byte) = 0 ∨ len (@nil byte) = HEADER_SIZE)
  ∧ ∃ l, _load_process_full true 300 2 ([] ++ concat chunks) = Ok l
    ∧ Forall (λ s, s = 0) (loaded_viz l).
Proof.
  intros chunks.
  assert (0 < 300) as Hm by lia.
  assert (len (@nil byte) = 0 ∨ len (@nil byte) = HEADER_SIZE) as Hh
    by (left; reflexivity).
  split; [exact Hm|]. split; [exact Hh|].
  assert (Forall (λ c, len c = FRAME_SIZE_BYTES
                       ∧ ∀ q, 8192 <= q < 8704 → c !! Z.to_nat q = Some x32)
            chunks) as Hchunks.
  { apply Forall_singleton. split; [reflexivity|]. intros q Hq.
    rewrite lookup_app_r by (rewrite length_replicate; lia).
    rewrite length_replicate. apply lookup_replicate_2. lia. }
  destruct (constant_audio_track true 300 2 [] chunks x32 Hm Hh Hchunks)
    as (l & Hload & Hviz & _).
  exists l. split; [exact Hload|]. exact Hviz.
Defined.

(** ** Overlays *)

Lemma Forall_slice_signed {A} (P : A → Prop) (l : list A) (lo hi : Z) :
  Forall P l → Forall P (slice_signed l lo hi).
Proof.
  intros H. unfold slice_signed, slice. by apply Forall_take, Forall_drop.
Qed.

Lemma range_step_pos (n step : Z) :
  0 < step →
  ∃ idxs, range_step n step = inr idxs ∧ Forall (λ i, 0 <= i < n) idxs.
Proof.
  intros Hs. unfold range_step.
  destruct (decide (step = 0)); [lia|]. destruct (decide (0 < step)); [|lia].
  eexists. split; [done|]. apply Forall_fmap, Forall_forall. intros k Hk.
  apply elem_of_range_from in Hk. cbn.
  pose proof (Z.mul_div_le (n + step - 1) step Hs). nia.
Qed.

Lemma frac_of_width (i n w : Z) :
  0 <= i < n → 0 < w →
  (0 <= inject_Z i / inject_Z n * inject_Z w < inject_Z w)%Q.
Proof.
  intros Hi Hw.
  assert (0 < inject_Z n)%Q as Hn.
  { change 0%Q with (inject_Z 0). rewrite <- Zlt_Qlt. lia. }
  assert (0 < inject_Z w)%Q as Hw'.
  { change 0%Q with (inject_Z 0). by rewrite <- Zlt_Qlt. }
  assert (0 <= inject_Z i / inject_Z n)%Q as H0.
  { apply Qle_shift_div_l; [done|]. rewrite Qmult_0_l.
    change 0%Q with (inject_Z 0). rewrite <- Zle_Qle. lia. }
  assert (inject_Z i / inject_Z n < 1)%Q as H1.
  { apply Qlt_shift_div_r; [done|]. rewrite Qmult_1_l, <- Zlt_Qlt. lia. }
  split; Lqa.nra.
Qed.

Lemma trace_height (s : Z) :
  Z.abs s <= 25000 → (10 < 50 - inject_Z s / 32000 * 50 < 90)%Q.
Proof.
  intros Hs.
  assert (-25000 <= inject_Z s <= 25000)%Q as [Hlo Hhi].
  { unfold Qle. cbn [Qnum Qden inject_Z]. lia. }
  assert (inject_Z s / 32000 == inject_Z s * (1 # 32000))%Q as -> by (by field).
  split; Lqa.lra.
Qed.

Lemma trace_points_in_panel (w : Z) (c idxs : list Z) :
  0 < w → Forall (λ s, Z.abs s <= 25000) c → Forall (λ i, 0 <= i < len c) idxs →
  ∃ pts, trace_points w c idxs = inr pts
    ∧ length pts = length idxs
    ∧ Forall (λ pt : Q * Q, 0 <= pt.1 < inject_Z w ∧ 10 < pt.2 < 90)%Q pts.
Proof.
  intros Hw Hc. induction 1 as [|i idxs Hi _ (pts & Hpts & Hlen & Hall)].
  { by exists []. }
  cbn [trace_points].
  destruct (getitem_in_range c i Hi) as (s & Hs & ->). rewrite Hpts.
  eexists. split; [done|]. split; [by cbn; rewrite Hlen|].
  apply Forall_cons. split; [|done]. cbn [fst snd]. split.
  - by apply frac_of_width.
  - apply trace_height. rewrite Forall_forall in Hc. apply Hc.
    by eapply list_elem_of_lookup_2.
Qed.

Lemma int_Q_ge_1 (q : Q) : (1 <= q)%Q → 1 <= int_Q q.
Proof.
  intros H. rewrite int_Q_floor by Lqa.lra.
  change 1 with (Qfloor 1) at 1. by apply Qfloor_resp_le.
Qed.

Lemma draw_oscilloscope_in_panel (w mix_freq ms : Z) (viz : list Z) :
  0 < w → Forall (λ s, Z.abs s <= 25000) viz →
  ∃ trace, _draw_oscilloscope w mix_freq viz ms = inr trace
    ∧ ∀ pts, trace = Some pts →
        Forall (λ pt : Q * Q, 0 <= pt.1 < inject_Z w ∧ 10 < pt.2 < 90)%Q pts.
Proof.
  intros Hw Hviz. unfold _draw_oscilloscope.
  destruct (decide _); [|by exists None].
  set (c := slice_signed viz _ _).
  destruct (decide (len c > 0)).
  2:{ exists (Some []). split; [done|]. by intros pts [= <-]. }
  destruct (decide (w = 0)); [lia|].
  set (step := if Qlt_le_dec 1 _ then _ else _).
  assert (1 <= step)%Q as Hstep.
  { unfold step. destruct (Qlt_le_dec 1 _); [by apply Qlt_le_weak|done]. }
  destruct (range_step_pos (len c) (int_Q step)) as (idxs & -> & His).
  { pose proof (int_Q_ge_1 step Hstep). lia. }
  destruct (trace_points_in_panel w c idxs) as (pts & -> & _ & Hpts);
    [done|by apply Forall_slice_signed|done|].
  exists (Some pts). split; [done|]. by intros ? [= <-].
Qed.


